(** * lisa.datautils: interval algebra on time-indexed tables

    A shallow embedding of [lisa/datautils.py] (windowing, index
    refitting, squashing of duration-encoded tables, alignment shift
    capping and deduplication) together with the pandas primitives these
    functions call.

    Conventions of the embedding:
    - index values and durations are Python floats in the source; they are
      embedded as exact rationals [Q], compared with [Qeq], so statements
      hold up to the rounding of the floating point operations;
    - a table is the list of its rows in positional order, each row being
      its index value paired with its column values;
    - a raised exception is the left injection of the result type. *)

From Stdlib Require Import String QArith Qround Qabs ZArith Bool List Lia Lqa.
Import ListNotations.
Open Scope Q_scope.

(** ** Exceptions *)

Inductive exn : Type :=
| IndexError
| KeyError
| TypeError
| ValueError
| AssertionError
| OverflowError.

Definition result (A : Type) : Type := (exn + A)%type.

Definition ret {A : Type} (a : A) : result A := inr a.

Definition raise {A : Type} (e : exn) : result A := inl e.

Definition bind {A B : Type} (m : result A) (k : A -> result B) : result B :=
  match m with
  | inl e => inl e
  | inr a => k a
  end.

Notation "x <- m ;; k" := (bind m (fun x => k))
  (at level 61, m at next level, right associativity).

Notation "' p <- m ;; k" := (bind m (fun x => let p := x in k))
  (at level 61, p pattern, m at next level, right associativity).

(** ** Python scalar operations *)

Definition Qltb (x y : Q) : bool := negb (Qle_bool y x).

(** [min(a, b)] returns its first argument unless the second is smaller. *)
Definition py_min (a b : Q) : Q := if Qltb b a then b else a.

(** [max(a, b)] returns its first argument unless the second is larger. *)
Definition py_max (a b : Q) : Q := if Qltb a b then b else a.

(** [int(x)] truncates towards zero. *)
Definition py_int (x : Q) : Z := Z.quot (Qnum x) (Zpos (Qden x)).

(** ** The pandas primitives used by the module

    The index is assumed monotonic increasing, as the module's docstrings
    require; on such an index the label lookups of pandas are binary
    searches, embedded here as the equivalent left-to-right scans. *)

Module Pd.

Section Frame.
Context {A : Type}.

(** A table with payload [A]: a [Series] when [A] is a scalar, a
    [DataFrame] when [A] is a record of columns. *)
Definition frame : Type := list (Q * A).

Definition index (df : frame) : list Q := map fst df.

(** [df.empty] *)
Definition empty (df : frame) : bool :=
  match df with
  | [] => true
  | _ :: _ => false
  end.

(** [df.iloc[slice(lo, hi)]] for non-negative positions. *)
Definition iloc_slice (lo hi : option nat) (df : frame) : frame :=
  let l := match lo with Some l => l | None => O end in
  let h := match hi with Some h => h | None => length df end in
  firstn (h - l) (skipn l df).

(** The last row ([df.index[-1]] with [df.values[-1]]), if any. *)
Definition last_row (df : frame) : option (Q * A) :=
  match df with
  | [] => None
  | r :: rest => Some (last rest r)
  end.

(** [df.tail(1)] *)
Definition tail1 (df : frame) : frame :=
  skipn (length df - 1) df.

(** [df.index = labels], on a frame of as many rows as labels. *)
Definition set_index (labels : list Q) (df : frame) : frame :=
  combine labels (map snd df).

(** [label in df.index] *)
Definition index_mem (label : Q) (df : frame) : bool :=
  existsb (Qeq_bool label) (index df).

(** [df.drop([label])] removes every row carrying the label. *)
Definition drop (label : Q) (df : frame) : frame :=
  filter (fun r => negb (Qeq_bool (fst r) label)) df.

End Frame.

Arguments frame : clear implicits.

(** [index.searchsorted(x, side='left')]: position of the first value
    that is not below [x]. *)
Fixpoint searchsorted_left (ix : list Q) (x : Q) : nat :=
  match ix with
  | [] => O
  | t :: rest => if Qltb t x then S (searchsorted_left rest x) else O
  end.

(** [index.searchsorted(x, side='right')]: position of the first value
    above [x]. *)
Fixpoint searchsorted_right (ix : list Q) (x : Q) : nat :=
  match ix with
  | [] => O
  | t :: rest => if Qle_bool t x then S (searchsorted_right rest x) else O
  end.

(** [df[start:stop]] on a float index: label based, both ends included. *)
Definition loc_slice {A : Type} (start stop : option Q) (df : frame A)
  : frame A :=
  iloc_slice (option_map (searchsorted_left (index df)) start)
             (option_map (searchsorted_right (index df)) stop) df.

(** The [method] argument of [Index.get_loc]. *)
Inductive fill : Type := Ffill | Bfill | Nearest.

(** Position of the last index value at or below [x], if any. *)
Definition pad_loc (ix : list Q) (x : Q) : option nat :=
  match searchsorted_right ix x with
  | O => None
  | S n => Some n
  end.

(** Position of the first index value at or above [x], if any. *)
Definition backfill_loc (ix : list Q) (x : Q) : option nat :=
  let n := searchsorted_left ix x in
  if Nat.ltb n (length ix) then Some n else None.

(** [index.get_loc(x, method=m)]; a missing neighbour is a [KeyError].
    With [nearest], ties go to the larger index value. *)
Definition get_loc (ix : list Q) (x : Q) (m : fill) : result nat :=
  let of_option o :=
    match o with Some n => ret n | None => raise KeyError end in
  match m with
  | Ffill => of_option (pad_loc ix x)
  | Bfill => of_option (backfill_loc ix x)
  | Nearest =>
      match pad_loc ix x, backfill_loc ix x with
      | Some l, Some r =>
          if Qltb (Qabs (nth l ix 0 - x)) (Qabs (nth r ix 0 - x))
          then ret l else ret r
      | Some l, None => ret l
      | None, Some r => ret r
      | None, None => raise KeyError
      end
  end.

End Pd.

Import Pd.

(** ** Duration-encoded tables and [df_squash] *)

Section Squash.
(** The columns of a row other than the duration column. *)
Context {St : Type}.

Record row : Type := Row { delta : Q; state : St }.

(** [df[column] = v] *)
Definition set_column (v : Q) (df : frame row) : frame row :=
  map (fun r => (fst r, Row v (state (snd r)))) df.

(** [df.at[label, column] = v] *)
Definition at_set (label : Q) (v : Q) (df : frame row) : frame row :=
  map (fun r => if Qeq_bool (fst r) label
                then (fst r, Row v (state (snd r))) else r) df.

Definition df_squash (df : frame row) (start end_ : Q) : frame row :=
  match last_row df with
  | None => df
  | Some (t_last, r_last) =>
      let end_ := py_min end_ (t_last + delta r_last) in
      let res_df : frame row := [] in
      if Qltb end_ start then res_df else
      let prev_df := loc_slice None (Some start) df in
      let middle_df := loc_slice (Some start) (Some end_) df in
      let res_df :=
        if negb (empty prev_df) && negb (index_mem start middle_df) then
          let res_df := res_df ++ tail1 prev_df in
          let res_df := set_index [start] res_df in
          let e1 := match middle_df with
                    | [] => end_
                    | (t, _) :: _ => t
                    end in
          set_column (py_min (e1 - start) (end_ - start)) res_df
        else res_df in
      if negb (empty middle_df) then
        let res_df := res_df ++ middle_df in
        if index_mem end_ res_df then drop end_ res_df
        else
          match last_row res_df with
          | Some (t, r) =>
              let d := py_min (end_ - t) (delta r) in
              at_set t d res_df
          | None => res_df
          end
      else res_df
  end.

(** Sum of the duration column. *)
Definition sum_delta (df : frame row) : Q :=
  fold_right (fun r acc => delta (snd r) + acc) 0 df.

End Squash.

Arguments row : clear implicits.

(** ** Windowing: [_data_window], [series_window], [df_window] *)

Section Window.
Context {A : Type}.

(** [index[0]] *)
Definition index_first (ix : list Q) : result Q :=
  match ix with
  | [] => raise IndexError
  | t :: _ => ret t
  end.

(** [index[-1]] *)
Definition index_last (ix : list Q) : result Q :=
  match ix with
  | [] => raise IndexError
  | t :: rest => ret (last rest t)
  end.

(** The clamping of the window done under [clip_window]. *)
Definition clip (ix : list Q) (window : option Q * option Q)
  : result (option Q * option Q) :=
  let '(start, end_) := window in
  first <- index_first ix ;;
  last <- index_last ix ;;
  let start := match start with None => first | Some s => s end in
  let end_ := match end_ with None => last | Some e => e end in
  if Qle_bool start first && Qle_bool end_ first then
    ret (Some first, Some first)
  else if Qle_bool last start && Qle_bool last end_ then
    ret (Some last, Some last)
  else
    let start := if Qle_bool start first then first else start in
    let end_ := if Qle_bool last end_ then last else end_ in
    ret (Some start, Some end_).

(** The general path: each bound is looked up with its own fill method
    and the end position is made inclusive. *)
Definition window_by_position (data : frame A)
    (window : option Q * option Q) (method : fill * fill)
  : result (frame A) :=
  let lookup (x : option Q) (m : fill) : result (option nat) :=
    match x with
    | Some x => n <- get_loc (index data) x m ;; ret (Some n)
    | None => ret None
    end in
  lo <- lookup (fst window) (fst method) ;;
  hi <- lookup (snd window) (snd method) ;;
  hi <- match hi with
        | Some h => ret (h + 1)%nat
        | None => raise TypeError
        end ;;
  ret (iloc_slice lo (Some hi) data).

(** [float64_index] tells whether [data.index] is a [Float64Index]. *)
Definition _data_window (float64_index : bool) (data : frame A)
    (window : option Q * option Q) (method : string) (clip_window : bool)
  : result (frame A) :=
  window <- (if clip_window then clip (index data) window
             else ret window) ;;
  if String.eqb method "inclusive" then
    if float64_index then
      ret (loc_slice (fst window) (snd window) data)
    else window_by_position data window (Ffill, Bfill)
  else if String.eqb method "exclusive" then
    window_by_position data window (Bfill, Ffill)
  else if String.eqb method "nearest" then
    window_by_position data window (Nearest, Nearest)
  else if String.eqb method "pre" then
    window_by_position data window (Ffill, Ffill)
  else if String.eqb method "post" then
    window_by_position data window (Bfill, Bfill)
  else raise ValueError.

(** The public wrappers; the defaults of their Python signatures
    ([method='inclusive'], [clip_window=True]) are passed explicitly. *)
Definition series_window := _data_window.

Definition df_window := _data_window.

(** ** Index refitting: [_data_refit_index] *)

(** [index.iloc[-1] = v] *)
Definition iloc_set_last (v : Q) (ix : list Q) : result (list Q) :=
  match ix with
  | [] => raise IndexError
  | _ :: _ => ret (removelast ix ++ [v])
  end.

(** [index.iloc[0] = v] *)
Definition iloc_set_first (v : Q) (ix : list Q) : result (list Q) :=
  match ix with
  | [] => raise IndexError
  | _ :: rest => ret (v :: rest)
  end.

Definition _data_refit_index (float64_index : bool) (data : frame A)
    (start end_ : option Q) (method : string) : result (frame A) :=
  if empty data then ret data else
  data <- _data_window float64_index data (start, end_) method true ;;
  let ix := index data in
  ix <- match end_ with
        | Some e => iloc_set_last e ix
        | None => ret ix
        end ;;
  ix <- match start with
        | Some s => iloc_set_first s ix
        | None => ret ix
        end ;;
  ret (set_index ix data).

Definition series_refit_index := _data_refit_index.

Definition df_refit_index := _data_refit_index.

End Window.

(** ** Shifting values: [Series.shift] and [DataFrame.shift]

    [shift_values n vs] moves the values [n] rows down (up when [n] is
    negative); vacated rows hold a missing value, embedded as [None]. *)

Definition shift_values {V : Type} (n : Z) (vs : list (option V))
  : list (option V) :=
  let len := length vs in
  if (0 <=? n)%Z then firstn len (repeat None (Z.to_nat n) ++ vs)
  else skipn (Z.to_nat (- n)) vs
       ++ repeat None (Nat.min (Z.to_nat (- n)) len).

(** ** Deduplication: [_data_deduplicate] *)

Section Dedup.
(** Cell values, free of missing values, with their equality test. *)
Context {V : Type} (veqb : V -> V -> bool).

(** The two kinds of data the function accepts. A [DataFrame] row maps
    each column name of [columns] to its cell. *)
Inductive pdata : Type :=
| Series (s : frame V)
| DataFrame (columns : list string) (rows : frame (string -> V)).

(** Truthiness of [all_col] ([None], [True] or [False]) and of [cols]
    ([None] or a list) as Python has it. *)
Definition truthy_bool (b : option bool) : bool :=
  match b with Some true => true | _ => false end.

Definition truthy_list {X : Type} (l : option (list X)) : bool :=
  match l with Some (_ :: _) => true | _ => false end.

(** The columns compared: [cols] when it is set (a name that is not a
    column is a [KeyError]), every column otherwise. *)
Definition compared_columns (columns : list string)
    (cols : option (list string)) : result (list string) :=
  match cols with
  | Some (c :: cs) =>
      if forallb (fun c => existsb (String.eqb c) columns) (c :: cs)
      then ret (c :: cs) else raise KeyError
  | _ => ret columns
  end.

(** [a != b] on cells; a missing value differs from everything. *)
Definition cell_ne (a : V) (b : option V) : bool :=
  match b with
  | Some b => negb (veqb a b)
  | None => true
  end.

(** One row of [dedup_data != dedup_data.shift(shift)]: a cell per
    compared column; [shifted] is the row moved onto this one. *)
Definition row_ne (cols : list string) (r : string -> V)
    (shifted : option (string -> V)) : list bool :=
  map (fun c => cell_ne (r c) (option_map (fun p => p c) shifted)) cols.

(** [data[cond]] with a boolean mask. *)
Fixpoint mask {X : Type} (cond : list bool) (l : list X) : list X :=
  match cond, l with
  | true :: cond, x :: l => x :: mask cond l
  | false :: cond, _ :: l => mask cond l
  | _, _ => []
  end.

Fixpoint list_eqb (a b : list V) : bool :=
  match a, b with
  | [], [] => true
  | x :: a, y :: b => veqb x y && list_eqb a b
  | _, _ => false
  end.

(** [drop_duplicates(keep='first')] on rows compared through [key]:
    a row is dropped when an earlier row has the same key. *)
Fixpoint dedup_first {X K : Type} (keqb : K -> K -> bool) (key : X -> K)
    (seen : list K) (l : list X) : list X :=
  match l with
  | [] => []
  | x :: l =>
      if existsb (keqb (key x)) seen then dedup_first keqb key seen l
      else x :: dedup_first keqb key (key x :: seen) l
  end.

(** [drop_duplicates(keep=keep)], [keep] being ['first'] or ['last']. *)
Definition drop_duplicates {X K : Type} (keqb : K -> K -> bool)
    (key : X -> K) (keep : string) (l : list X) : list X :=
  if String.eqb keep "first" then dedup_first keqb key [] l
  else rev (dedup_first keqb key [] (rev l)).

Definition _data_deduplicate (data : pdata) (keep : string)
    (consecutives : bool) (cols : option (list string))
    (all_col : option bool) : result pdata :=
  shift <- (if String.eqb keep "first" then ret 1%Z
            else if String.eqb keep "last" then ret (-1)%Z
            else raise ValueError) ;;
  if consecutives then
    match data with
    | Series s =>
        (* a series has no columns to select *)
        if truthy_list cols then raise KeyError else
        let dedup_data := map snd s in
        let shifted := shift_values shift (map Some dedup_data) in
        let cond := map (fun ab => cell_ne (fst ab) (snd ab))
                        (combine dedup_data shifted) in
        ret (Series (mask cond s))
    | DataFrame columns rows =>
        dcols <- compared_columns columns cols ;;
        let dedup_data := map snd rows in
        let shifted := shift_values shift (map Some dedup_data) in
        let cond := map (fun ab => row_ne dcols (fst ab) (snd ab))
                        (combine dedup_data shifted) in
        let cond :=
          if truthy_bool all_col then map (existsb (fun b => b)) cond
          else map (forallb (fun b => b)) cond in
        ret (DataFrame columns (mask cond rows))
    end
  else
    if negb (truthy_bool all_col) then raise ValueError
    else
      match data with
      | Series s =>
          (* [Series.drop_duplicates] takes no [subset] *)
          if truthy_list cols then raise TypeError else
          ret (Series (drop_duplicates veqb snd keep s))
      | DataFrame columns rows =>
          dcols <- compared_columns columns cols ;;
          let key (r : Q * (string -> V)) := map (snd r) dcols in
          ret (DataFrame columns (drop_duplicates list_eqb key keep rows))
      end.

Definition series_deduplicate (series : frame V) (keep : string)
    (consecutives : bool) : result pdata :=
  _data_deduplicate (Series series) keep consecutives None None.

Definition df_deduplicate (columns : list string)
    (df : frame (string -> V)) (keep : string) (consecutives : bool)
    (cols : option (list string)) (all_col : option bool)
  : result pdata :=
  _data_deduplicate (DataFrame columns df) keep consecutives cols all_col.

End Dedup.

Arguments pdata : clear implicits.

(** ** Signal alignment: [series_align_signal] *)

Section Align.
(** [scipy.signal.signaltools.correlate], an external routine. *)
Variable correlate : list (option Q) -> list (option Q) -> list (option Q).

(** Signals: a value may be missing (NaN), embedded as [None]. *)
Definition signal : Type := frame (option Q).

(** [series.isnull().any()] *)
Definition isnull_any (s : signal) : bool :=
  existsb (fun r => match snd r with None => true | Some _ => false end) s.

(** [index.min()] and [index.max()]; NaN on an empty index. *)
Definition index_min (ix : list Q) : option Q :=
  match ix with
  | [] => None
  | t :: rest => Some (fold_left py_min rest t)
  end.

Definition index_max (ix : list Q) : option Q :=
  match ix with
  | [] => None
  | t :: rest => Some (fold_left py_max rest t)
  end.

(** Python's [min] and [max] of two floats one of which may be NaN:
    every comparison with NaN is false, so the first argument stays
    unless the second compares strictly better. *)
Definition nan_min (a b : option Q) : option Q :=
  match a, b with
  | Some a, Some b => Some (py_min a b)
  | _, _ => a
  end.

Definition nan_max (a b : option Q) : option Q :=
  match a, b with
  | Some a, Some b => Some (py_max a b)
  | _, _ => a
  end.

(** [pd.Series(index).diff()] without its leading NaN. *)
Fixpoint diffs (ix : list Q) : list Q :=
  match ix with
  | a :: (b :: _) as rest => (b - a) :: diffs rest
  | _ => []
  end.

(** [get_period(series)]: the smallest index step, NaN without one. *)
Definition get_period (s : signal) : option Q :=
  index_min (diffs (index s)).

(** [math.ceil(a / b)] on floats: NaN raises [ValueError], an infinite
    quotient raises [OverflowError]. *)
Definition ceil_div (a b : option Q) : result Z :=
  match a, b with
  | Some a, Some b =>
      if Qeq_bool b 0 then
        if Qeq_bool a 0 then raise ValueError else raise OverflowError
      else ret (Qceiling (a / b))
  | _, _ => raise ValueError
  end.

(** [np.linspace(start, stop, num)] *)
Definition linspace (start stop : Q) (num : Z) : result (list Q) :=
  if (num <? 0)%Z then raise ValueError
  else if (num =? 1)%Z then ret [start]
  else
    let step := (stop - start) / inject_Z (num - 1) in
    ret (map (fun i => start + inject_Z (Z.of_nat i) * step)
             (seq 0 (Z.to_nat num))).

(** [series.reindex(new_index, method='ffill')] *)
Definition reindex_ffill (s : signal) (new_index : list Q) : signal :=
  map (fun x =>
         (x, match pad_loc (index s) x with
             | Some n => nth n (map snd s) None
             | None => None
             end)) new_index.

(** [correlation.argmax()]: the first NaN if there is one, the first
    largest value otherwise; [ValueError] on an empty array. *)
Fixpoint first_nan (vs : list (option Q)) : option nat :=
  match vs with
  | [] => None
  | None :: _ => Some O
  | Some _ :: rest => option_map Datatypes.S (first_nan rest)
  end.

Fixpoint argmax_from (best : Q) (best_pos pos : nat)
    (vs : list (option Q)) : nat :=
  match vs with
  | [] => best_pos
  | Some v :: rest =>
      if Qltb best v then argmax_from v pos (Datatypes.S pos) rest
      else argmax_from best best_pos (Datatypes.S pos) rest
  | None :: rest => argmax_from best best_pos (Datatypes.S pos) rest
  end.

Definition argmax (vs : list (option Q)) : result nat :=
  match vs with
  | [] => raise ValueError
  | v :: rest =>
      match first_nan vs, v with
      | Some n, _ => ret n
      | None, Some v => ret (argmax_from v 0 1 rest)
      | None, None => ret O
      end
  end.

(** The capping of the shift. [period] is the resampling period. *)
Definition cap_shift (shift : Z) (period : Q) (max_shift : option Q)
  : result Z :=
  match max_shift with
  | None => ret shift
  | Some max_shift =>
      if negb (Qle_bool 0 max_shift) then raise AssertionError else
      (* Turn max_shift into a number of samples *)
      let max_shift := py_int (max_shift / period) in
      (* Adjust the sign of max_shift to match shift *)
      let max_shift :=
        (max_shift * (if shift <? 0 then -1 else 1))%Z in
      if (Z.abs max_shift <? Z.abs shift)%Z then ret max_shift
      else ret shift
  end.

(** [series.shift(n)] *)
Definition shift_signal (s : signal) (n : Z) : signal :=
  combine (index s)
          (map (fun v => match v with Some v => v | None => None end)
               (shift_values n (map Some (map snd s)))).

(** Everything up to the shift that is applied: the resampled signals,
    the period and the shift. *)
Definition align_shift (ref to_align : signal) (max_shift : option Q)
  : result (signal * signal * Q * Z) :=
  if isnull_any ref || isnull_any to_align then raise ValueError else
  (* Select the overlapping part of the signals *)
  let start := nan_max (index_min (index ref))
                       (index_min (index to_align)) in
  let end_ := nan_min (index_max (index ref))
                      (index_max (index to_align)) in
  let period := nan_min (get_period ref) (get_period to_align) in
  let span := match start, end_ with
              | Some s, Some e => Some (e - s)
              | _, _ => None
              end in
  num <- ceil_div span period ;;
  match start, end_, period with
  | Some start, Some end_, Some period =>
      new_index <- linspace start end_ num ;;
      let to_align := reindex_ffill to_align new_index in
      let ref := reindex_ffill ref new_index in
      let correlation := correlate (map snd to_align) (map snd ref) in
      pos <- argmax correlation ;;
      let shift := (Z.of_nat pos - Z.of_nat (length to_align))%Z in
      shift <- cap_shift shift period max_shift ;;
      ret (ref, to_align, period, shift)
  | _, _, _ => raise ValueError
  end.

Definition series_align_signal (ref to_align : signal)
    (max_shift : option Q) : result (signal * signal) :=
  '(ref, to_align, _, shift) <- align_shift ref to_align max_shift ;;
  (* Compensate the shift *)
  ret (ref, shift_signal to_align (- shift)).

End Align.

(** ** Properties of tables used in the statements *)

(** The index invariant of a table: strictly increasing values. *)
Fixpoint increasing (ix : list Q) : Prop :=
  match ix with
  | a :: ((b :: _) as rest) => a < b /\ increasing rest
  | _ => True
  end.

(** A duration-encoded table is gap-free when every row but the last is
    followed by a row starting where its duration ends. *)
Fixpoint gap_free {St : Type} (df : frame (row St)) : Prop :=
  match df with
  | r :: ((r' :: _) as rest) =>
      fst r + delta (snd r) == fst r' /\ gap_free rest
  | _ => True
  end.

(** [covers df a b]: the rows of [df] tile the time from [a] to [b],
    each one starting where the one before it ends. *)
Fixpoint covers {St : Type} (df : frame (row St)) (a b : Q) : Prop :=
  match df with
  | [] => a == b
  | r :: rest => fst r == a /\ covers rest (fst r + delta (snd r)) b
  end.

(** The last step of [df_squash], once the rows of the window are
    appended to the result. *)
Definition squash_tail {St : Type} (end_ : Q) (res_df : frame (row St))
  : frame (row St) :=
  if index_mem end_ res_df then drop end_ res_df
  else
    match last_row res_df with
    | Some (t, r) => at_set t (py_min (end_ - t) (delta r)) res_df
    | None => res_df
    end.

(** Rows that agree as numbers on the index and the duration. *)
Definition row_equiv {St : Type} (a b : Q * row St) : Prop :=
  fst a == fst b /\ delta (snd a) == delta (snd b)
  /\ state (snd a) = state (snd b).

Definition frame_equiv {St : Type} : frame (row St) -> frame (row St) -> Prop :=
  Forall2 row_equiv.

(** The rows whose index value lies within the window. *)
Definition in_window {A : Type} (lo hi : Q) (r : Q * A) : bool :=
  Qle_bool lo (fst r) && Qle_bool (fst r) hi.

(** The edge methods [_data_window] accepts. *)
Definition supported (method : string) : bool :=
  existsb (String.eqb method)
    ["inclusive"; "exclusive"; "nearest"; "pre"; "post"]%string.

(** The tables of the docstring examples. *)
Definition squash_example : frame (row Z) :=
  [ (15, Row 1 1%Z); (16, Row 1 0%Z); (17, Row 1 1%Z); (18, Row 1 0%Z) ].

Definition dedup_example : frame Z :=
  [ (1, 1%Z); (2, 2%Z); (20, 2%Z); (30, 3%Z); (40, 4%Z); (50, 2%Z) ].

Definition window_example : frame Z := [ (0, 1%Z); (5, 2%Z); (10, 3%Z) ].

(** The cross-correlation that [correlate] computes in its default
    ['full'] mode, by the direct sum; it serves to run the alignment on
    examples. *)
Definition nan_mul (a b : option Q) : option Q :=
  match a, b with
  | Some a, Some b => Some (a * b)
  | _, _ => None
  end.

Definition nan_add (a b : option Q) : option Q :=
  match a, b with
  | Some a, Some b => Some (a + b)
  | _, _ => None
  end.

Definition correlate_direct (in1 in2 : list (option Q)) : list (option Q) :=
  let n := Nat.max (length in1) (length in2) in
  map (fun k =>
         fold_right nan_add (Some 0)
           (map (fun l => nan_mul (nth l in1 (Some 0))
                            (if (k <=? l + n - 1)%nat
                             then nth (l + n - 1 - k) in2 (Some 0)
                             else Some 0))
                (seq 0 (length in1))))
      (seq 0 (length in1 + length in2 - 1)).

(** Two step signals, the second one rising two index units later. *)
Definition align_ref : signal :=
  [ (0, Some 0); (1, Some 1); (2, Some 1); (3, Some 1); (4, Some 1) ].

Definition align_late : signal :=
  [ (0, Some 0); (1, Some 0); (2, Some 0); (3, Some 1); (4, Some 1) ].

(** ** Row filtering: [df_filter] *)

Section Filter.
Context {V : Type} (veqb : V -> V -> bool).

(** [df[col] == val]: one boolean per row; [KeyError] without the
    column. *)
Definition column_eq (columns : list string) (rows : frame (string -> V))
    (col : string) (val : V) : result (list bool) :=
  if existsb (String.eqb col) columns
  then ret (map (fun r => veqb (snd r col) val) rows)
  else raise KeyError.

(** [a & b] on boolean columns of one index. *)
Definition and_columns (a b : list bool) : list bool :=
  map (fun ab => andb (fst ab) (snd ab)) (combine a b).

(** [functools.reduce(operator.and_, ...)] once its first item [acc] is
    taken; the items are computed as the reduction reaches them. *)
Fixpoint reduce_and (columns : list string) (rows : frame (string -> V))
    (acc : list bool) (items : list (string * V)) : result (list bool) :=
  match items with
  | [] => ret acc
  | (col, val) :: rest =>
      k <- column_eq columns rows col val ;;
      reduce_and columns rows (and_columns acc k) rest
  end.

(** [filter_columns] is the list of the items of the dict. Reducing no
    item at all without an initial value is a [TypeError]. *)
Definition df_filter (columns : list string) (df : frame (string -> V))
    (filter_columns : list (string * V)) : result (frame (string -> V)) :=
  match filter_columns with
  | [] => raise TypeError
  | (col, val) :: rest =>
      k <- column_eq columns df col val ;;
      key <- reduce_and columns df k rest ;;
      ret (mask key df)
  end.

End Filter.

(** ** Integration: [_resolve_x], [series_integrate], [series_mean] *)

(** A numpy float: finite, infinite or NaN. *)
Inductive npfloat : Type :=
| Fin (q : Q)
| Inf (negative : bool)
| NaN.

Section Integrate.
(** [scipy.integrate.simps], an external routine. *)
Variable simps : list Q -> list Q -> npfloat.

(** [series.diff()]: the first row has no predecessor. *)
Definition nan_sub (a b : option Q) : option Q :=
  match a, b with
  | Some a, Some b => Some (a - b)
  | _, _ => None
  end.

Definition diff (vs : list (option Q)) : list (option Q) :=
  map (fun ab => nan_sub (fst ab) (snd ab))
      (combine vs (shift_values 1 vs)).

(** [series.sum()] skips the missing values. *)
Definition nan_sum (vs : list (option Q)) : Q :=
  fold_right (fun v acc => match v with Some v => v + acc | None => acc end)
             0 vs.

(** [series.max()] and [series.min()] skip the missing values and are
    NaN when nothing is left. *)
Definition present (vs : list (option Q)) : list Q :=
  flat_map (fun v => match v with Some v => [v] | None => [] end) vs.

Definition series_max (vs : list (option Q)) : option Q :=
  index_max (present vs).

Definition series_min (vs : list (option Q)) : option Q :=
  index_min (present vs).

(** [y.clip(lower=0)] and [y.clip(upper=0)] *)
Definition clip_lower0 (vs : list (option Q)) : list (option Q) :=
  map (option_map (fun v => if Qltb v 0 then 0 else v)) vs.

Definition clip_upper0 (vs : list (option Q)) : list (option Q) :=
  map (option_map (fun v => if Qltb 0 v then 0 else v)) vs.

(** [np.trapz(y, x)] *)
Fixpoint trapz (y x : list Q) : Q :=
  match y, x with
  | y0 :: ((y1 :: _) as ys), x0 :: ((x1 :: _) as xs) =>
      (x1 - x0) * ((y1 + y0) / 2) + trapz ys xs
  | _, _ => 0
  end.

(** The rows of [pd.DataFrame({'x': x, 'y': y}).dropna()]. *)
Definition dropna_xy (y x : list (option Q)) : list (Q * Q) :=
  flat_map (fun yx => match yx with
                      | (Some y, Some x) => [(y, x)]
                      | _ => []
                      end) (combine y x).

(** The values of [x] once resolved: the index of [y] when [x] is
    [None]. [y] and [x] are to have the same index, as the docstrings
    ask, so that they are matched row by row. *)
Definition _resolve_x (y : signal) (x : option (list (option Q)))
  : list (option Q) :=
  match x with
  | None => map Some (index y)
  | Some x => x
  end.

Definition series_integrate (y : signal) (x : option (list (option Q)))
    (sign : option string) (method rect_step : string) : result npfloat :=
  let x := _resolve_x y x in
  let y := map snd y in
  y <- match sign with
       | None => ret y
       | Some sg =>
           if String.eqb sg "+" then ret (clip_lower0 y)
           else if String.eqb sg "-" then ret (clip_upper0 y)
           else raise ValueError
       end ;;
  if String.eqb method "rect" then
    let dx := diff x in
    let dx := if String.eqb rect_step "post" then shift_values (-1) dx
              else dx in
    ret (Fin (nan_sum (map (fun ab => nan_mul (fst ab) (snd ab))
                           (combine y dx))))
  else
    let df := dropna_xy y x in
    let x := map snd df in
    let y := map fst df in
    if String.eqb method "trapz" then ret (Fin (trapz y x))
    else if String.eqb method "simps" then ret (simps y x)
    else raise ValueError.

(** [a / b] for a numpy float [a] and a difference [b] of floats that is
    never negative here and may be NaN. *)
Definition np_div (a : npfloat) (b : option Q) : npfloat :=
  match b with
  | None => NaN
  | Some b =>
      match a with
      | NaN => NaN
      | Inf s => Inf s
      | Fin q =>
          if Qeq_bool b 0 then
            if Qeq_bool q 0 then NaN else Inf (Qltb q 0)
          else Fin (q / b)
      end
  end.

Definition series_mean (y : signal) (x : option (list (option Q)))
    (sign : option string) (method rect_step : string) : result npfloat :=
  let xv := _resolve_x y x in
  integral <- series_integrate y x sign method rect_step ;;
  ret (np_div integral (nan_sub (series_max xv) (series_min xv))).

End Integrate.

(** The sum of the products of values and index steps, row by row, as
    the rectangle integration forms it. *)
Definition dot (ys : list (option Q)) (ds : list Q) : Q :=
  nan_sum (map (fun ab => nan_mul (fst ab) (snd ab))
               (combine ys (map Some ds))).

(** A signal free of missing values. *)
Definition plain_signal (l : frame Q) : signal :=
  map (fun r => (fst r, Some (snd r))) l.

(** A row passes the filter when each column holds the value asked. *)
Definition row_matches {V : Type} (veqb : V -> V -> bool)
    (fc : list (string * V)) (r : Q * (string -> V)) : bool :=
  forallb (fun cv => veqb (snd r (fst cv)) (snd cv)) fc.

(** No two neighbours of a list are equal. *)
Fixpoint no_repeat {V : Type} (vs : list V) : Prop :=
  match vs with
  | a :: ((b :: _) as rest) => a <> b /\ no_repeat rest
  | _ => True
  end.

(** The values of a list with each run of equal values brought down to
    one value. *)
Fixpoint compress {V : Type} (veqb : V -> V -> bool) (vs : list V) : list V :=
  match vs with
  | a :: ((b :: _) as rest) =>
      if veqb a b then compress veqb rest else a :: compress veqb rest
  | _ => vs
  end.

(** ** Task filtering: [df_filter_task_ids] *)

(** The cells of the columns looked at: PIDs and task names. *)
Inductive cell : Type :=
| CInt (z : Z)
| CStr (s : string).

Definition cell_eqb (a b : cell) : bool :=
  match a, b with
  | CInt a, CInt b => Z.eqb a b
  | CStr a, CStr b => String.eqb a b
  | _, _ => false
  end.

(** [lisa.trace.TaskID]: either field may be [None]. *)
Record TaskID : Type := mkTaskID { pid : option Z; comm : option string }.

(** What [&], [|] and [~] are applied to: a Python [bool] or a boolean
    column of the table. *)
Inductive pymask : Type :=
| Scalar (b : bool)
| Column (bs : list bool).

Definition or_columns (a b : list bool) : list bool :=
  map (fun ab => orb (fst ab) (snd ab)) (combine a b).

Definition and_mask (a b : pymask) : pymask :=
  match a, b with
  | Scalar a, Scalar b => Scalar (a && b)
  | Scalar a, Column bs => Column (map (andb a) bs)
  | Column bs, Scalar b => Column (map (fun x => x && b) bs)
  | Column a, Column b => Column (and_columns a b)
  end.

Definition or_mask (a b : pymask) : pymask :=
  match a, b with
  | Scalar a, Scalar b => Scalar (a || b)
  | Scalar a, Column bs => Column (map (orb a) bs)
  | Column bs, Scalar b => Column (map (fun x => x || b) bs)
  | Column a, Column b => Column (or_columns a b)
  end.

(** [s[:n]] *)
Definition py_prefix (s : string) (n : Z) : string :=
  let len := Z.of_nat (String.length s) in
  let stop := if (n <? 0)%Z then Z.max 0 (len + n) else Z.min n len in
  substring 0 (Z.to_nat stop) s.

(** A column name that is truthy: neither [None] nor the empty string. *)
Definition col_name (c : option string) : option string :=
  match c with
  | Some s => if String.eqb s "" then None else Some s
  | None => None
  end.

Section FilterTaskIds.
Variables (columns : list string) (df : frame (string -> cell)).
Variables (pid_col comm_col : option string) (comm_max_len : Z).

Definition make_filter (task_id : TaskID) : result pymask :=
  pid_f <- match col_name pid_col, pid task_id with
           | Some c, Some p =>
               k <- column_eq cell_eqb columns df c (CInt p) ;;
               ret (Column k)
           | _, _ => ret (Scalar true)
           end ;;
  comm_f <- match col_name comm_col, comm task_id with
            | Some c, Some s =>
                k <- column_eq cell_eqb columns df c
                       (CStr (py_prefix s comm_max_len)) ;;
                ret (Column k)
            | _, _ => ret (Scalar true)
            end ;;
  ret (and_mask pid_f comm_f).

(** [functools.reduce(operator.or_, map(make_filter, task_ids), acc)]:
    the filters are made as the reduction reaches them. *)
Fixpoint reduce_or (acc : pymask) (task_ids : list TaskID)
  : result pymask :=
  match task_ids with
  | [] => ret acc
  | t :: rest =>
      f <- make_filter t ;;
      reduce_or (or_mask acc f) rest
  end.

(** When the filter is still a Python [bool] ([~] turns it into an
    [int]), [df[...]] looks for a column of that name: a [KeyError], the
    columns being named by strings. *)
Definition df_filter_task_ids (task_ids : list TaskID) (invert : bool)
  : result (frame (string -> cell)) :=
  tasks_filter <- reduce_or (Scalar false) task_ids ;;
  match tasks_filter with
  | Scalar _ => raise KeyError
  | Column bs => ret (mask (if invert then map negb bs else bs) df)
  end.

(** The task id sets a field that is compared with a column. *)
Definition task_constrains (t : TaskID) : bool :=
  match col_name pid_col, pid t with
  | Some _, Some _ => true
  | _, _ => false
  end
  || match col_name comm_col, comm t with
     | Some _, Some _ => true
     | _, _ => false
     end.

(** The row is a row of the task: it agrees with every field that the
    task id sets. *)
Definition task_matches (t : TaskID) (r : Q * (string -> cell)) : bool :=
  match col_name pid_col, pid t with
  | Some c, Some p => cell_eqb (snd r c) (CInt p)
  | _, _ => true
  end
  && match col_name comm_col, comm t with
     | Some c, Some s => cell_eqb (snd r c) (CStr (py_prefix s comm_max_len))
     | _, _ => true
     end.

(** What a filter stands for, row by row. *)
Definition denotes (m : pymask) (g : Q * (string -> cell) -> bool) : Prop :=
  match m with
  | Scalar b => forall r, g r = b
  | Column bs => bs = map g df
  end.

End FilterTaskIds.

Definition is_column (m : pymask) : bool :=
  match m with Column _ => true | Scalar _ => false end.

Definition tasks_example : frame (string -> cell) :=
  let r (p : Z) (c : string) : string -> cell :=
    fun col => if String.eqb col "pid" then CInt p else CStr c in
  [ (0, r 1%Z "init"%string); (1, r 7%Z "sh"%string);
    (2, r 7%Z "sh"%string); (3, r 9%Z "cat"%string) ].

(** ** Splitting by signal: [df_split_signals] *)

Section Split.
(** Cell values with their equality and order tests. *)
Context {V : Type} (veqb vltb : V -> V -> bool).

(** The key of a row: its values in the grouping columns. *)
Definition signal_key (cols : list string) (r : Q * (string -> V))
  : list V :=
  map (snd r) cols.

(** Keys are ordered as tuples. *)
Fixpoint key_ltb (a b : list V) : bool :=
  match a, b with
  | x :: a, y :: b => vltb x y || (veqb x y && key_ltb a b)
  | [], _ :: _ => true
  | _, _ => false
  end.

Fixpoint insert_key (k : list V) (ks : list (list V)) : list (list V) :=
  match ks with
  | [] => [k]
  | k' :: rest =>
      if key_ltb k' k then k' :: insert_key k rest else k :: ks
  end.

Definition sort_keys (ks : list (list V)) : list (list V) :=
  fold_right insert_key [] ks.

(** [df.groupby(cols)], iterated: a group for each key of the table, the
    keys in ascending order, with the rows of that key in their order. A
    name that is not a column is a [KeyError]. *)
Definition groupby (columns : list string) (df : frame (string -> V))
    (cols : list string)
  : result (list (list V * frame (string -> V))) :=
  if forallb (fun c => existsb (String.eqb c) columns) cols then
    let keys :=
      sort_keys (dedup_first (list_eqb veqb) (fun k => k) []
                             (map (signal_key cols) df)) in
    ret (map (fun k =>
                (k, filter (fun r => list_eqb veqb (signal_key cols r) k) df))
             keys)
  else raise KeyError.

Fixpoint map_result {X Y : Type} (f : X -> result Y) (l : list X)
  : result (list Y) :=
  match l with
  | [] => ret []
  | x :: l =>
      y <- f x ;;
      ys <- map_result f l ;;
      ret (y :: ys)
  end.

(** The pairs that the generator yields, in order; [cols_val] is the
    list of the items of the dict. *)
Definition df_split_signals (float64_index : bool) (columns : list string)
    (df : frame (string -> V)) (signal_cols : list string)
    (align_start : bool)
  : result (list (list (string * V) * frame (string -> V))) :=
  match signal_cols with
  | [] => ret [([], df)]
  | _ :: _ =>
      groups <- groupby columns df signal_cols ;;
      map_result
        (fun gs =>
           let cols_val := combine signal_cols (fst gs) in
           signal <- (if align_start then
                        first <- index_first (index df) ;;
                        df_refit_index float64_index (snd gs)
                                       (Some first) None "inclusive"
                      else ret (snd gs)) ;;
           ret (cols_val, signal))
        groups
  end.

End Split.

Definition signals_example : frame (string -> Z) :=
  let r (cpu freq : Z) : string -> Z :=
    fun col => if String.eqb col "cpu" then cpu else freq in
  [ (0, r 1%Z 800%Z); (1, r 0%Z 600%Z); (2, r 1%Z 900%Z);
    (4, r 0%Z 700%Z); (5, r 2%Z 500%Z) ].


Definition signed_example : signal :=
  [ (0, Some 2); (1, Some (-1)); (3, None); (4, Some 1) ].

Definition run_example : frame Z := [ (0, 1%Z); (1, 1%Z); (2, 2%Z) ].

(** ** Derivation: [series_derivate] *)

(** A float of a series: a missing value is NaN. *)
Definition of_nan (v : option Q) : npfloat :=
  match v with
  | Some q => Fin q
  | None => NaN
  end.

(** [a - b] and [a / b] on numpy floats. A zero divisor is taken as the
    positive zero, which is what the difference of two equal finite
    floats is. *)
Definition np_sub (a b : npfloat) : npfloat :=
  match a, b with
  | NaN, _ | _, NaN => NaN
  | Fin p, Fin q => Fin (p - q)
  | Inf s, Fin _ => Inf s
  | Fin _, Inf s => Inf (negb s)
  | Inf s, Inf s' => if Bool.eqb s s' then NaN else Inf s
  end.

Definition np_truediv (a b : npfloat) : npfloat :=
  match a, b with
  | NaN, _ | _, NaN => NaN
  | Inf _, Inf _ => NaN
  | Inf s, Fin q => Inf (xorb s (Qltb q 0))
  | Fin _, Inf _ => Fin 0
  | Fin p, Fin q =>
      if Qeq_bool q 0 then
        if Qeq_bool p 0 then NaN else Inf (Qltb p 0)
      else Fin (p / q)
  end.

(** [series.diff()] on floats. *)
Definition np_diff (vs : list npfloat) : list npfloat :=
  map (fun ab => match snd ab with
                 | Some b => np_sub (fst ab) b
                 | None => NaN
                 end)
      (combine vs (shift_values 1 (map Some vs))).

(** One round of the loop, [y.diff() / x.diff()], with [dx] for
    [x.diff()]. *)
Definition derivate_step (dx vs : list npfloat) : list npfloat :=
  map (fun ab => np_truediv (fst ab) (snd ab)) (combine (np_diff vs) dx).

(** [y] and [x] are to have the same index, as the docstring asks, so
    that they are matched row by row. *)
Definition series_derivate (y : signal) (x : option (list (option Q)))
    (order : Z) : frame npfloat :=
  let x := map of_nan (_resolve_x y x) in
  combine (index y)
          (Nat.iter (Z.to_nat order) (derivate_step (np_diff x))
                    (map of_nan (map snd y))).

(** The differences of neighbours, and quotients taken pair by pair. *)
Fixpoint adj_sub (vs : list npfloat) : list npfloat :=
  match vs with
  | a :: ((b :: _) as rest) => np_sub b a :: adj_sub rest
  | _ => []
  end.

Definition quotients (ns ds : list Q) : list Q :=
  map (fun nd => fst nd / snd nd) (combine ns ds).

(** A signal on a line of slope 2. *)
Definition affine_example : frame Q := [ (0, 1); (1, 3); (3, 7); (4, 9) ].

(** ** Windowing by signal: [df_window_signals] *)

Section WindowSignals.
Context {V : Type} (veqb vltb : V -> V -> bool).
(** [np.nextafter(curr, -math.inf)], an external routine. *)
Variable nextafter_down : Q -> Q.

(** [signal_start <= start <= signal_end]; comparing a float with [None]
    is a [TypeError]. *)
Definition signal_in_window (signal_df : frame (string -> V))
    (window : option Q * option Q) : result bool :=
  signal_start <- index_first (index signal_df) ;;
  signal_end <- index_last (index signal_df) ;;
  match fst window with
  | Some start =>
      ret (Qle_bool signal_start start && Qle_bool start signal_end)
  | None => raise TypeError
  end.

(** The list comprehension: the [pre] window of each signal that is in
    the window. *)
Fixpoint signal_windows (float64_index : bool)
    (window : option Q * option Q)
    (signals : list (list (string * V) * frame (string -> V)))
  : result (list (frame (string -> V))) :=
  match signals with
  | [] => ret []
  | (_, signal_df) :: rest =>
      relevant <- signal_in_window signal_df window ;;
      if relevant then
        w <- df_window float64_index signal_df window "pre" true ;;
        ws <- signal_windows float64_index window rest ;;
        ret (w :: ws)
      else signal_windows float64_index window rest
  end.

(** [sorted(signal_df_list, key=lambda df: df.index[0])]: the keys are
    taken first, and the sort is stable. *)
Fixpoint insert_sorted {X : Type} (x : Q * X) (l : list (Q * X))
  : list (Q * X) :=
  match l with
  | [] => [x]
  | y :: rest =>
      if Qle_bool (fst x) (fst y) then x :: l
      else y :: insert_sorted x rest
  end.

Definition sorted_by_first (l : list (frame (string -> V)))
  : result (list (frame (string -> V))) :=
  keyed <- map_result (fun s => k <- index_first (index s) ;; ret (k, s)) l ;;
  ret (map snd (fold_right insert_sorted [] keyed)).

(** [smallest_increment(start, length)] *)
Fixpoint smallest_increment (curr : Q) (length : nat) : list Q :=
  match length with
  | O => []
  | S n =>
      let curr := nextafter_down curr in
      curr :: smallest_increment curr n
  end.

(** [pd.concat] of no table at all is a [ValueError]. *)
Definition df_window_signals (float64_index : bool)
    (columns : list string) (df : frame (string -> V))
    (window : option Q * option Q) (signal_cols : list string)
    (compress_init : bool) : result (frame (string -> V)) :=
  signals <- df_split_signals veqb vltb float64_index columns df
                              signal_cols false ;;
  signal_df_list <- signal_windows float64_index window signals ;;
  windowed_df <- df_window float64_index df window "pre" true ;;
  sorted <- sorted_by_first signal_df_list ;;
  init_df <- match sorted with
             | [] => raise ValueError
             | _ :: _ =>
                 ret (concat (map (iloc_slice (Some 0%nat) (Some 1%nat))
                                  sorted))
             end ;;
  init_index <- (if compress_init then
                   w0 <- index_first (index windowed_df) ;;
                   ret (rev (smallest_increment w0 (length init_df)))
                 else ret (index init_df)) ;;
  ret (set_index init_index init_df ++ windowed_df).

End WindowSignals.

(** The rows of a signal are on both sides of [s]: its first row is at
    or before [s] and its last row at or after. *)
Definition straddles {A : Type} (s : Q) (signal_df : frame A) : bool :=
  match signal_df with
  | [] => false
  | r0 :: rest =>
      Qle_bool (fst r0) s && Qle_bool s (last (index rest) (fst r0))
  end.

(** [r] is the last row of the signal at or before [s]. *)
Definition last_at_or_before {A : Type} (s : Q) (signal_df : frame A)
    (r : Q * A) : Prop :=
  exists before after,
    signal_df = before ++ r :: after
    /\ fst r <= s
    /\ Forall (fun x => s < fst x) after.

(** Labels that never go down. *)
Fixpoint nondecreasing (ix : list Q) : Prop :=
  match ix with
  | a :: ((b :: _) as rest) => a <= b /\ nondecreasing rest
  | _ => True
  end.

(** * Theorems *)

(** ** Comparisons *)

Lemma Qltb_lt (x y : Q) : Qltb x y = true <-> x < y.
Proof.
  unfold Qltb. rewrite negb_true_iff. split; intro H.
  - apply Qnot_le_lt. intro C. apply Qle_bool_iff in C. congruence.
  - destruct (Qle_bool y x) eqn:E; [|reflexivity].
    apply Qle_bool_iff in E. exfalso. apply (Qlt_not_le _ _ H E).
Qed.

Lemma Qltb_ge (x y : Q) : Qltb x y = false <-> y <= x.
Proof.
  unfold Qltb. rewrite negb_false_iff. apply Qle_bool_iff.
Qed.

Lemma Qle_bool_gt (x y : Q) : Qle_bool x y = false <-> y < x.
Proof.
  rewrite <- Qltb_lt. unfold Qltb. rewrite negb_true_iff. reflexivity.
Qed.

Lemma Qeq_bool_false (x y : Q) : Qeq_bool x y = false <-> ~ x == y.
Proof.
  split.
  - apply Qeq_bool_neq.
  - intro H. destruct (Qeq_bool x y) eqn:E; [|reflexivity].
    apply Qeq_bool_iff in E. contradiction.
Qed.

Lemma py_min_spec (a b : Q) :
  (py_min a b = a /\ a <= b) \/ (py_min a b = b /\ b < a).
Proof.
  unfold py_min. destruct (Qltb b a) eqn:E.
  - right. split; [reflexivity|]. now apply Qltb_lt.
  - left. split; [reflexivity|]. now apply Qltb_ge.
Qed.

(** Turns the boolean tests of the embedding into order facts. *)
Ltac order_facts :=
  repeat match goal with
  | H : Qltb _ _ = true |- _ => apply Qltb_lt in H
  | H : Qltb _ _ = false |- _ => apply Qltb_ge in H
  | H : Qle_bool _ _ = true |- _ => apply Qle_bool_iff in H
  | H : Qle_bool _ _ = false |- _ => apply Qle_bool_gt in H
  | H : Qeq_bool _ _ = true |- _ => apply Qeq_bool_iff in H
  | H : Qeq_bool _ _ = false |- _ => apply Qeq_bool_false in H
  end.

(** ** Worked examples *)

(** C2: the docstring example of [df_squash]. Squashing the four-row
    table to (16.5, 17.5) gives the two rows (16.5, 0.5, 0), (17, 0.5, 1),
    and squashing it to (16.2, 16.8) gives the single row (16.2, 0.6, 0). *)
Theorem df_squash_worked_example :
  frame_equiv (df_squash squash_example 16.5 17.5)
              [ (16.5, Row 0.5 0%Z); (17, Row 0.5 1%Z) ]
  /\ frame_equiv (df_squash squash_example 16.2 16.8)
                 [ (16.2, Row 0.6 0%Z) ].
Proof.
  split; vm_compute; repeat constructor.
Qed.

(** ** Deduplication *)

(** Removing consecutive duplicates from the docstring series keeps the
    later reappearance of the value 2. *)
Lemma series_deduplicate_consecutives_example :
  series_deduplicate Z.eqb dedup_example "first" true
  = inr (Series [ (1, 1%Z); (2, 2%Z); (30, 3%Z); (40, 4%Z); (50, 2%Z) ]).
Proof. reflexivity. Qed.

(** [series_deduplicate] hands [all_col=None] to [_data_deduplicate],
    whose global branch rejects every falsy [all_col]. *)
Lemma series_deduplicate_global_raises {V : Type} (veqb : V -> V -> bool)
    (s : frame V) (keep : string) :
  series_deduplicate veqb s keep false = inl ValueError.
Proof.
  unfold series_deduplicate, _data_deduplicate.
  destruct (String.eqb keep "first"); [reflexivity|].
  destruct (String.eqb keep "last"); reflexivity.
Qed.

(** With [all_col=True] the global branch gives the values the docstring
    announces. *)
Lemma _data_deduplicate_global_example :
  _data_deduplicate Z.eqb (Series dedup_example) "first" false None
                    (Some true)
  = inr (Series [ (1, 1%Z); (2, 2%Z); (30, 3%Z); (40, 4%Z) ]).
Proof. reflexivity. Qed.

(** C7: on the docstring series [1,2,2,3,4,2], [keep='first'] with
    [consecutives=False] does not return [1,2,3,4]: the call raises
    [ValueError]. *)
Theorem series_deduplicate_docstring_global :
  series_deduplicate Z.eqb dedup_example "first" false = inl ValueError.
Proof. reflexivity. Qed.

(** ** Windowing *)

Section WindowFacts.
Context {A : Type}.
Implicit Types (data : frame A) (r : Q * A).

Lemma iloc_slice_block (lo hi : option nat) data :
  exists pre post, data = pre ++ iloc_slice lo hi data ++ post.
Proof.
  unfold iloc_slice.
  set (l := match lo with Some l => l | None => O end).
  set (h := match hi with Some h => h | None => length data end).
  exists (firstn l data), (skipn (h - l) (skipn l data)).
  now rewrite firstn_skipn, firstn_skipn.
Qed.

Lemma window_by_position_block data window method res :
  window_by_position data window method = inr res ->
  exists pre post, data = pre ++ res ++ post.
Proof.
  unfold window_by_position, bind, ret, raise. intro H.
  repeat match type of H with
         | match ?x with _ => _ end = _ => destruct x; try discriminate
         end.
  all: injection H as <-; apply iloc_slice_block.
Qed.

(** C10: whatever the edge method and the clipping, a window that
    [_data_window] returns is a contiguous block of the input: the
    input is some rows, then the result as it stands, then some rows. *)
Theorem _data_window_contiguous (float64_index : bool) data
    (window : option Q * option Q) (method : string) (clip_window : bool)
    (res : frame A) :
  _data_window float64_index data window method clip_window = inr res ->
  exists pre post, data = pre ++ res ++ post.
Proof.
  unfold _data_window. intro H.
  destruct (if clip_window then clip (index data) window else ret window)
    as [e|w]; [discriminate|].
  cbn [bind] in H.
  destruct (String.eqb method "inclusive").
  { destruct float64_index.
    - injection H as <-. apply iloc_slice_block.
    - eapply window_by_position_block; eassumption. }
  repeat match type of H with
         | (if ?c then _ else _) = _ => destruct c
         end;
    try (eapply window_by_position_block; eassumption).
  discriminate.
Qed.

End WindowFacts.

(** C5: the two paths of the inclusive method do not agree on a window
    whose bounds fall between index values: on the index [0, 5, 10] and
    the window (2, 8) the native slice of a float index keeps the row
    inside the window, the position lookup also keeps the two
    neighbours outside of it. *)
Theorem inclusive_paths_differ :
  _data_window true window_example (Some 2, Some 8) "inclusive" false
  = inr [ (5, 2%Z) ]
  /\ _data_window false window_example (Some 2, Some 8) "inclusive" false
     = inr [ (0, 1%Z); (5, 2%Z); (10, 3%Z) ].
Proof. split; reflexivity. Qed.

(** ** Empty tables *)

(** On an empty table the clipped window reads [index[0]] and fails,
    whatever the window, the method and the kind of index. *)
Lemma window_empty_clipped {A : Type} (float64_index : bool)
    (window : option Q * option Q) (method : string) :
  @_data_window A float64_index [] window method true = inl IndexError.
Proof. destruct window. reflexivity. Qed.

Lemma window_empty_not_returned :
  df_window false ([] : frame Z) (Some 0, Some 1) "inclusive" true
  <> inr [].
Proof. discriminate. Qed.

(** C6, as the code has it: refitting, squashing and deduplication hand
    an empty table back unchanged (deduplication for a known [keep], for
    columns that exist and, on a data frame not restricted to consecutive
    rows, with [all_col=True]); windowing hands it back unchanged on the
    native path of a float index when the window is not clipped. *)
Theorem empty_table_behaviour {A St V : Type} (veqb : V -> V -> bool)
    (keep : string) (columns dcols : list string)
    (cols : option (list string)) :
  keep = "first"%string \/ keep = "last"%string ->
  compared_columns columns cols = inr dcols ->
  (forall fl start end_ method,
      @df_refit_index A fl [] start end_ method = inr []
      /\ @series_refit_index A fl [] start end_ method = inr [])
  /\ (forall start end_, @df_squash St [] start end_ = [])
  /\ series_deduplicate veqb [] keep true = inr (Series [])
  /\ (forall all_col,
         df_deduplicate veqb columns [] keep true cols all_col
         = inr (DataFrame columns []))
  /\ df_deduplicate veqb columns [] keep false cols (Some true)
     = inr (DataFrame columns [])
  /\ (forall window,
         @df_window A true [] window "inclusive" false = inr []
         /\ @series_window A true [] window "inclusive" false = inr []).
Proof.
  intros Hkeep Hcols.
  assert (Hshift : exists n : Z,
             (if String.eqb keep "first" then ret 1%Z
              else if String.eqb keep "last" then ret (-1)%Z
              else raise ValueError) = inr n)
    by (destruct Hkeep; subst keep; eexists; reflexivity).
  destruct Hshift as [n Hn].
  split; [intros; split; reflexivity|].
  split; [reflexivity|].
  unfold series_deduplicate, df_deduplicate, _data_deduplicate.
  rewrite Hn, Hcols. cbn.
  split; [reflexivity|].
  split; [intro all_col; destruct (truthy_bool all_col); reflexivity|].
  split.
  - destruct Hkeep; subst keep; reflexivity.
  - intros [[s|] [e|]]; split; reflexivity.
Qed.

Lemma empty_table_behaviour_witness :
  series_deduplicate Z.eqb [] "last" true = inr (Series [])
  /\ df_deduplicate Z.eqb ["pid"; "comm"]%string [] "last" false
       (Some ["pid"]%string) (Some true)
     = inr (DataFrame ["pid"; "comm"]%string [])
  /\ df_refit_index false ([] : frame Z) (Some 1) (Some 2) "pre" = inr [].
Proof.
  pose proof (@empty_table_behaviour Z Z Z Z.eqb "last"
                ["pid"; "comm"]%string ["pid"]%string
                (Some ["pid"]%string)
                (or_intror eq_refl) eq_refl) as H.
  split; [apply H|]. split; [apply H|].
  destruct H as [H _]. apply (H false (Some 1) (Some 2) "pre"%string).
Defined.

(** ** Index refitting *)

Section RefitFacts.
Context {A : Type}.
Implicit Types (data w res : frame A).

Lemma index_set_index (ix : list Q) w :
  length ix = length w ->
  index (set_index ix w) = ix /\ map snd (set_index ix w) = map snd w.
Proof.
  unfold index, set_index. revert w.
  induction ix as [|t ix IH]; intros [|r w] Hl; try discriminate.
  - split; reflexivity.
  - cbn. injection Hl as Hl. destruct (IH _ Hl) as [-> ->].
    split; reflexivity.
Qed.

Lemma iloc_set_last_spec (e : Q) (ix : list Q) :
  ix <> [] ->
  exists ix', iloc_set_last e ix = inr ix'
              /\ length ix' = length ix
              /\ index_last ix' = inr e
              /\ ((2 <= length ix)%nat -> hd_error ix' = hd_error ix).
Proof.
  intro Hne. destruct (exists_last Hne) as (l & t & ->).
  exists (l ++ [e]). repeat split.
  - unfold iloc_set_last. rewrite removelast_last.
    now destruct l.
  - now rewrite !length_app.
  - destruct l as [|a l]; [reflexivity|].
    cbn. unfold ret. f_equal. apply last_last.
  - rewrite length_app. cbn. intro Hl.
    destruct l as [|a l]; [cbn in Hl; lia | reflexivity].
Qed.

Lemma last_nonempty_default {X : Type} (l : list X) (a d d' : X) :
  last (a :: l) d = last (a :: l) d'.
Proof.
  revert a. induction l as [|b l IH]; intro a; [reflexivity|].
  change (last (b :: l) d = last (b :: l) d'). apply IH.
Qed.

Lemma last_cons {X : Type} (l : list X) (a d : X) :
  last (a :: l) d = last l a.
Proof.
  destruct l as [|b l]; [reflexivity|].
  change (last (b :: l) d = last (b :: l) a).
  apply last_nonempty_default.
Qed.

Lemma iloc_set_first_spec (s : Q) (ix : list Q) :
  ix <> [] ->
  exists ix', iloc_set_first s ix = inr ix'
              /\ length ix' = length ix
              /\ index_first ix' = inr s
              /\ ((2 <= length ix)%nat -> index_last ix' = index_last ix).
Proof.
  intro Hne. destruct ix as [|t ix]; [congruence|].
  exists (s :: ix). repeat split.
  cbn [index_last]. intro Hl.
  destruct ix as [|t' ix]; [cbn in Hl; lia|].
  unfold ret. f_equal. apply last_nonempty_default.
Qed.

(** C4, as the code has it: when the clipped window of a non-empty
    table selects at least one row, the refit returns these rows under
    a new index whose first value is [start] when it was supplied, and
    whose last value is [end] when it was supplied and either [start]
    was not or two rows at least were selected. *)
Theorem refit_index_exact (float64_index : bool) data
    (start end_ : option Q) (method : string) w :
  data <> [] ->
  _data_window float64_index data (start, end_) method true = inr w ->
  w <> [] ->
  exists res,
    _data_refit_index float64_index data start end_ method = inr res
    /\ map snd res = map snd w
    /\ (forall s, start = Some s -> index_first (index res) = inr s)
    /\ (forall e, end_ = Some e ->
                  start = None \/ (2 <= length res)%nat ->
                  index_last (index res) = inr e).
Proof.
  intros Hdata Hw Hne.
  unfold _data_refit_index.
  destruct data as [|d0 data]; [congruence|]. cbn [empty].
  rewrite Hw. cbn [bind].
  assert (Hix : index w <> [])
    by (destruct w; [congruence | discriminate]).
  assert (Hlw : length (index w) = length w) by apply length_map.
  destruct end_ as [e|]; destruct start as [s|].
  - destruct (iloc_set_last_spec e _ Hix) as (ix1 & -> & Hl1 & Hlast1 & _).
    cbn [bind].
    assert (Hix1 : ix1 <> [])
      by (destruct ix1; [destruct (index w); [congruence|discriminate]
                        | discriminate]).
    destruct (iloc_set_first_spec s _ Hix1)
      as (ix2 & -> & Hl2 & Hfirst2 & Hlast2).
    cbn [bind ret]. eexists. split; [reflexivity|].
    destruct (index_set_index ix2 w) as [Hi Hs]; [congruence|].
    rewrite Hi. split; [exact Hs|]. split.
    + now intros s' [= <-].
    + intros e' [= <-] [C|C]; [discriminate|].
      rewrite Hlast2; [exact Hlast1|].
      rewrite <- (length_map fst) in C. fold (index (set_index ix2 w)) in C.
      rewrite Hi in C. lia.
  - destruct (iloc_set_last_spec e _ Hix) as (ix1 & -> & Hl1 & Hlast1 & _).
    cbn [bind ret]. eexists. split; [reflexivity|].
    destruct (index_set_index ix1 w) as [Hi Hs]; [congruence|].
    rewrite Hi. split; [exact Hs|]. split.
    + discriminate.
    + now intros e' [= <-] _.
  - cbn [bind ret].
    destruct (iloc_set_first_spec s _ Hix) as (ix2 & -> & Hl2 & Hfirst2 & _).
    cbn [bind ret]. eexists. split; [reflexivity|].
    destruct (index_set_index ix2 w) as [Hi Hs]; [congruence|].
    rewrite Hi. split; [exact Hs|]. split.
    + now intros s' [= <-].
    + discriminate.
  - cbn [bind ret]. eexists. split; [reflexivity|].
    destruct (index_set_index (index w) w) as [Hi Hs]; [congruence|].
    rewrite Hi. split; [exact Hs|]. split; discriminate.
Qed.

End RefitFacts.

(** The single row the comment of [_data_refit_index] speaks of: a table
    of one row at 5, refitted to the overlapping window (2, 8), gives the
    row the index value [start]; [end] is not found in the result. Both
    paths of the inclusive method do the same. *)
Lemma refit_single_row_example :
  df_refit_index false [ (5, 1%Z) ] (Some 2) (Some 8) "inclusive"
  = inr [ (2, 1%Z) ]
  /\ df_refit_index true [ (5, 1%Z) ] (Some 2) (Some 8) "inclusive"
     = inr [ (2, 1%Z) ]
  /\ index_last (index [ (2, 1%Z) ]) = inr 2
  /\ ~ 2 == 8.
Proof. repeat split. discriminate. Qed.

(** On the native path a window between index values of a longer table
    also selects a single row. *)
Lemma refit_native_single_row_example :
  df_refit_index true window_example (Some 2) (Some 8) "inclusive"
  = inr [ (2, 2%Z) ].
Proof. reflexivity. Qed.

(** ** Capping of the alignment shift *)

Lemma py_int_nonneg (q : Q) :
  0 <= q -> (0 <= py_int q)%Z /\ inject_Z (py_int q) <= q.
Proof.
  intro Hq. unfold py_int.
  assert (Hn : (0 <= Qnum q)%Z).
  { destruct q as [n d]. unfold Qle in Hq. cbn in *. lia. }
  rewrite Z.quot_div_nonneg by lia. split.
  - apply Z.div_pos; lia.
  - pose proof (Qfloor_le q) as H. destruct q as [n d]. exact H.
Qed.

Lemma cap_shift_spec (shift : Z) (period ms : Q) (applied : Z) :
  0 < period -> 0 <= ms ->
  cap_shift shift period (Some ms) = inr applied ->
  (Z.abs applied <= py_int (ms / period))%Z
  /\ inject_Z (Z.abs applied) * period <= ms
  /\ (applied <> shift ->
      Z.abs applied = py_int (ms / period)
      /\ (applied <> 0%Z -> Z.sgn applied = Z.sgn shift)).
Proof.
  intros Hp Hms. unfold cap_shift.
  assert (Hq : 0 <= ms / period).
  { apply Qle_shift_div_l; [assumption|]. lra. }
  destruct (py_int_nonneg _ Hq) as [Hc0 Hc].
  set (cap := py_int (ms / period)) in *.
  assert (Hcp : inject_Z cap * period <= ms).
  { apply Qle_trans with (ms / period * period).
    - apply Qmult_le_compat_r; [assumption | lra].
    - rewrite Qmult_comm, Qmult_div_r; lra. }
  assert (Hle : forall z, (Z.abs z <= cap)%Z ->
                          inject_Z (Z.abs z) * period <= ms).
  { intros z Hz. apply Qle_trans with (inject_Z cap * period); [|exact Hcp].
    apply Qmult_le_compat_r; [|lra]. rewrite <- Zle_Qle. exact Hz. }
  destruct (Qle_bool 0 ms) eqn:E; cbn [negb].
  2:{ order_facts. lra. }
  destruct (Z.ltb_spec shift 0) as [Hneg|Hpos];
    match goal with
    | |- context [Z.ltb ?a ?b] => destruct (Z.ltb_spec a b) as [Hcap|Hno]
    end;
    intros [= <-];
    (split; [lia|]); (split; [apply Hle; lia|]);
    intro Hneq; (split; [lia|]); intro Hnz; lia.
Qed.

(** A cap below one sample period brings a negative shift to zero. *)
Lemma cap_shift_zero_example :
  cap_shift (-3) 1 (Some 0.5) = inr 0%Z
  /\ Z.sgn 0 <> Z.sgn (-3).
Proof. split; [reflexivity | discriminate]. Qed.

Lemma increasing_tail (a : Q) (ix : list Q) :
  increasing (a :: ix) -> increasing ix.
Proof. destruct ix; [easy | now intros [_ H]]. Qed.

Lemma increasing_diffs_pos (ix : list Q) :
  increasing ix -> Forall (fun d => 0 < d) (diffs ix).
Proof.
  induction ix as [|a ix IH]; [constructor|].
  destruct ix as [|b ix]; [constructor|].
  intros [Hab Hrest]. cbn [diffs]. constructor; [lra | now apply IH].
Qed.

Lemma fold_py_min_pos (l : list Q) (t : Q) :
  Forall (fun d => 0 < d) l -> 0 < t -> 0 < fold_left py_min l t.
Proof.
  revert t. induction l as [|a l IH]; intros t Hl Ht; [exact Ht|].
  inversion Hl; subst. cbn [fold_left]. apply IH; [assumption|].
  destruct (py_min_spec t a) as [[-> _]|[-> _]]; assumption.
Qed.

Lemma get_period_pos (s : signal) (p : Q) :
  increasing (index s) -> get_period s = Some p -> 0 < p.
Proof.
  intros Hinc. unfold get_period, index_min.
  pose proof (increasing_diffs_pos _ Hinc) as Hd.
  destruct (diffs (index s)) as [|d ds]; [discriminate|].
  intros [= <-]. inversion Hd; subst. now apply fold_py_min_pos.
Qed.

Section AlignFacts.
Variable correlate : list (option Q) -> list (option Q) -> list (option Q).

(** C9, as the code has it: on signals with increasing indexes and for
    [max_shift >= 0], the shift applied to [to_align], counted in
    samples of the resampling period, never exceeds [max_shift] once
    converted back to index units; when the cap takes effect the
    applied shift has the magnitude [int(max_shift / period)] and,
    unless that is zero, the sign of the uncapped shift. *)
Theorem series_align_signal_bounded (ref to_align : signal) (ms : Q)
    (out : signal * signal) :
  increasing (index ref) -> increasing (index to_align) -> 0 <= ms ->
  series_align_signal correlate ref to_align (Some ms) = inr out ->
  exists ref' to_align' period shift applied,
    align_shift correlate ref to_align None
    = inr (ref', to_align', period, shift)
    /\ out = (ref', shift_signal to_align' (- applied))
    /\ 0 < period
    /\ (Z.abs applied <= py_int (ms / period))%Z
    /\ inject_Z (Z.abs applied) * period <= ms
    /\ (applied <> shift ->
        Z.abs applied = py_int (ms / period)
        /\ (applied <> 0%Z -> Z.sgn applied = Z.sgn shift)).
Proof.
  intros Hr Ht Hms. unfold series_align_signal, align_shift.
  destruct (isnull_any ref || isnull_any to_align); [discriminate|].
  destruct (ceil_div _ _) as [e|num]; [discriminate|]. cbn [bind].
  destruct (nan_max _ _) as [start|]; [|discriminate].
  destruct (nan_min (index_max _) _) as [end_|]; [|discriminate].
  destruct (nan_min (get_period ref) _) as [period|] eqn:Hper;
    [|discriminate].
  assert (Hpos : 0 < period).
  { unfold nan_min in Hper.
    destruct (get_period ref) as [a|] eqn:Ea; [|discriminate].
    pose proof (get_period_pos _ _ Hr Ea) as Ha.
    destruct (get_period to_align) as [b|] eqn:Eb.
    - pose proof (get_period_pos _ _ Ht Eb) as Hb.
      injection Hper as <-.
      destruct (py_min_spec a b) as [[-> _]|[-> _]]; assumption.
    - now injection Hper as <-. }
  destruct (linspace start end_ num) as [e|new_index]; [discriminate|].
  cbn [bind].
  destruct (argmax _) as [e|pos]; [discriminate|]. cbn [bind].
  set (shift := (Z.of_nat pos - _)%Z).
  destruct (cap_shift shift period (Some ms)) as [e|applied] eqn:Hcap;
    [discriminate|].
  cbn [bind ret]. intros [= <-].
  eexists _, _, period, shift, applied.
  split; [reflexivity|]. split; [reflexivity|]. split; [exact Hpos|].
  now apply cap_shift_spec.
Qed.

End AlignFacts.

(** ** Label lookups on an increasing index *)

Lemma increasing_head_lt (a : Q) (ix : list Q) :
  increasing (a :: ix) -> Forall (fun t => a < t) ix.
Proof.
  revert a. induction ix as [|b ix IH]; intros a H; [constructor|].
  destruct H as [Hab Hrest]. constructor; [exact Hab|].
  eapply Forall_impl; [|apply IH; exact Hrest].
  intros t Hbt. cbn beta in *. lra.
Qed.

Lemma increasing_app (l1 l2 : list Q) :
  increasing (l1 ++ l2) ->
  increasing l1 /\ increasing l2
  /\ forall a b, In a l1 -> In b l2 -> a < b.
Proof.
  induction l1 as [|a l1 IH]; intro H.
  - cbn in *. repeat split; [assumption | intros a b []].
  - pose proof (increasing_head_lt _ _ H) as Hlt.
    apply increasing_tail in H as Ht. destruct (IH Ht) as (H1 & H2 & H12).
    repeat split; [|assumption|].
    + destruct l1 as [|b l1]; [exact I|]. split; [|exact H1].
      now destruct H as [Hab _].
    + intros x y [<-|Hx] Hy.
      * rewrite Forall_forall in Hlt. apply Hlt. apply in_or_app. now right.
      * now apply H12.
Qed.

Lemma searchsorted_left_app (a b : list Q) (x : Q) :
  Forall (fun t => t < x) a ->
  (forall t, hd_error b = Some t -> x <= t) ->
  searchsorted_left (a ++ b) x = length a.
Proof.
  intros Ha Hb. induction Ha as [|t a Ht Ha IH]; cbn.
  - destruct b as [|t b]; [reflexivity|]. cbn.
    specialize (Hb t eq_refl). apply Qltb_ge in Hb. now rewrite Hb.
  - apply Qltb_lt in Ht. now rewrite Ht, IH.
Qed.

Lemma searchsorted_right_app (a b : list Q) (x : Q) :
  Forall (fun t => t <= x) a ->
  (forall t, hd_error b = Some t -> x < t) ->
  searchsorted_right (a ++ b) x = length a.
Proof.
  intros Ha Hb. induction Ha as [|t a Ht Ha IH]; cbn.
  - destruct b as [|t b]; [reflexivity|]. cbn.
    specialize (Hb t eq_refl). apply Qle_bool_gt in Hb. now rewrite Hb.
  - apply Qle_bool_iff in Ht. now rewrite Ht, IH.
Qed.

(** Lookups of the first and of the last index value. *)
Lemma lookup_first (t : Q) (ix : list Q) :
  increasing (t :: ix) ->
  searchsorted_left (t :: ix) t = O /\ searchsorted_right (t :: ix) t = 1%nat.
Proof.
  intro H. split.
  - cbn. assert (E : Qltb t t = false) by (apply Qltb_ge; lra). now rewrite E.
  - apply (searchsorted_right_app [t] ix).
    + constructor; [lra | constructor].
    + intros u Hu. pose proof (increasing_head_lt _ _ H) as Hlt.
      destruct ix as [|v ix]; [discriminate|]. injection Hu as <-.
      now inversion Hlt.
Qed.

Lemma lookup_last (ix : list Q) (t : Q) :
  increasing (ix ++ [t]) ->
  searchsorted_left (ix ++ [t]) t = length ix
  /\ searchsorted_right (ix ++ [t]) t = Datatypes.S (length ix).
Proof.
  intro H. destruct (increasing_app _ _ H) as (_ & _ & Hlt).
  assert (Hall : Forall (fun u => u < t) ix).
  { apply Forall_forall. intros u Hu. apply Hlt; [assumption | now left]. }
  split.
  - apply searchsorted_left_app; [assumption|].
    intros u [= <-]. lra.
  - rewrite <- (app_nil_r (ix ++ [t])).
    rewrite searchsorted_right_app.
    + rewrite length_app. cbn. lia.
    + apply Forall_app. split.
      * eapply Forall_impl; [|exact Hall]. intros u Hu. cbn beta in Hu. lra.
      * constructor; [lra | constructor].
    + discriminate.
Qed.

Lemma get_loc_at (ix : list Q) (x : Q) (n : nat) (m : fill) :
  searchsorted_left ix x = n ->
  searchsorted_right ix x = Datatypes.S n ->
  (n < length ix)%nat ->
  get_loc ix x m = inr n.
Proof.
  intros Hl Hr Hn. unfold get_loc, pad_loc, backfill_loc.
  rewrite Hl, Hr. apply Nat.ltb_lt in Hn. rewrite Hn.
  destruct m; try reflexivity.
  now destruct (Qltb _ _).
Qed.

Section ClipFacts.
Context {A : Type}.
Implicit Types (data : frame A) (r : Q * A).

Lemma supported_cases (method : string) :
  supported method = true ->
  In method ["inclusive"; "exclusive"; "nearest"; "pre"; "post"]%string.
Proof.
  unfold supported. intro H. apply existsb_exists in H.
  destruct H as (m & Hin & Heq). apply String.eqb_eq in Heq. now subst.
Qed.

(** A window whose two bounds are one index value found at position
    [n] selects the row at that position, by every method and on both
    paths. *)
Lemma window_single (float64_index : bool) data (x : Q) (n : nat) r
    (method : string) :
  supported method = true ->
  searchsorted_left (index data) x = n ->
  searchsorted_right (index data) x = Datatypes.S n ->
  iloc_slice (Some n) (Some (n + 1)%nat) data = [r] ->
  _data_window float64_index data (Some x, Some x) method false = inr [r].
Proof.
  intros Hm Hl Hr Hslice.
  assert (Hn : (n < length (index data))%nat).
  { unfold index. rewrite length_map.
    unfold iloc_slice in Hslice.
    destruct (Nat.lt_ge_cases n (length data)) as [|Hge]; [assumption|].
    rewrite skipn_all2 in Hslice by assumption.
    now rewrite firstn_nil in Hslice. }
  assert (Hpos : forall m,
             window_by_position data (Some x, Some x) m = inr [r]).
  { intros [m1 m2]. unfold window_by_position. cbn [fst snd].
    rewrite !(get_loc_at _ _ n) by assumption. cbn.
    unfold ret. f_equal. exact Hslice. }
  unfold _data_window. cbn [bind ret].
  apply supported_cases in Hm. cbn in Hm.
  destruct Hm as [<-|[<-|[<-|[<-|[<-|[]]]]]]; cbn; try apply Hpos.
  destruct float64_index; [|apply Hpos].
  unfold ret, loc_slice. cbn [fst snd option_map]. rewrite Hl, Hr.
  f_equal. rewrite <- Hslice. unfold iloc_slice.
  now rewrite Nat.add_1_r.
Qed.

Lemma _data_window_clip (float64_index : bool) data
    (window : option Q * option Q) (method : string) :
  _data_window float64_index data window method true
  = (w <- clip (index data) window ;;
     _data_window float64_index data w method false).
Proof.
  unfold _data_window. now destruct (clip (index data) window).
Qed.

Lemma last_row_split data r :
  last_row data = Some r -> exists init, data = init ++ [r].
Proof.
  intro H. destruct data as [|r0 rest]; [discriminate|].
  injection H as <-.
  assert (Hne : r0 :: rest <> []) by discriminate.
  destruct (exists_last Hne) as (init & x & E). exists init.
  rewrite E. f_equal. f_equal.
  destruct init as [|i0 init].
  - injection E as -> ->. reflexivity.
  - injection E as -> ->. now rewrite last_last.
Qed.

Lemma index_last_snoc (ix : list Q) (t : Q) :
  index_last (ix ++ [t]) = inr t.
Proof.
  destruct ix as [|a ix]; [reflexivity|].
  cbn. unfold ret. f_equal. apply last_last.
Qed.

Lemma iloc_slice_last (init : frame A) r :
  iloc_slice (Some (length init)) (Some (length init + 1)%nat)
             (init ++ [r]) = [r].
Proof.
  unfold iloc_slice. rewrite skipn_app, skipn_all, Nat.sub_diag.
  replace (length init + 1 - length init)%nat with 1%nat by lia.
  reflexivity.
Qed.

(** C8: on a non-empty table with an increasing index, for every
    supported method and on both paths, a clipped window whose two
    bounds lie before the first index value selects the first row
    alone, and one whose two bounds lie after the last index value
    selects the last row alone. *)
Theorem clip_window_outside (float64_index : bool) data
    (method : string) (s e : Q) (r0 rl : Q * A) :
  increasing (index data) ->
  supported method = true ->
  hd_error data = Some r0 ->
  last_row data = Some rl ->
  (s < fst r0 -> e < fst r0 ->
   _data_window float64_index data (Some s, Some e) method true
   = inr [r0])
  /\ (fst rl < s -> fst rl < e ->
      _data_window float64_index data (Some s, Some e) method true
      = inr [rl]).
Proof.
  intros Hinc Hm Hhd Hlast.
  destruct (last_row_split _ _ Hlast) as (init & E).
  assert (Hcl : index_last (index data) = inr (fst rl)).
  { rewrite E. unfold index. rewrite map_app. apply index_last_snoc. }
  assert (Hord : fst r0 <= fst rl).
  { rewrite E in Hinc, Hhd. unfold index in Hinc. rewrite map_app in Hinc.
    destruct (increasing_app _ _ Hinc) as (_ & _ & Hlt).
    destruct init as [|i0 init]; [injection Hhd as ->; lra|].
    injection Hhd as ->. apply Qlt_le_weak, Hlt; now left. }
  destruct data as [|d0 rest]; [discriminate|].
  injection Hhd as ->.
  rewrite _data_window_clip.
  unfold clip. rewrite Hcl. cbn [index map index_first bind ret].
  split; intros Hs He.
  - assert (E1 : Qle_bool s (fst r0) = true) by (apply Qle_bool_iff; lra).
    assert (E2 : Qle_bool e (fst r0) = true) by (apply Qle_bool_iff; lra).
    rewrite E1, E2. cbn [andb].
    destruct (lookup_first _ _ Hinc) as [Hl Hr].
    now apply (window_single _ _ _ O).
  - assert (E1 : Qle_bool s (fst r0) = false) by (apply Qle_bool_gt; lra).
    assert (E2 : Qle_bool (fst rl) s = true) by (apply Qle_bool_iff; lra).
    assert (E3 : Qle_bool (fst rl) e = true) by (apply Qle_bool_iff; lra).
    rewrite E1, E2, E3. cbn [andb].
    rewrite E in Hinc |- *. unfold index in Hinc. rewrite map_app in Hinc.
    destruct (lookup_last _ _ Hinc) as [Hl Hr].
    rewrite length_map in Hl, Hr.
    apply (window_single _ _ _ (length init)); try assumption.
    + unfold index. now rewrite map_app.
    + unfold index. now rewrite map_app.
    + apply iloc_slice_last.
Qed.

End ClipFacts.

(** ** Label slices of a table with an increasing index *)

Section SliceFacts.
Context {A : Type}.
Implicit Types (df : frame A) (r : Q * A).

Lemma index_app (l1 l2 : frame A) : index (l1 ++ l2) = index l1 ++ index l2.
Proof. apply map_app. Qed.

Lemma hd_error_index df t :
  hd_error (index df) = Some t -> exists r, hd_error df = Some r /\ fst r = t.
Proof.
  destruct df as [|r df]; [discriminate|]. intros [= <-]. now exists r.
Qed.

Lemma last_row_snoc (l : frame A) r : last_row (l ++ [r]) = Some r.
Proof.
  destruct l as [|a l]; [reflexivity|].
  cbn. f_equal. apply last_last.
Qed.

(** The rows before, inside and after a window. *)
Lemma frame_split3 df (lo hi : Q) :
  increasing (index df) ->
  exists before inside after,
    df = before ++ inside ++ after
    /\ Forall (fun r => fst r < lo) before
    /\ Forall (fun r => lo <= fst r /\ fst r <= hi) inside
    /\ Forall (fun r => lo <= fst r /\ hi < fst r) after.
Proof.
  induction df as [|r df IH]; intro Hinc.
  - exists [], [], []. repeat split; constructor.
  - pose proof (increasing_head_lt _ _ Hinc) as Hlt.
    apply increasing_tail in Hinc.
    destruct (IH Hinc) as (b & i & a & E & Hb & Hi & Ha).
    rewrite Forall_forall in Hlt.
    assert (Hin : forall x, In x df -> fst r < fst x)
      by (intros x Hx; apply Hlt; now apply in_map).
    destruct (Qlt_le_dec (fst r) lo) as [Hlo|Hlo].
    { exists (r :: b), i, a. rewrite E. repeat split; auto. }
    assert (Eb : b = []).
    { destruct b as [|x b]; [reflexivity|]. exfalso.
      inversion Hb; subst. specialize (Hin x (or_introl eq_refl)). lra. }
    subst b. cbn [app] in E.
    destruct (Qlt_le_dec hi (fst r)) as [Hhi|Hhi].
    + assert (Ei : i = []).
      { destruct i as [|x i]; [reflexivity|]. exfalso.
        inversion Hi; subst. specialize (Hin x (or_introl eq_refl)). lra. }
      subst i. cbn [app] in E. subst df.
      exists [], [], (r :: a). repeat split; auto.
    + exists [], (r :: i), a. rewrite E. repeat split; auto.
Qed.

Lemma Forall_hd {X : Type} (P : X -> Prop) (l : list X) (x : X) :
  Forall P l -> hd_error l = Some x -> P x.
Proof. intros H E. destruct l; [discriminate|]. injection E as <-. now inversion H. Qed.

Lemma skipn_firstn_app (l1 l2 l3 : frame A) :
  firstn (length l1 + length l2 - length l1) (skipn (length l1) (l1 ++ l2 ++ l3))
  = l2.
Proof.
  rewrite skipn_app, skipn_all, Nat.sub_diag. cbn [app skipn].
  replace (length l1 + length l2 - length l1)%nat with (length l2) by lia.
  rewrite firstn_app, firstn_all, Nat.sub_diag. cbn. apply app_nil_r.
Qed.

(** [df[lo:hi]] is the rows inside the window. *)
Lemma loc_slice_inside (before inside after : frame A) (lo hi : Q) :
  lo <= hi ->
  Forall (fun r => fst r < lo) before ->
  Forall (fun r => lo <= fst r /\ fst r <= hi) inside ->
  Forall (fun r => lo <= fst r /\ hi < fst r) after ->
  loc_slice (Some lo) (Some hi) (before ++ inside ++ after) = inside.
Proof.
  intros Hle Hb Hi Ha. unfold loc_slice, iloc_slice. cbn [option_map].
  rewrite index_app.
  rewrite searchsorted_left_app.
  - rewrite <- index_app, app_assoc, index_app.
    rewrite searchsorted_right_app.
    + unfold index. rewrite !length_map, length_app.
      rewrite <- app_assoc. apply skipn_firstn_app.
    + unfold index. apply Forall_map.
      apply Forall_app. split.
      * eapply Forall_impl; [|exact Hb]. cbn beta. intros; lra.
      * eapply Forall_impl; [|exact Hi]. cbn beta. intros; lra.
    + intros t Ht. apply hd_error_index in Ht. destruct Ht as (r & Hr & <-).
      apply (Forall_hd _ _ _ Ha Hr).
  - unfold index. apply Forall_map. exact Hb.
  - intros t Ht. apply hd_error_index in Ht. destruct Ht as (r & Hr & <-).
    assert (Hia : Forall (fun r => lo <= fst r) (inside ++ after)).
    { apply Forall_app. split; [eapply Forall_impl; [|exact Hi]
                               |eapply Forall_impl; [|exact Ha]];
        cbn beta; intros; lra. }
    apply (Forall_hd _ _ _ Hia Hr).
Qed.

(** [df[:x]] when no row carries [x]. *)
Lemma loc_slice_before (before after : frame A) (x : Q) :
  Forall (fun r => fst r < x) before ->
  Forall (fun r => x < fst r) after ->
  loc_slice None (Some x) (before ++ after) = before.
Proof.
  intros Hb Ha. unfold loc_slice, iloc_slice. cbn [option_map].
  rewrite index_app, searchsorted_right_app.
  - unfold index. rewrite length_map, Nat.sub_0_r. cbn [skipn].
    rewrite firstn_app, firstn_all, Nat.sub_diag. cbn. apply app_nil_r.
  - unfold index. apply Forall_map.
    eapply Forall_impl; [|exact Hb]. cbn beta. intros; lra.
  - intros t Ht. apply hd_error_index in Ht. destruct Ht as (r & Hr & <-).
    apply (Forall_hd _ _ _ Ha Hr).
Qed.

End SliceFacts.

(** ** The two paths of the inclusive method *)

Section InclusiveFacts.
Context {A : Type}.
Implicit Types (data : frame A) (r : Q * A).

Lemma filter_keep {X : Type} (f : X -> bool) (l : list X) :
  Forall (fun x => f x = true) l -> filter f l = l.
Proof.
  induction 1 as [|x l Hx _ IH]; [reflexivity|].
  cbn. now rewrite Hx, IH.
Qed.

Lemma filter_none {X : Type} (f : X -> bool) (l : list X) :
  Forall (fun x => f x = false) l -> filter f l = [].
Proof.
  induction 1 as [|x l Hx _ IH]; [reflexivity|].
  cbn. now rewrite Hx.
Qed.

(** On a float index the inclusive method returns exactly the rows whose
    index value lies within the window. *)
Lemma inclusive_native_rows data (lo hi : Q) :
  increasing (index data) ->
  lo <= hi ->
  _data_window true data (Some lo, Some hi) "inclusive" false
  = inr (filter (in_window lo hi) data).
Proof.
  intros Hinc Hle.
  destruct (frame_split3 data lo hi Hinc) as (B & M & R & -> & HB & HM & HR).
  change (_data_window true (B ++ M ++ R) (Some lo, Some hi) "inclusive"
            false)
    with (@inr exn _ (loc_slice (Some lo) (Some hi) (B ++ M ++ R))).
  f_equal. rewrite loc_slice_inside by assumption.
  rewrite !filter_app, filter_none, filter_keep, filter_none.
  - now rewrite app_nil_r.
  - eapply Forall_impl; [|exact HR]. intros r [_ Hr]. unfold in_window.
    apply Qle_bool_gt in Hr. rewrite Hr. apply andb_false_r.
  - eapply Forall_impl; [|exact HM]. intros r [H1 H2]. unfold in_window.
    apply Qle_bool_iff in H1, H2. now rewrite H1, H2.
  - eapply Forall_impl; [|exact HB]. intros r Hr. unfold in_window.
    apply Qle_bool_gt in Hr. now rewrite Hr.
Qed.

(** The two paths agree when both bounds are index values. *)
Lemma inclusive_paths_agree_on_matches data (lo hi : Q) :
  increasing (index data) ->
  lo <= hi ->
  Exists (fun r => fst r == lo) data ->
  Exists (fun r => fst r == hi) data ->
  _data_window false data (Some lo, Some hi) "inclusive" false
  = _data_window true data (Some lo, Some hi) "inclusive" false.
Proof.
  intros Hinc Hle Hlo Hhi.
  destruct (frame_split3 data lo hi Hinc) as (B & M & R & -> & HB & HM & HR).
  assert (Hin : forall x, lo <= x -> x <= hi ->
                  Exists (fun r => fst r == x) (B ++ M ++ R) ->
                  Exists (fun r => fst r == x) M).
  { intros x H1 H2 H. apply Exists_app in H. destruct H as [H|H].
    - exfalso. apply Exists_exists in H. destruct H as (r & Hr & Hre).
      rewrite Forall_forall in HB. specialize (HB r Hr). cbn beta in HB. lra.
    - apply Exists_app in H. destruct H as [H|H]; [exact H|].
      exfalso. apply Exists_exists in H. destruct H as (r & Hr & Hre).
      rewrite Forall_forall in HR. specialize (HR r Hr). cbn beta in HR. lra. }
  apply Hin in Hlo; [|lra|lra]. apply Hin in Hhi; [|lra|lra]. clear Hin.
  unfold index in Hinc. rewrite !map_app in Hinc.
  destruct (increasing_app _ _ Hinc) as (_ & HincMR & _).
  destruct (increasing_app _ _ HincMR) as (HincM & _ & _).
  destruct M as [|m0 M']; [inversion Hlo|].
  assert (Hne : m0 :: M' <> []) by discriminate.
  destruct (exists_last Hne) as (rows & l & EM).
  (* the first selected row carries [lo] *)
  assert (Hhead : Forall (fun r => fst m0 < fst r) M').
  { cbn [map] in HincM. apply increasing_head_lt in HincM.
    now rewrite Forall_map in HincM. }
  assert (Hm0 : fst m0 == lo).
  { inversion HM; subst. apply Exists_exists in Hlo.
    destruct Hlo as (r & [<-|Hr] & Hre); [exact Hre|].
    rewrite Forall_forall in Hhead. specialize (Hhead r Hr).
    cbn beta in Hhead. lra. }
  (* the last selected row carries [hi] *)
  assert (Hrows : Forall (fun r => fst r < fst l) rows).
  { rewrite EM, map_app in HincM.
    destruct (increasing_app _ _ HincM) as (_ & _ & Hlt).
    apply Forall_forall. intros r Hr.
    apply Hlt; [now apply in_map | now left]. }
  assert (Hl : fst l == hi).
  { assert (Hlin : lo <= fst l /\ fst l <= hi).
    { rewrite Forall_forall in HM. apply HM. rewrite EM.
      apply in_or_app. right. now left. }
    rewrite EM in Hhi. apply Exists_app in Hhi.
    destruct Hhi as [H|H].
    - apply Exists_exists in H. destruct H as (r & Hr & Hre).
      rewrite Forall_forall in Hrows. specialize (Hrows r Hr).
      cbn beta in Hrows. lra.
    - inversion H as [? ? Hx|? ? Hx]; [exact Hx | inversion Hx]. }
  assert (HRhi : Forall (fun r => hi < fst r) R)
    by (eapply Forall_impl; [|exact HR]; cbn beta; intros; lra).
  (* positions of the two bounds *)
  assert (Hpad : pad_loc (index (B ++ (m0 :: M') ++ R)) lo
                 = Some (length B)).
  { unfold pad_loc.
    change (B ++ (m0 :: M') ++ R) with (B ++ [m0] ++ (M' ++ R)).
    rewrite app_assoc, index_app, searchsorted_right_app.
    - unfold index. rewrite length_map, length_app, Nat.add_1_r. reflexivity.
    - unfold index. apply Forall_map, Forall_app. split.
      + eapply Forall_impl; [|exact HB]. cbn beta. intros; lra.
      + constructor; [lra | constructor].
    - intros t Ht. apply hd_error_index in Ht. destruct Ht as (r & Hr & <-).
      assert (Hall : Forall (fun r => lo < fst r) (M' ++ R)).
      { apply Forall_app. split.
        - eapply Forall_impl; [|exact Hhead]. cbn beta. intros; lra.
        - eapply Forall_impl; [|exact HRhi]. cbn beta. intros; lra. }
      apply (Forall_hd _ _ _ Hall Hr). }
  assert (Hbf : backfill_loc (index (B ++ (m0 :: M') ++ R)) hi
                = Some (length B + length rows)%nat).
  { unfold backfill_loc. rewrite EM.
    replace (B ++ (rows ++ [l]) ++ R) with ((B ++ rows) ++ (l :: R))
      by (rewrite <- !app_assoc; reflexivity).
    rewrite index_app, searchsorted_left_app.
    - unfold index. rewrite <- map_app, !length_map, !length_app.
      cbn [length].
      destruct (Nat.ltb_spec (length B + length rows)
                  (length B + length rows + Datatypes.S (length R)));
        [reflexivity | lia].
    - unfold index. apply Forall_map, Forall_app. split.
      + eapply Forall_impl; [|exact HB]. cbn beta. intros; lra.
      + eapply Forall_impl; [|exact Hrows]. cbn beta. intros; lra.
    - intros t [= <-]. lra. }
  change (_data_window true (B ++ (m0 :: M') ++ R) (Some lo, Some hi)
            "inclusive" false)
    with (@inr exn _ (loc_slice (Some lo) (Some hi) (B ++ (m0 :: M') ++ R))).
  change (_data_window false (B ++ (m0 :: M') ++ R) (Some lo, Some hi)
            "inclusive" false)
    with (window_by_position (B ++ (m0 :: M') ++ R) (Some lo, Some hi)
            (Ffill, Bfill)).
  unfold window_by_position, get_loc. cbn [fst snd].
  rewrite Hpad, Hbf. cbn [bind ret]. unfold ret. f_equal.
  rewrite loc_slice_inside by assumption.
  unfold iloc_slice.
  replace (length B + length rows + 1)%nat
    with (length B + length (m0 :: M'))%nat
    by (rewrite EM, length_app; cbn; lia).
  apply skipn_firstn_app.
Qed.

End InclusiveFacts.

(** ** Refitting through the position lookup *)

Section RefitByPosition.
Context {A : Type}.
Implicit Types (data res : frame A).

Lemma searchsorted_right_le_left (ix : list Q) (x y : Q) :
  x < y -> (searchsorted_right ix x <= searchsorted_left ix y)%nat.
Proof.
  intro Hxy. induction ix as [|t ix IH]; [cbn; lia|].
  cbn. destruct (Qle_bool t x) eqn:E; [|lia].
  order_facts. assert (E' : Qltb t y = true) by (apply Qltb_lt; lra).
  rewrite E'. lia.
Qed.

Lemma searchsorted_left_lt_length (ix : list Q) (y t : Q) :
  In t ix -> y <= t -> (searchsorted_left ix y < length ix)%nat.
Proof.
  intros Hin Hy. induction ix as [|u ix IH]; [destruct Hin|].
  cbn. destruct (Qltb u y) eqn:E; [|lia].
  order_facts. destruct Hin as [->|Hin]; [exfalso; lra|].
  specialize (IH Hin). lia.
Qed.

(** The clamping of a window that overlaps the inside of the data. *)
Lemma clip_overlap (ix : list Q) (first last s e : Q) :
  index_first ix = inr first ->
  index_last ix = inr last ->
  first < last -> s < e -> s < last -> first < e ->
  exists s' e',
    clip ix (Some s, Some e) = inr (Some s', Some e')
    /\ first <= s' /\ s' < e' /\ e' <= last.
Proof.
  intros Hf Hl Hfl Hse Hsl Hfe. unfold clip. rewrite Hf, Hl. cbn [bind].
  assert (E1 : Qle_bool e first = false) by (apply Qle_bool_gt; lra).
  assert (E2 : Qle_bool last s = false) by (apply Qle_bool_gt; lra).
  rewrite E1, E2, andb_false_r. cbn [andb].
  destruct (Qle_bool s first) eqn:Es; destruct (Qle_bool last e) eqn:Ee;
    order_facts; eexists _, _; (split; [reflexivity|]); repeat split; lra.
Qed.

(** On the position-lookup path, on a table of two rows at least, a
    window that overlaps the inside of the data is refitted to exactly
    [start] and [end]. *)
Lemma refit_by_position_exact data (s e : Q) (r0 rl : Q * A) :
  increasing (index data) ->
  hd_error data = Some r0 ->
  last_row data = Some rl ->
  fst r0 < fst rl -> s < e -> s < fst rl -> fst r0 < e ->
  exists res,
    _data_refit_index false data (Some s) (Some e) "inclusive" = inr res
    /\ index_first (index res) = inr s
    /\ index_last (index res) = inr e.
Proof.
  intros Hinc Hhd Hlast Hfl Hse Hsl Hfe.
  destruct (last_row_split _ _ Hlast) as (init & E).
  assert (Hil : index_last (index data) = inr (fst rl)).
  { rewrite E. unfold index. rewrite map_app. apply index_last_snoc. }
  assert (Hif : index_first (index data) = inr (fst r0)).
  { destruct data; [discriminate|]. now injection Hhd as ->. }
  destruct (clip_overlap _ _ _ s e Hif Hil Hfl Hse Hsl Hfe)
    as (s' & e' & Hclip & Hs' & Hlt & He').
  (* positions of the two bounds *)
  pose proof (searchsorted_right_le_left (index data) s' e' Hlt) as Hpq.
  assert (Hp : (1 <= searchsorted_right (index data) s')%nat).
  { destruct data as [|d0 data]; [discriminate|]. injection Hhd as ->.
    cbn. assert (E0 : Qle_bool (fst r0) s' = true)
      by now apply Qle_bool_iff.
    rewrite E0. lia. }
  assert (Hq : (searchsorted_left (index data) e' < length (index data))%nat).
  { apply (searchsorted_left_lt_length _ _ (fst rl)); [|exact He'].
    rewrite E. unfold index. rewrite map_app. apply in_or_app.
    right. now left. }
  (* the window *)
  set (p := searchsorted_right (index data) s') in *.
  set (q := searchsorted_left (index data) e') in *.
  assert (Hw : _data_window false data (Some s, Some e) "inclusive" true
               = inr (iloc_slice (Some (p - 1)%nat) (Some (q + 1)%nat) data)).
  { rewrite _data_window_clip, Hclip. cbn [bind].
    change (_data_window false data (Some s', Some e') "inclusive" false)
      with (window_by_position data (Some s', Some e') (Ffill, Bfill)).
    unfold window_by_position, get_loc, pad_loc, backfill_loc.
    cbn [fst snd]. fold p. fold q.
    destruct p as [|p']; [lia|].
    apply Nat.ltb_lt in Hq. rewrite Hq. cbn [bind ret].
    now rewrite Nat.sub_succ, Nat.sub_0_r. }
  set (w := iloc_slice (Some (p - 1)%nat) (Some (q + 1)%nat) data) in *.
  assert (Hlen : (2 <= length w)%nat).
  { unfold w, iloc_slice. rewrite length_firstn, length_skipn.
    unfold index in Hq. rewrite length_map in Hq. lia. }
  (* the new index *)
  unfold _data_refit_index.
  destruct data as [|d0 data]; [discriminate|]. cbn [empty].
  rewrite Hw. cbn [bind].
  assert (Hlw : length (index w) = length w) by apply length_map.
  assert (Hix : index w <> []).
  { intro C. apply (f_equal (@length Q)) in C. rewrite Hlw in C.
    cbn [length] in C. lia. }
  destruct (iloc_set_last_spec e _ Hix) as (ix1 & -> & Hl1 & Hlast1 & _).
  cbn [bind].
  assert (Hix1 : ix1 <> []).
  { intro C. apply (f_equal (@length Q)) in C. rewrite Hl1, Hlw in C.
    cbn [length] in C. lia. }
  destruct (iloc_set_first_spec s _ Hix1)
    as (ix2 & -> & Hl2 & Hfirst2 & Hlast2).
  cbn [bind ret]. eexists. split; [reflexivity|].
  destruct (index_set_index ix2 w) as [-> _]; [congruence|].
  split; [exact Hfirst2|]. rewrite Hlast2; [exact Hlast1 | lia].
Qed.

End RefitByPosition.

(** ** Squashing a gap-free table *)

Section SquashFacts.
Context {St : Type}.
Implicit Types (df res : frame (row St)) (r : Q * row St).

Lemma sum_delta_cons r df :
  sum_delta (r :: df) = delta (snd r) + sum_delta df.
Proof. reflexivity. Qed.

Lemma sum_delta_app df1 df2 :
  sum_delta (df1 ++ df2) == sum_delta df1 + sum_delta df2.
Proof.
  induction df1 as [|r df1 IH].
  - change (sum_delta df2 == 0 + sum_delta df2). lra.
  - cbn [app]. rewrite !sum_delta_cons. lra.
Qed.

Lemma covers_sum df (a b : Q) : covers df a b -> sum_delta df == b - a.
Proof.
  revert a. induction df as [|r df IH]; intros a H.
  - cbn in H. change (0 == b - a). lra.
  - destruct H as [Ha H]. apply IH in H.
    rewrite sum_delta_cons. lra.
Qed.

Lemma covers_app df1 df2 (a b : Q) :
  covers (df1 ++ df2) a b ->
  exists m, covers df1 a m /\ covers df2 m b.
Proof.
  revert a. induction df1 as [|r df1 IH]; intros a H; cbn in *.
  - exists a. split; [reflexivity | exact H].
  - destruct H as [Ha H]. destruct (IH _ H) as (m & H1 & H2).
    exists m. auto.
Qed.

Lemma gap_free_covers r df rl :
  gap_free (r :: df) ->
  last_row (r :: df) = Some rl ->
  covers (r :: df) (fst r) (fst rl + delta (snd rl)).
Proof.
  revert r. induction df as [|r' df IH]; intros r Hg Hl.
  - injection Hl as <-. cbn. split; reflexivity.
  - destruct Hg as [Hstep Hg].
    assert (Hl' : last_row (r' :: df) = Some rl)
      by (rewrite <- Hl; unfold last_row; now rewrite last_cons).
    specialize (IH r' Hg Hl'). destruct IH as [_ IH].
    split; [reflexivity|]. split; [symmetry; exact Hstep | exact IH].
Qed.

Lemma index_mem_app (x : Q) df1 df2 :
  index_mem x (df1 ++ df2) = index_mem x df1 || index_mem x df2.
Proof. unfold index_mem. now rewrite index_app, existsb_app. Qed.

Lemma index_mem_none (x : Q) df :
  Forall (fun r => ~ fst r == x) df -> index_mem x df = false.
Proof.
  unfold index_mem, index. induction 1 as [|r df Hr _ IH]; [reflexivity|].
  cbn. rewrite IH, orb_false_r. apply Qeq_bool_false.
  intro C. apply Hr. now symmetry.
Qed.

Lemma drop_none (x : Q) df :
  Forall (fun r => ~ fst r == x) df -> drop x df = df.
Proof.
  unfold drop. induction 1 as [|r df Hr _ IH]; [reflexivity|].
  cbn. apply Qeq_bool_false in Hr. now rewrite Hr, IH.
Qed.

Lemma at_set_none (t v : Q) df :
  Forall (fun r => ~ fst r == t) df -> at_set t v df = df.
Proof.
  unfold at_set. induction 1 as [|r df Hr _ IH]; [reflexivity|].
  cbn. apply Qeq_bool_false in Hr. now rewrite Hr, IH.
Qed.

(** The last step of the squash, on the rows [rows ++ [l]] of the
    window preceded by the rows [pre] synthesized for its start. *)
Lemma squash_tail_sum (pre rows : frame (row St)) l (e a m : Q) :
  Forall (fun r => fst r < fst l /\ ~ fst r == e) pre ->
  Forall (fun r => fst r < fst l) rows ->
  fst l <= e ->
  covers (rows ++ [l]) a m ->
  e <= m ->
  sum_delta (squash_tail e (pre ++ rows ++ [l]))
  == sum_delta pre + (e - a).
Proof.
  intros Hpre Hrows Hle Hcov Hem.
  destruct (covers_app _ _ _ _ Hcov) as (k & Hk & Hl).
  apply covers_sum in Hk. cbn in Hl. destruct Hl as [Hlk Hlm].
  assert (Hpe : Forall (fun r => ~ fst r == e) pre)
    by (eapply Forall_impl; [|exact Hpre]; cbn beta; tauto).
  assert (Hpl : Forall (fun r => ~ fst r == fst l) pre)
    by (eapply Forall_impl; [|exact Hpre]; cbn beta; intros; lra).
  assert (Hre : Forall (fun r => ~ fst r == e) rows)
    by (eapply Forall_impl; [|exact Hrows]; cbn beta; intros; lra).
  assert (Hrl : Forall (fun r => ~ fst r == fst l) rows)
    by (eapply Forall_impl; [|exact Hrows]; cbn beta; intros; lra).
  unfold squash_tail.
  rewrite !index_mem_app, (index_mem_none _ _ Hpe), (index_mem_none _ _ Hre).
  cbn [orb]. unfold index_mem at 1. cbn [index map existsb].
  rewrite orb_false_r.
  destruct (Qeq_bool e (fst l)) eqn:E; order_facts.
  - unfold drop. rewrite !filter_app.
    fold (drop e pre). fold (drop e rows).
    rewrite (drop_none _ _ Hpe), (drop_none _ _ Hre). cbn [filter].
    assert (E' : Qeq_bool (fst l) e = true)
      by (apply Qeq_bool_iff; now symmetry).
    rewrite E'. cbn [negb]. rewrite app_nil_r, sum_delta_app. lra.
  - rewrite app_assoc, last_row_snoc, <- app_assoc.
    destruct l as [tl rl]. cbn [fst snd] in *.
    unfold at_set. rewrite !map_app.
    fold (at_set tl (py_min (e - tl) (delta rl)) pre).
    fold (at_set tl (py_min (e - tl) (delta rl)) rows).
    rewrite (at_set_none _ _ _ Hpl), (at_set_none _ _ _ Hrl).
    cbn [map fst snd]. rewrite Qeq_bool_refl.
    rewrite !sum_delta_app. cbn.
    destruct (py_min_spec (e - tl) (delta rl)) as [[-> _]|[-> Hlt]]; lra.
Qed.

Lemma df_squash_unfold df (start end_ : Q) (tl : Q) (rl : row St) :
  last_row df = Some (tl, rl) ->
  df_squash df start end_
  = let e := py_min end_ (tl + delta rl) in
    if Qltb e start then [] else
    let prev_df := loc_slice None (Some start) df in
    let middle_df := loc_slice (Some start) (Some e) df in
    let res_df :=
      if negb (empty prev_df) && negb (index_mem start middle_df) then
        set_column
          (py_min (match middle_df with
                   | [] => e
                   | (t, _) :: _ => t
                   end - start) (e - start))
          (set_index [start] (tail1 prev_df))
      else [] in
    if negb (empty middle_df) then squash_tail e (res_df ++ middle_df)
    else res_df.
Proof. intro H. unfold df_squash. rewrite H. reflexivity. Qed.

Lemma py_min_within (a b : Q) : a <= b -> py_min a b = a.
Proof.
  intro H. unfold py_min. apply Qltb_ge in H. now rewrite H.
Qed.

Lemma tail1_snoc (l : frame (row St)) r : tail1 (l ++ [r]) = [r].
Proof.
  unfold tail1. rewrite length_app. cbn [length].
  replace (length l + 1 - 1)%nat with (length l) by lia.
  rewrite skipn_app, skipn_all, Nat.sub_diag. reflexivity.
Qed.

Lemma drop_spec (x : Q) df : Forall (fun r => ~ fst r == x) (drop x df).
Proof.
  unfold drop. apply Forall_forall. intros r Hr.
  apply filter_In in Hr. destruct Hr as [_ Hr].
  apply negb_true_iff in Hr. now apply Qeq_bool_false.
Qed.

Lemma index_mem_exists (x : Q) df :
  Exists (fun r => fst r == x) df -> index_mem x df = true.
Proof.
  unfold index_mem, index. induction 1 as [r df Hr|r df _ IH]; cbn.
  - assert (E : Qeq_bool x (fst r) = true)
      by (apply Qeq_bool_iff; now symmetry).
    now rewrite E.
  - now rewrite IH, orb_true_r.
Qed.

(** C3: on a table with an increasing index, when [start < end], [end]
    lies within the extent of the data and some row carries the index
    value [end], no row of the squash carries it: the boundary row is
    dropped. *)
Theorem df_squash_end_collision df (start end_ : Q) rl :
  increasing (index df) ->
  last_row df = Some rl ->
  start < end_ ->
  end_ <= fst rl + delta (snd rl) ->
  Exists (fun r => fst r == end_) df ->
  Forall (fun r => ~ fst r == end_) (df_squash df start end_).
Proof.
  intros Hinc Hlast Hlt Hext Hrow. destruct rl as [tl rl].
  cbn [fst snd] in Hext.
  rewrite (df_squash_unfold _ _ _ _ _ Hlast).
  rewrite (py_min_within _ _ Hext). cbv zeta.
  assert (E : Qltb end_ start = false) by (apply Qltb_ge; lra).
  rewrite E.
  destruct (frame_split3 df start end_ Hinc)
    as (B & M & R & -> & HB & HM & HR).
  rewrite loc_slice_inside by (assumption || lra).
  assert (HMe : Exists (fun r => fst r == end_) M).
  { apply Exists_app in Hrow. destruct Hrow as [H|H].
    - exfalso. apply Exists_exists in H. destruct H as (r & Hr & Hre).
      rewrite Forall_forall in HB. specialize (HB r Hr). cbn beta in HB. lra.
    - apply Exists_app in H. destruct H as [H|H]; [exact H|].
      exfalso. apply Exists_exists in H. destruct H as (r & Hr & Hre).
      rewrite Forall_forall in HR. specialize (HR r Hr). cbn beta in HR. lra. }
  destruct M as [|m0 M]; [inversion HMe|]. cbn [empty negb].
  unfold squash_tail.
  rewrite index_mem_app, (index_mem_exists _ _ HMe), orb_true_r.
  apply drop_spec.
Qed.

(** The row synthesized at [start] from the last row before it. *)
Lemma squash_head_row (B : frame (row St)) (start d : Q) :
  B <> [] ->
  exists st, set_column d (set_index [start] (tail1 B))
             = [(start, Row d st)].
Proof.
  intro HB. destruct (exists_last HB) as (B' & bl & ->).
  rewrite tail1_snoc. now exists (state (snd bl)).
Qed.

(** C1: on a gap-free table with an increasing index, for
    [first_index <= start <= end <= last_index + last_delta], the
    durations of the squash of the table to [start, end] add up to
    [end - start]. *)
Theorem df_squash_time_conservation df (start end_ : Q) r0 rl :
  increasing (index df) ->
  gap_free df ->
  hd_error df = Some r0 ->
  last_row df = Some rl ->
  fst r0 <= start ->
  start <= end_ ->
  end_ <= fst rl + delta (snd rl) ->
  sum_delta (df_squash df start end_) == end_ - start.
Proof.
  intros Hinc Hgap Hhd Hlast Hfirst Hse Hext.
  assert (Hcov : covers df (fst r0) (fst rl + delta (snd rl))).
  { destruct df as [|d0 df]; [discriminate|]. injection Hhd as ->.
    now apply gap_free_covers. }
  destruct rl as [tl rl]. cbn [fst snd] in Hext, Hcov.
  rewrite (df_squash_unfold _ _ _ _ _ Hlast).
  rewrite (py_min_within _ _ Hext). cbv zeta.
  assert (E : Qltb end_ start = false) by (apply Qltb_ge; lra).
  rewrite E. clear E Hlast Hgap.
  destruct (frame_split3 df start end_ Hinc)
    as (B & M & R & -> & HB & HM & HR).
  rewrite loc_slice_inside by assumption.
  destruct (covers_app _ _ _ _ Hcov) as (m1 & HcB & HcMR).
  destruct (covers_app _ _ _ _ HcMR) as (m2 & HcM & HcR).
  assert (Hm2 : end_ <= m2).
  { destruct R as [|r R]; cbn in HcR; [lra|].
    inversion HR; subst. destruct HcR as [Hr _]. lra. }
  assert (HRs : Forall (fun r => start < fst r) R)
    by (eapply Forall_impl; [|exact HR]; cbn beta; intros; lra).
  unfold index in Hinc. rewrite !map_app in Hinc.
  destruct (increasing_app _ _ Hinc) as (_ & HincMR & _).
  destruct (increasing_app _ _ HincMR) as (HincM & _ & _).
  clear Hinc HincMR Hcov HcMR HcR.
  destruct M as [|m0 M'].
  - (* no row inside the window *)
    cbn [app] in *. rewrite (loc_slice_before _ _ _ HB HRs).
    assert (HBne : B <> []).
    { intros ->. cbn in Hhd. pose proof (Forall_hd _ _ _ HRs Hhd) as H.
      cbn beta in H. lra. }
    destruct (squash_head_row B start
                (py_min (end_ - start) (end_ - start)) HBne) as (st & ->).
    destruct B; [congruence|]. cbn.
    destruct (py_min_spec (end_ - start) (end_ - start)) as [[-> _]|[-> _]];
      lra.
  - (* some rows inside the window *)
    cbn [empty negb].
    assert (Hne : m0 :: M' <> []) by discriminate.
    destruct (exists_last Hne) as (rows & l & EM).
    assert (Hrows : Forall (fun r => fst r < fst l) rows).
    { rewrite EM, map_app in HincM.
      destruct (increasing_app _ _ HincM) as (_ & _ & Hlt).
      apply Forall_forall. intros r Hr.
      apply Hlt; [now apply in_map | now left]. }
    assert (Hl : start <= fst l /\ fst l <= end_).
    { rewrite Forall_forall in HM. apply HM. rewrite EM.
      apply in_or_app. right. now left. }
    assert (Hm0l : fst m0 <= fst l).
    { destruct rows as [|x rows].
      - injection EM as -> _. lra.
      - injection EM as -> _. inversion Hrows; subst. lra. }
    assert (Hm0 : start <= fst m0 /\ fst m0 <= end_) by now inversion HM.
    assert (HcM' : covers (rows ++ [l]) (fst m0) m2).
    { rewrite <- EM. destruct HcM as [_ HcM]. split; [reflexivity|exact HcM]. }
    destruct (Qeq_bool start (fst m0)) eqn:Es; order_facts.
    + (* a row sits at [start] *)
      assert (Emem : index_mem start (m0 :: M') = true).
      { apply index_mem_exists. left. now symmetry. }
      rewrite Emem, andb_false_r. rewrite EM.
      rewrite (squash_tail_sum [] rows l end_ (fst m0) m2);
        try assumption; [|constructor|tauto].
      change (sum_delta []) with 0. lra.
    + (* the window starts inside a row *)
      assert (Hs0 : start < fst m0) by lra.
      assert (HMs : Forall (fun r => start < fst r) (m0 :: M')).
      { constructor; [exact Hs0|].
        cbn [map] in HincM.
        pose proof (increasing_head_lt _ _ HincM) as Hh.
        rewrite Forall_map in Hh.
        eapply Forall_impl; [|exact Hh]. cbn beta. intros; lra. }
      assert (Emem : index_mem start (m0 :: M') = false).
      { apply index_mem_none.
        eapply Forall_impl; [|exact HMs]. cbn beta. intros; lra. }
      rewrite Emem.
      assert (HMRs : Forall (fun r => start < fst r) ((m0 :: M') ++ R))
        by (apply Forall_app; now split).
      rewrite (loc_slice_before _ _ _ HB HMRs).
      assert (HBne : B <> []).
      { intros ->. cbn in Hhd. injection Hhd as <-. lra. }
      assert (Eb : empty B = false) by (destruct B; [congruence|reflexivity]).
      rewrite Eb. cbn [negb andb].
      destruct m0 as [t0 p0]. cbn [fst] in *.
      destruct (squash_head_row B start
                  (py_min (t0 - start) (end_ - start)) HBne) as (st & ->).
      rewrite EM.
      rewrite (squash_tail_sum _ rows l end_ t0 m2);
        try assumption; [| |tauto].
      * rewrite sum_delta_cons. cbn [snd delta].
        change (sum_delta []) with 0.
        destruct (py_min_spec (t0 - start) (end_ - start))
          as [[-> _]|[-> Hc]]; lra.
      * constructor; [|constructor]. cbn [fst]. split; lra.
Qed.

End SquashFacts.

(** ** The theorems at work on the examples *)

Lemma df_squash_time_conservation_witness :
  sum_delta (df_squash squash_example 16.5 17.5) == 17.5 - 16.5.
Proof.
  apply (df_squash_time_conservation squash_example 16.5 17.5
           (15, Row 1 1%Z) (18, Row 1 0%Z)).
  - vm_compute. repeat split.
  - vm_compute. repeat split.
  - reflexivity.
  - reflexivity.
  - vm_compute. discriminate.
  - vm_compute. discriminate.
  - vm_compute. discriminate.
Defined.

Lemma df_squash_end_collision_witness :
  Forall (fun r => ~ fst r == 17) (df_squash squash_example 15.5 17).
Proof.
  apply (df_squash_end_collision squash_example 15.5 17 (18, Row 1 0%Z)).
  - vm_compute. repeat split.
  - reflexivity.
  - vm_compute. reflexivity.
  - vm_compute. discriminate.
  - right. right. left. vm_compute. reflexivity.
Defined.

Lemma refit_index_exact_witness :
  exists res,
    _data_refit_index false window_example (Some 2) (Some 8) "inclusive"
    = inr res
    /\ map snd res = map snd window_example
    /\ (forall s, Some 2 = Some s -> index_first (index res) = inr s)
    /\ (forall e, Some 8 = Some e ->
                  Some 2 = None \/ (2 <= length res)%nat ->
                  index_last (index res) = inr e).
Proof.
  apply (refit_index_exact false window_example (Some 2) (Some 8)
           "inclusive" window_example).
  - discriminate.
  - reflexivity.
  - discriminate.
Defined.

Lemma clip_window_outside_witness :
  _data_window false window_example (Some (-2), Some (-1)) "nearest" true
  = inr [ (0, 1%Z) ]
  /\ _data_window false window_example (Some 11, Some 12) "nearest" true
     = inr [ (10, 3%Z) ].
Proof.
  destruct (clip_window_outside false window_example "nearest" (-2) (-1)
              (0, 1%Z) (10, 3%Z)) as [Hbefore _].
  { vm_compute. repeat split. }
  { reflexivity. }
  { reflexivity. }
  { reflexivity. }
  destruct (clip_window_outside false window_example "nearest" 11 12
              (0, 1%Z) (10, 3%Z)) as [_ Hafter].
  { vm_compute. repeat split. }
  { reflexivity. }
  { reflexivity. }
  { reflexivity. }
  split.
  - apply Hbefore; vm_compute; reflexivity.
  - apply Hafter; vm_compute; reflexivity.
Defined.

Lemma _data_window_contiguous_witness :
  exists pre post, window_example = pre ++ [ (5, 2%Z) ] ++ post.
Proof.
  apply (_data_window_contiguous false window_example (Some 2, Some 8)
           "exclusive" false).
  reflexivity.
Defined.

(** The alignment of the two step signals: the computed shift is one
    sample back; a cap of half a period brings it to zero. *)
Lemma align_shift_zero_cap_example :
  exists ref' to_align' period,
    align_shift correlate_direct align_ref align_late None
    = inr (ref', to_align', period, (-1)%Z)
    /\ align_shift correlate_direct align_ref align_late (Some 0.5)
       = inr (ref', to_align', period, 0%Z)
    /\ Z.sgn 0 <> Z.sgn (-1).
Proof.
  eexists _, _, _. split; [vm_compute; reflexivity|].
  split; [vm_compute; reflexivity | discriminate].
Qed.

Lemma series_align_signal_bounded_witness :
  exists ref' to_align' period shift applied,
    align_shift correlate_direct align_ref align_late None
    = inr (ref', to_align', period, shift)
    /\ 0 < period
    /\ inject_Z (Z.abs applied) * period <= 1.5.
Proof.
  destruct (series_align_signal_bounded correlate_direct align_ref
              align_late 1.5
              (reindex_ffill align_ref [0 # 3; 4 # 3; 8 # 3; 12 # 3],
               shift_signal
                 (reindex_ffill align_late [0 # 3; 4 # 3; 8 # 3; 12 # 3]) 1))
    as (r & t & p & sh & ap & H1 & _ & H3 & _ & H5 & _).
  - vm_compute. repeat split.
  - vm_compute. repeat split.
  - vm_compute. discriminate.
  - vm_compute. reflexivity.
  - exists r, t, p, sh, ap. auto.
Defined.


(** ** Rectangle and trapezoid integration *)

Section IntegrateFacts.
Variable simps : list Q -> list Q -> npfloat.

Lemma combine_firstn_length {X Y : Type} (l : list X) (l' : list Y) :
  combine l (firstn (length l) l') = combine l l'.
Proof.
  revert l'. induction l as [|a l IH]; intros [|b l']; cbn; try reflexivity.
  now rewrite IH.
Qed.

Lemma shift_values_down {V : Type} (v : option V) (vs : list (option V)) :
  shift_values 1 (v :: vs) = None :: firstn (length vs) (v :: vs).
Proof. reflexivity. Qed.

Lemma diff_index (ix : list Q) :
  diff (map Some ix)
  = match ix with
    | [] => []
    | _ :: _ => None :: map Some (diffs ix)
    end.
Proof.
  destruct ix as [|x0 xs]; [reflexivity|].
  unfold diff. cbn [map]. rewrite shift_values_down.
  cbn [map combine fst snd nan_sub]. f_equal.
  rewrite combine_firstn_length.
  revert x0. induction xs as [|x1 xs IH]; intro x0; [reflexivity|].
  cbn [map combine fst snd nan_sub diffs]. f_equal. apply IH.
Qed.

Lemma nan_sum_products_snoc (ys : list (option Q)) (ds : list (option Q)) :
  nan_sum (map (fun ab => nan_mul (fst ab) (snd ab)) (combine ys (ds ++ [None])))
  = nan_sum (map (fun ab => nan_mul (fst ab) (snd ab)) (combine ys ds)).
Proof.
  revert ys. induction ds as [|d ds IH]; intros [|y ys]; try reflexivity.
  - cbn. destruct y; destruct ys; reflexivity.
  - cbn [app combine map nan_sum fold_right]. unfold nan_sum in IH.
    now rewrite IH.
Qed.



Lemma dot_cons (y d : Q) (ys : list (option Q)) (ds : list Q) :
  dot (Some y :: ys) (d :: ds) = y * d + dot ys ds.
Proof. reflexivity. Qed.





Lemma combine_nil_r {X Y : Type} (l : list X) : combine l (@nil Y) = [].
Proof. now destruct l. Qed.

Lemma dot_nil_r (ys : list (option Q)) : dot ys [] = 0.
Proof. unfold dot. cbn [map]. now rewrite combine_nil_r. Qed.

(** The rectangle method, whatever the values and the sign clipping. *)
Lemma rect_products (ys : list (option Q)) (ix : list Q) (step : string) :
  nan_sum (map (fun ab => nan_mul (fst ab) (snd ab))
             (combine ys (if String.eqb step "post"
                          then shift_values (-1) (diff (map Some ix))
                          else diff (map Some ix))))
  = dot (if String.eqb step "post" then ys else tl ys) (diffs ix).
Proof.
  rewrite diff_index. destruct ix as [|t ix].
  - cbn [diffs]. rewrite dot_nil_r.
    destruct (String.eqb step "post");
      [change (shift_values (-1) (@nil (option Q))) with (@nil (option Q))|];
      now rewrite combine_nil_r.
  - destruct (String.eqb step "post").
    + replace (shift_values (-1) (None :: map Some (diffs (t :: ix))))
        with (map Some (diffs (t :: ix)) ++ [None]) by reflexivity.
      apply nan_sum_products_snoc.
    + destruct ys as [|v ys]; [reflexivity|].
      cbn [tl combine map fst snd]. now destruct v.
Qed.









Lemma dot_skip (ys : list (option Q)) (d : Q) (ds : list Q) :
  dot (None :: ys) (d :: ds) = dot ys ds.
Proof. reflexivity. Qed.

Lemma dot_sign (ys : list (option Q)) (ds : list Q) :
  Forall (fun d => 0 <= d) ds ->
  (Forall (fun y => match y with Some v => 0 <= v | None => True end) ys ->
   0 <= dot ys ds)
  /\ (Forall (fun y => match y with Some v => v <= 0 | None => True end) ys ->
      dot ys ds <= 0).
Proof.
  intro Hds. revert ys. induction Hds as [|d ds Hd _ IH]; intro ys.
  - rewrite dot_nil_r. split; intros _; lra.
  - destruct ys as [|[v|] ys].
    + split; intros _; cbn; lra.
    + rewrite dot_cons. destruct (IH ys) as [IHp IHn].
      split; intro H; inversion H as [|? ? Hv Hys]; subst.
      * specialize (IHp Hys). pose proof (Qmult_le_0_compat _ _ Hv Hd). lra.
      * specialize (IHn Hys).
        assert (Hm : 0 <= (- v) * d) by (apply Qmult_le_0_compat; lra).
        assert (E : (- v) * d == - (v * d)) by ring. lra.
    + rewrite dot_skip. destruct (IH ys) as [IHp IHn].
      split; intro H; inversion H; subst; auto.
Qed.

(** X3: over an increasing index the rectangle integral restricted to
    the positive data ([sign='+']) is never negative and the one
    restricted to the negative data ([sign='-']) never positive,
    whatever the values, missing ones included, and the step. *)
Theorem series_integrate_sign (y : signal) (step : string) :
  increasing (index y) ->
  exists p n,
    series_integrate simps y None (Some "+"%string) "rect" step
    = inr (Fin p)
    /\ series_integrate simps y None (Some "-"%string) "rect" step
       = inr (Fin n)
    /\ 0 <= p /\ n <= 0.
Proof.
  intro Hinc. unfold series_integrate, _resolve_x.
  cbn [bind ret String.eqb Ascii.eqb Bool.eqb]. rewrite !rect_products.
  eexists _, _. split; [reflexivity|]. split; [reflexivity|].
  assert (Hds : Forall (fun d => 0 <= d) (diffs (index y))).
  { eapply Forall_impl; [|apply increasing_diffs_pos; exact Hinc].
    cbn beta. intros; lra. }
  assert (Htl : forall (P : option Q -> Prop) l, Forall P l -> Forall P (tl l))
    by (intros P l H; destruct l; [constructor | now inversion H]).
  assert (Hlo : Forall (fun y => match y with Some v => 0 <= v | None => True end)
                  (clip_lower0 (map snd y))).
  { unfold clip_lower0. apply Forall_map, Forall_forall. intros [v|] _; cbn;
      [|exact I]. destruct (Qltb v 0) eqn:E; order_facts; lra. }
  assert (Hup : Forall (fun y => match y with Some v => v <= 0 | None => True end)
                  (clip_upper0 (map snd y))).
  { unfold clip_upper0. apply Forall_map, Forall_forall. intros [v|] _; cbn;
      [|exact I]. destruct (Qltb 0 v) eqn:E; order_facts; lra. }
  split.
  - apply dot_sign; [exact Hds|].
    destruct (String.eqb step "post"); auto.
  - apply dot_sign; [exact Hds|].
    destruct (String.eqb step "post"); auto.
Qed.

(** X4: the mean of a series of one row or none is NaN (the integral and
    the width of the index are both zero, or the width is missing): the
    rectangle and trapezoid methods raise nothing. *)
Theorem series_mean_short (y : signal) (method step : string) :
  (method = "rect"%string \/ method = "trapz"%string) ->
  (length y <= 1)%nat ->
  series_mean simps y None None method step = inr NaN.
Proof.
  intros Hm Hlen.
  destruct y as [|[t v] [|r y]]; [| |cbn in Hlen; lia].
  - destruct Hm as [-> | ->]; [|reflexivity].
    unfold series_mean, series_integrate. cbn.
    now destruct (String.eqb step "post").
  - assert (E : Qeq_bool (t - t) 0 = true) by (apply Qeq_bool_iff; ring).
    destruct Hm as [-> | ->].
    + unfold series_mean, series_integrate, _resolve_x.
      cbn [bind ret String.eqb Ascii.eqb Bool.eqb]. rewrite rect_products.
      cbn [index map fst snd diffs]. rewrite dot_nil_r.
      unfold series_max, series_min. cbn [present flat_map app index_max
        index_min fold_left nan_sub np_div]. now rewrite E.
    + unfold series_mean, series_integrate, _resolve_x.
      cbn [bind ret String.eqb Ascii.eqb Bool.eqb index map fst snd].
      unfold series_max, series_min. cbn [present flat_map app index_max
        index_min fold_left nan_sub].
      destruct v as [v|]; cbn [dropna_xy combine flat_map app map fst snd
        trapz np_div]; now rewrite E.
Qed.

Lemma dot_rows_step (l : signal) (t : Q) (v : option Q) :
  l <> [] ->
  dot (v :: map snd l) (diffs (t :: index l))
  == match v with Some v => v * (hd 0 (index l) - t) | None => 0 end
     + dot (map snd l) (diffs (index l))
  /\ dot (map snd l) (diffs (t :: index l))
     == match hd None (map snd l) with
        | Some v => v * (hd 0 (index l) - t)
        | None => 0
        end
        + dot (tl (map snd l)) (diffs (index l)).
Proof.
  intro Hne. destruct l as [|[t1 v1] l]; [congruence|].
  cbn [index map fst snd hd tl].
  change (diffs (t :: t1 :: map fst l))
    with ((t1 - t) :: diffs (t1 :: map fst l)).
  split.
  - destruct v as [v|]; [rewrite dot_cons | rewrite dot_skip]; lra.
  - destruct v1 as [v1|]; [rewrite dot_cons | rewrite dot_skip]; lra.
Qed.

(** X5: the rectangle integral adds up over a split at a row: the
    integral of a series is the integral up to the row plus the integral
    from the row on, for either step and whatever the values. *)
Theorem series_integrate_split (l1 l2 : signal) (r : Q * option Q)
    (step : string) :
  exists a b c,
    series_integrate simps (l1 ++ r :: l2) None None "rect" step
    = inr (Fin a)
    /\ series_integrate simps (l1 ++ [r]) None None "rect" step
       = inr (Fin b)
    /\ series_integrate simps (r :: l2) None None "rect" step
       = inr (Fin c)
    /\ a == b + c.
Proof.
  unfold series_integrate, _resolve_x.
  cbn [bind ret String.eqb Ascii.eqb Bool.eqb]. rewrite !rect_products.
  eexists _, _, _. repeat (split; [reflexivity|]).
  destruct (String.eqb step "post").
  - induction l1 as [|[t v] l1 IH].
    + cbn [app index map fst snd diffs]. rewrite (dot_nil_r [snd r]). lra.
    + cbn [app index map fst snd].
      destruct (dot_rows_step (l1 ++ r :: l2) t v) as [-> _];
        [now destruct l1|].
      destruct (dot_rows_step (l1 ++ [r]) t v) as [-> _];
        [now destruct l1|].
      rewrite IH. destruct l1; cbn [app index map hd]; lra.
  - induction l1 as [|[t v] l1 IH].
    + cbn [app index map fst snd diffs tl]. rewrite (dot_nil_r []). lra.
    + cbn [app index map fst snd tl].
      destruct (dot_rows_step (l1 ++ r :: l2) t v) as [_ ->];
        [now destruct l1|].
      destruct (dot_rows_step (l1 ++ [r]) t v) as [_ ->];
        [now destruct l1|].
      rewrite IH. destruct l1; cbn [app index map hd tl]; lra.
Qed.

End IntegrateFacts.


(** ** Row filtering *)

Section FilterFacts.
Context {V : Type} (veqb : V -> V -> bool).
Implicit Types (df : frame (string -> V)) (fc : list (string * V)).

Lemma mask_map {X : Type} (f : X -> bool) (l : list X) :
  mask (map f l) l = filter f l.
Proof.
  induction l as [|x l IH]; [reflexivity|].
  cbn. destruct (f x); now rewrite IH.
Qed.

Lemma and_columns_map {X : Type} (f g : X -> bool) (l : list X) :
  and_columns (map f l) (map g l) = map (fun x => f x && g x) l.
Proof.
  unfold and_columns. induction l as [|x l IH]; [reflexivity|].
  cbn. now rewrite IH.
Qed.

Lemma column_eq_present columns df (col : string) (val : V) :
  In col columns ->
  column_eq veqb columns df col val
  = inr (map (fun r => veqb (snd r col) val) df).
Proof.
  intro Hin. unfold column_eq.
  assert (E : existsb (String.eqb col) columns = true).
  { apply existsb_exists. exists col. split; [assumption|].
    apply String.eqb_refl. }
  now rewrite E.
Qed.

Lemma column_eq_missing columns df (col : string) (val : V) :
  ~ In col columns ->
  column_eq veqb columns df col val = inl KeyError.
Proof.
  intro Hin. unfold column_eq.
  destruct (existsb (String.eqb col) columns) eqn:E; [|reflexivity].
  apply existsb_exists in E. destruct E as (c & Hc & Heq).
  apply String.eqb_eq in Heq. now subst.
Qed.

(** The reduction over columns that all exist. *)
Lemma reduce_and_present columns df (f : Q * (string -> V) -> bool) fc :
  Forall (fun cv => In (fst cv) columns) fc ->
  reduce_and veqb columns df (map f df) fc
  = inr (map (fun r => f r && row_matches veqb fc r) df).
Proof.
  intro H. revert f. induction H as [|[col val] fc Hin _ IH]; intro f.
  - cbn. unfold ret. f_equal. apply map_ext. intro r.
    now rewrite andb_true_r.
  - cbn [reduce_and]. rewrite (column_eq_present _ _ _ _ Hin).
    cbn [bind]. rewrite and_columns_map, IH. f_equal.
    apply map_ext. intro r. cbn. now rewrite andb_assoc.
Qed.

(** The reduction when one of the columns does not exist. *)
Lemma reduce_and_missing columns df (acc : list bool) fc :
  Exists (fun cv => ~ In (fst cv) columns) fc ->
  reduce_and veqb columns df acc fc = inl KeyError.
Proof.
  intro H. revert acc. induction fc as [|[col val] fc IH]; intro acc.
  - inversion H.
  - cbn [reduce_and]. unfold column_eq.
    destruct (existsb (String.eqb col) columns) eqn:E.
    + cbn [bind ret]. apply IH.
      inversion H as [? ? Hc|]; subst; [|assumption].
      exfalso. apply Hc. apply existsb_exists in E.
      destruct E as (c & Hin & Heq). apply String.eqb_eq in Heq.
      now subst.
    + reflexivity.
Qed.

(** X6: when every column of a non-empty filter exists, [df_filter]
    returns, in their order and untouched, exactly the rows in which
    each of these columns holds the value asked. *)
Theorem df_filter_rows columns df fc :
  fc <> [] ->
  Forall (fun cv => In (fst cv) columns) fc ->
  df_filter veqb columns df fc = inr (filter (row_matches veqb fc) df).
Proof.
  intros Hne Hall. destruct fc as [|[col val] fc]; [congruence|].
  inversion Hall as [|? ? Hin Hrest]; subst. cbn [fst] in Hin.
  unfold df_filter. rewrite (column_eq_present _ _ _ _ Hin). cbn [bind].
  rewrite (reduce_and_present _ _ _ _ Hrest). cbn [bind ret].
  unfold ret. f_equal. apply mask_map.
Qed.

(** X7: [df_filter] fails in two ways only: with [TypeError] on a filter
    without any column, and with [KeyError] as soon as one of the
    columns of the filter does not exist, wherever it stands. *)
Theorem df_filter_errors columns df fc :
  (fc = [] -> df_filter veqb columns df fc = inl TypeError)
  /\ (Exists (fun cv => ~ In (fst cv) columns) fc ->
      df_filter veqb columns df fc = inl KeyError).
Proof.
  split; [now intros ->|].
  intro H. destruct fc as [|[col val] fc]; [inversion H|].
  unfold df_filter, column_eq.
  destruct (existsb (String.eqb col) columns) eqn:E; [|reflexivity].
  cbn [bind ret]. rewrite reduce_and_missing; [reflexivity|].
  inversion H as [? ? Hc|]; subst; [|assumption].
  exfalso. apply Hc. apply existsb_exists in E.
  destruct E as (c & Hin & Heq). apply String.eqb_eq in Heq. now subst.
Qed.

(** X8: filtering twice is filtering once on both filters together:
    for non-empty filters whose columns exist, [df_filter] of the result
    of [df_filter] is [df_filter] on the concatenated items. *)
Theorem df_filter_compose columns df fc1 fc2 :
  fc1 <> [] -> fc2 <> [] ->
  Forall (fun cv => In (fst cv) columns) fc1 ->
  Forall (fun cv => In (fst cv) columns) fc2 ->
  (filtered <- df_filter veqb columns df fc1 ;;
   df_filter veqb columns filtered fc2)
  = df_filter veqb columns df (fc1 ++ fc2).
Proof.
  intros Hne1 Hne2 H1 H2.
  assert (Hok : forall d fc, fc <> [] ->
                  Forall (fun cv => In (fst cv) columns) fc ->
                  df_filter veqb columns d fc
                  = inr (filter (row_matches veqb fc) d)).
  { intros d [|[col val] fc] Hne Hall; [congruence|].
    inversion Hall as [|? ? Hin Hrest]; subst. cbn [fst] in Hin.
    unfold df_filter. rewrite (column_eq_present _ _ _ _ Hin). cbn [bind].
    rewrite (reduce_and_present _ _ _ _ Hrest). cbn [bind ret].
    unfold ret. f_equal. apply mask_map. }
  rewrite (Hok df fc1 Hne1 H1). cbn [bind].
  rewrite (Hok _ fc2 Hne2 H2).
  rewrite (Hok df (fc1 ++ fc2)).
  - f_equal. induction df as [|r df IH]; [reflexivity|].
    unfold row_matches in *. cbn [filter]. rewrite forallb_app.
    destruct (forallb _ fc1); cbn [filter andb]; [|exact IH].
    destruct (forallb _ fc2); [now rewrite IH | exact IH].
  - destruct fc1; [congruence | discriminate].
  - apply Forall_app. now split.
Qed.

End FilterFacts.

(** ** More on windowing *)

Section WindowMore.
Context {A : Type}.
Implicit Types (data : frame A) (r : Q * A).

Lemma filter_in_window_split (before inside after : frame A) (lo hi : Q) :
  Forall (fun r => fst r < lo) before ->
  Forall (fun r => lo <= fst r /\ fst r <= hi) inside ->
  Forall (fun r => lo <= fst r /\ hi < fst r) after ->
  filter (in_window lo hi) (before ++ inside ++ after) = inside.
Proof.
  intros HB HM HR.
  rewrite !filter_app, filter_none, filter_keep, filter_none.
  - now rewrite app_nil_r.
  - eapply Forall_impl; [|exact HR]. intros r [_ Hr]. unfold in_window.
    apply Qle_bool_gt in Hr. rewrite Hr. apply andb_false_r.
  - eapply Forall_impl; [|exact HM]. intros r [H1 H2]. unfold in_window.
    apply Qle_bool_iff in H1, H2. now rewrite H1, H2.
  - eapply Forall_impl; [|exact HB]. intros r Hr. unfold in_window.
    apply Qle_bool_gt in Hr. now rewrite Hr.
Qed.

(** X9: for an ordered window, once the missing bounds are taken from
    the index, the clamping of [clip_window] returns two bounds within
    the index range, still ordered, and leaves alone a bound that
    already lies within the range. *)
Theorem clip_within_range (ix : list Q) (first last : Q)
    (start end_ : option Q) :
  index_first ix = inr first ->
  index_last ix = inr last ->
  first <= last ->
  let s := match start with Some s => s | None => first end in
  let e := match end_ with Some e => e | None => last end in
  s <= e ->
  exists s' e',
    clip ix (start, end_) = inr (Some s', Some e')
    /\ first <= s' /\ s' <= e' /\ e' <= last
    /\ (first <= s -> s <= last -> s' == s)
    /\ (first <= e -> e <= last -> e' == e).
Proof.
  intros Hf Hl Hfl s e Hse. unfold clip. rewrite Hf, Hl. cbn [bind].
  fold s. fold e.
  destruct (Qle_bool s first) eqn:E1; destruct (Qle_bool e first) eqn:E2;
    cbn [andb];
    destruct (Qle_bool last s) eqn:E3; destruct (Qle_bool last e) eqn:E4;
    cbn [andb]; order_facts;
    eexists _, _; (split; [reflexivity|]); repeat split; intros; lra.
Qed.

(** X10: on an increasing index, whatever its kind, the method
    [exclusive] returns exactly the rows whose index value lies within
    the window, as soon as some row lies at or after [start] and some
    row at or before [end]. *)
Theorem exclusive_rows (float64_index : bool) data (lo hi : Q) :
  increasing (index data) ->
  lo <= hi ->
  Exists (fun r => lo <= fst r) data ->
  Exists (fun r => fst r <= hi) data ->
  _data_window float64_index data (Some lo, Some hi) "exclusive" false
  = inr (filter (in_window lo hi) data).
Proof.
  intros Hinc Hle Hlo Hhi.
  destruct (frame_split3 data lo hi Hinc) as (B & M & R & -> & HB & HM & HR).
  rewrite (filter_in_window_split _ _ _ _ _ HB HM HR).
  change (_data_window float64_index (B ++ M ++ R) (Some lo, Some hi)
            "exclusive" false)
    with (window_by_position (B ++ M ++ R) (Some lo, Some hi) (Bfill, Ffill)).
  assert (HMR : M ++ R <> []).
  { intro C. apply app_eq_nil in C. destruct C as [-> ->].
    rewrite !app_nil_r in Hlo. apply Exists_exists in Hlo.
    destruct Hlo as (r & Hr & Hre). rewrite Forall_forall in HB.
    specialize (HB r Hr). cbn beta in HB. lra. }
  assert (HBM : B ++ M <> []).
  { intro C. apply app_eq_nil in C. destruct C as [-> ->].
    cbn [app] in Hhi. apply Exists_exists in Hhi.
    destruct Hhi as (r & Hr & Hre). rewrite Forall_forall in HR.
    specialize (HR r Hr). cbn beta in HR. lra. }
  assert (Hl : searchsorted_left (index (B ++ M ++ R)) lo = length B).
  { rewrite index_app, searchsorted_left_app.
    - apply length_map.
    - unfold index. apply Forall_map. exact HB.
    - intros t Ht. apply hd_error_index in Ht. destruct Ht as (r & Hr & <-).
      assert (Hall : Forall (fun r => lo <= fst r) (M ++ R)).
      { apply Forall_app. split;
          [eapply Forall_impl; [|exact HM] | eapply Forall_impl; [|exact HR]];
          cbn beta; intros; lra. }
      apply (Forall_hd _ _ _ Hall Hr). }
  assert (Hr : searchsorted_right (index (B ++ M ++ R)) hi
               = (length B + length M)%nat).
  { rewrite app_assoc, index_app, searchsorted_right_app.
    - unfold index. now rewrite length_map, length_app.
    - unfold index. apply Forall_map, Forall_app. split;
        [eapply Forall_impl; [|exact HB] | eapply Forall_impl; [|exact HM]];
        cbn beta; intros; lra.
    - intros t Ht. apply hd_error_index in Ht. destruct Ht as (r & Hr & <-).
      assert (Hall : Forall (fun r => hi < fst r) R)
        by (eapply Forall_impl; [|exact HR]; cbn beta; intros; lra).
      apply (Forall_hd _ _ _ Hall Hr). }
  unfold window_by_position, get_loc, backfill_loc, pad_loc. cbn [fst snd].
  rewrite Hl, Hr.
  assert (Hlen : (length B <? length (index (B ++ M ++ R)))%nat = true).
  { apply Nat.ltb_lt. unfold index. rewrite length_map, !length_app.
    destruct M; destruct R; cbn [length]; try lia.
    exfalso. now apply HMR. }
  rewrite Hlen. cbn [bind ret].
  destruct (length B + length M)%nat as [|n] eqn:En.
  { destruct B; destruct M; cbn in En; try lia. exfalso. now apply HBM. }
  cbn [bind ret]. unfold ret. f_equal. unfold iloc_slice.
  rewrite Nat.add_1_r, <- En. apply skipn_firstn_app.
Qed.

(** X11: on an increasing index the method [pre] starts the window at
    the last row at or before [start] and carries it on over the rows
    up to [end]: when [r0] is that row, the window is [r0] followed by
    the later rows whose index value is at most [end]. *)
Theorem pre_window_rows (float64_index : bool) (before after : frame A)
    (r0 : Q * A) (s e : Q) :
  increasing (index (before ++ r0 :: after)) ->
  fst r0 <= s ->
  Forall (fun r => s < fst r) after ->
  s <= e ->
  _data_window float64_index (before ++ r0 :: after) (Some s, Some e)
               "pre" false
  = inr (r0 :: filter (fun r => Qle_bool (fst r) e) after).
Proof.
  intros Hinc Hr0 Hafter Hse.
  set (data := before ++ r0 :: after).
  change (_data_window float64_index data (Some s, Some e) "pre" false)
    with (window_by_position data (Some s, Some e) (Ffill, Ffill)).
  unfold index in Hinc. rewrite map_app in Hinc. cbn [map] in Hinc.
  destruct (increasing_app _ _ Hinc) as (_ & Hinc2 & Hlt).
  assert (HB : Forall (fun r => fst r < fst r0) before).
  { apply Forall_forall. intros r Hr. apply Hlt; [now apply in_map|].
    now left. }
  pose proof (increasing_tail _ _ Hinc2) as HincA.
  destruct (frame_split3 after s e HincA) as (B' & M & R & EA & HB' & HM & HR).
  assert (B' = []).
  { destruct B' as [|x B']; [reflexivity|]. exfalso.
    inversion HB'; subst. inversion Hafter; subst. lra. }
  subst B'. cbn [app] in EA.
  assert (Hfilter : filter (fun r => Qle_bool (fst r) e) after = M).
  { rewrite EA, filter_app, filter_keep, filter_none.
    - apply app_nil_r.
    - eapply Forall_impl; [|exact HR]. intros r [_ Hr].
      now apply Qle_bool_gt.
    - eapply Forall_impl; [|exact HM]. intros r [_ Hr].
      now apply Qle_bool_iff. }
  rewrite Hfilter.
  assert (Hs : searchsorted_right (index data) s
               = Datatypes.S (length before)).
  { unfold data.
    change (before ++ r0 :: after) with (before ++ [r0] ++ after).
    rewrite app_assoc, index_app, searchsorted_right_app.
    - unfold index. rewrite length_map, length_app. cbn. lia.
    - unfold index. apply Forall_map, Forall_app. split.
      + eapply Forall_impl; [|exact HB]. cbn beta. intros; lra.
      + constructor; [exact Hr0 | constructor].
    - intros t Ht. apply hd_error_index in Ht. destruct Ht as (r & Hr & <-).
      apply (Forall_hd _ _ _ Hafter Hr). }
  assert (He : searchsorted_right (index data) e
               = Datatypes.S (length before + length M)).
  { unfold data. rewrite EA.
    replace (before ++ r0 :: M ++ R) with ((before ++ r0 :: M) ++ R)
      by (rewrite <- app_assoc; reflexivity).
    rewrite index_app, searchsorted_right_app.
    - unfold index. rewrite length_map, length_app. cbn. lia.
    - unfold index. apply Forall_map, Forall_app. split.
      + eapply Forall_impl; [|exact HB]. cbn beta. intros; lra.
      + constructor; [lra|].
        eapply Forall_impl; [|exact HM]. cbn beta. intros; lra.
    - intros t Ht. apply hd_error_index in Ht. destruct Ht as (r & Hr & <-).
      assert (Hall : Forall (fun r => e < fst r) R)
        by (eapply Forall_impl; [|exact HR]; cbn beta; intros; lra).
      apply (Forall_hd _ _ _ Hall Hr). }
  unfold window_by_position, get_loc, pad_loc. cbn [fst snd].
  rewrite Hs, He. cbn [bind ret]. unfold ret. f_equal.
  unfold iloc_slice, data. rewrite EA.
  replace (length before + length M + 1)%nat
    with (length before + length (r0 :: M))%nat by (cbn; lia).
  change (before ++ r0 :: M ++ R) with (before ++ (r0 :: M) ++ R).
  apply skipn_firstn_app.
Qed.

End WindowMore.

(** ** The shape of a squash *)

Section SquashShape.
Context {St : Type}.
Implicit Types (df res : frame (row St)) (r : Q * row St).

(** The squash in terms of the rows before, inside and after the
    window clamped to the extent of the data. *)
Lemma df_squash_shape df (start end_ : Q) (tl : Q) (rl : row St) :
  increasing (index df) ->
  last_row df = Some (tl, rl) ->
  let e := py_min end_ (tl + delta rl) in
  start <= e ->
  exists B M R,
    df = B ++ M ++ R
    /\ Forall (fun r => fst r < start) B
    /\ Forall (fun r => start <= fst r /\ fst r <= e) M
    /\ Forall (fun r => start <= fst r /\ e < fst r) R
    /\ df_squash df start end_
       = let pre :=
           if index_mem start M then []
           else match last_row B with
                | Some bl =>
                    [(start,
                      Row (py_min (match M with
                                   | [] => e
                                   | (t, _) :: _ => t
                                   end - start) (e - start))
                          (state (snd bl)))]
                | None => []
                end in
         match M with
         | [] => pre
         | _ :: _ => squash_tail e (pre ++ M)
         end.
Proof.
  intros Hinc Hlast e Hse.
  rewrite (df_squash_unfold _ _ _ _ _ Hlast). fold e. cbv zeta.
  assert (E : Qltb e start = false) by (apply Qltb_ge; lra).
  rewrite E. clear E.
  destruct (frame_split3 df start e Hinc) as (B & M & R & -> & HB & HM & HR).
  exists B, M, R. repeat (split; [assumption || reflexivity|]).
  rewrite loc_slice_inside by assumption.
  destruct (index_mem start M) eqn:Emem.
  - rewrite andb_false_r. now destruct M.
  - cbn [negb]. rewrite andb_true_r.
    assert (HMs : Forall (fun r => start < fst r) M).
    { apply Forall_forall. intros r Hr.
      rewrite Forall_forall in HM. destruct (HM r Hr) as [H1 _].
      destruct (Qlt_le_dec start (fst r)) as [|H2]; [assumption|].
      exfalso. assert (Hex : Exists (fun r => fst r == start) M).
      { apply Exists_exists. exists r. split; [assumption|]. lra. }
      apply index_mem_exists in Hex. congruence. }
    assert (HMR : Forall (fun r => start < fst r) (M ++ R)).
    { apply Forall_app. split; [exact HMs|].
      eapply Forall_impl; [|exact HR]. cbn beta. intros; lra. }
    rewrite (loc_slice_before _ _ _ HB HMR).
    destruct B as [|b B].
    + cbn [empty negb last_row app]. now destruct M.
    + assert (Hne : b :: B <> []) by discriminate.
      destruct (exists_last Hne) as (B' & bl & EB). rewrite EB.
      rewrite last_row_snoc, tail1_snoc.
      assert (Eemp : empty (B' ++ [bl]) = false) by now destruct B'.
      rewrite Eemp. cbn [negb]. now destruct M.
Qed.

Lemma increasing_cons (a : Q) (ix : list Q) :
  Forall (fun t => a < t) ix -> increasing ix -> increasing (a :: ix).
Proof.
  intros Hall Hinc. destruct ix as [|b ix]; [exact I|].
  split; [now inversion Hall | exact Hinc].
Qed.

Lemma increasing_filter {X : Type} (key : X -> Q) (f : X -> bool)
    (l : list X) :
  increasing (map key l) -> increasing (map key (filter f l)).
Proof.
  induction l as [|x l IH]; intro H; [exact I|].
  cbn [map] in H.
  pose proof (increasing_head_lt _ _ H) as Hlt.
  specialize (IH (increasing_tail _ _ H)).
  cbn [filter]. destruct (f x); [|exact IH].
  cbn [map]. apply increasing_cons; [|exact IH].
  rewrite Forall_map in Hlt |- *. apply Forall_forall.
  intros y Hy. apply filter_In in Hy. destruct Hy as [Hy _].
  rewrite Forall_forall in Hlt. now apply Hlt.
Qed.

Lemma index_at_set (t v : Q) df : index (at_set t v df) = index df.
Proof.
  unfold index, at_set. rewrite map_map. apply map_ext.
  intro r. now destruct (Qeq_bool (fst r) t).
Qed.

(** The last step of the squash keeps or drops rows without moving
    them. *)
Lemma squash_tail_index (e : Q) res :
  index (squash_tail e res) = index res
  \/ squash_tail e res = drop e res.
Proof.
  unfold squash_tail. destruct (index_mem e res); [now right|].
  left. destruct (last_row res) as [[t r]|]; [apply index_at_set|reflexivity].
Qed.

(** X12: on an increasing index, the squash is a table again: its index
    is increasing and lies within the window, from [start] to [end]
    clamped to the extent of the data. *)
Theorem df_squash_well_formed df (start end_ : Q) (rl : Q * row St) :
  increasing (index df) ->
  last_row df = Some rl ->
  let e := py_min end_ (fst rl + delta (snd rl)) in
  increasing (index (df_squash df start end_))
  /\ Forall (fun t => start <= t /\ t <= e) (index (df_squash df start end_)).
Proof.
  intros Hinc Hlast e. destruct rl as [tl rl]. cbn [fst snd] in e.
  destruct (Qlt_le_dec e start) as [Hlt|Hle].
  { rewrite (df_squash_unfold _ _ _ _ _ Hlast). fold e. cbv zeta.
    apply Qltb_lt in Hlt. rewrite Hlt. split; constructor. }
  destruct (df_squash_shape df start end_ tl rl Hinc Hlast Hle)
    as (B & M & R & -> & HB & HM & HR & ->). fold e. cbv zeta.
  unfold index in Hinc. rewrite !map_app in Hinc.
  destruct (increasing_app _ _ Hinc) as (_ & HincMR & _).
  destruct (increasing_app _ _ HincMR) as (HincM & _ & _).
  set (pre := if index_mem start M then []
              else match last_row B with
                   | Some bl => _
                   | None => []
                   end).
  assert (Hpre : increasing (index (pre ++ M))
                 /\ Forall (fun t => start <= t /\ t <= e) (index (pre ++ M))).
  { assert (HMb : Forall (fun t => start <= t /\ t <= e) (index M))
      by (unfold index; now apply Forall_map).
    unfold pre. destruct (index_mem start M) eqn:Emem; [now split|].
    destruct (last_row B) as [bl|]; [|now split].
    cbn [app index map fst]. split.
    - apply increasing_cons; [|exact HincM].
      apply Forall_map, Forall_forall. intros r Hr.
      rewrite Forall_forall in HM. destruct (HM r Hr) as [H1 _].
      destruct (Qlt_le_dec start (fst r)) as [|H2]; [assumption|].
      exfalso. assert (Hex : Exists (fun r => fst r == start) M).
      { apply Exists_exists. exists r. split; [assumption|]. lra. }
      apply index_mem_exists in Hex. congruence.
    - constructor; [split; lra | exact HMb]. }
  destruct Hpre as [Hpi Hpb].
  assert (Hshort : increasing (index pre)
                   /\ Forall (fun t => start <= t /\ t <= e) (index pre)).
  { unfold index in *. rewrite map_app in Hpi, Hpb.
    destruct (increasing_app _ _ Hpi) as (H1 & _ & _).
    apply Forall_app in Hpb. now destruct Hpb. }
  destruct M as [|m0 M']; [exact Hshort|].
  destruct (squash_tail_index e (pre ++ m0 :: M')) as [-> | ->];
    [now split|].
  unfold drop, index. split.
  - now apply increasing_filter.
  - apply Forall_map, Forall_forall. intros r Hr.
    apply filter_In in Hr. destruct Hr as [Hr _].
    unfold index in Hpb. rewrite Forall_map, Forall_forall in Hpb.
    now apply Hpb.
Qed.

Lemma squash_tail_head (e : Q) r res :
  ~ fst r == e ->
  exists d rest,
    squash_tail e (r :: res) = (fst r, Row d (state (snd r))) :: rest.
Proof.
  intro Hne. unfold squash_tail.
  destruct (index_mem e (r :: res)).
  - unfold drop. cbn [filter]. apply Qeq_bool_false in Hne. rewrite Hne.
    cbn [negb]. destruct r as [t [d st]]. now eexists _, _.
  - destruct (last_row (r :: res)) as [[t rr]|].
    + unfold at_set. cbn [map].
      destruct (Qeq_bool (fst r) t); [now eexists _, _|].
      destruct r as [t' [d st]]. now eexists _, _.
    + destruct r as [t' [d st]]. now eexists _, _.
Qed.

(** X13: when the window starts within the data and [start < end], the
    squash is not empty and begins with a row at [start] that carries
    the other columns of the last row at or before [start]. *)
Theorem df_squash_first_row (before after : frame (row St))
    (r0 rl : Q * row St) (start end_ : Q) :
  increasing (index (before ++ r0 :: after)) ->
  last_row (before ++ r0 :: after) = Some rl ->
  fst r0 <= start ->
  Forall (fun r => start < fst r) after ->
  start < end_ ->
  end_ <= fst rl + delta (snd rl) ->
  exists t d rest,
    df_squash (before ++ r0 :: after) start end_
    = (t, Row d (state (snd r0))) :: rest
    /\ t == start.
Proof.
  intros Hinc Hlast Hr0 Hafter Hlt Hext. destruct rl as [tl rl].
  cbn [fst snd] in Hext.
  rewrite (df_squash_unfold _ _ _ _ _ Hlast).
  rewrite (py_min_within _ _ Hext). cbv zeta.
  assert (E : Qltb end_ start = false) by (apply Qltb_ge; lra).
  rewrite E. clear E.
  unfold index in Hinc. rewrite map_app in Hinc. cbn [map] in Hinc.
  destruct (increasing_app _ _ Hinc) as (_ & Hinc2 & Hbr).
  assert (HB : Forall (fun r => fst r < fst r0) before).
  { apply Forall_forall. intros r Hr. apply Hbr; [now apply in_map|].
    now left. }
  pose proof (increasing_tail _ _ Hinc2) as HincA.
  destruct (frame_split3 after start end_ HincA)
    as (B' & M & R & EA & HB' & HM & HR).
  assert (B' = []).
  { destruct B' as [|x B']; [reflexivity|]. exfalso.
    inversion HB'; subst. inversion Hafter; subst. lra. }
  subst B'. cbn [app] in EA. subst after.
  apply Forall_app in Hafter. destruct Hafter as [HMs HRs].
  destruct (Qeq_bool (fst r0) start) eqn:Es; order_facts.
  - (* the row [r0] sits at [start] *)
    change (before ++ r0 :: M ++ R) with (before ++ (r0 :: M) ++ R).
    rewrite loc_slice_inside; [|lra| | |assumption].
    + assert (Emem : index_mem start (r0 :: M) = true)
        by (apply index_mem_exists; now left).
      rewrite Emem, andb_false_r. cbn [empty negb app].
      destruct (squash_tail_head end_ r0 M) as (d & rest & ->); [lra|].
      now exists (fst r0), d, rest.
    + eapply Forall_impl; [|exact HB]. cbn beta. intros; lra.
    + constructor; [lra | exact HM].
  - (* the window starts inside the row [r0] *)
    assert (Hr0s : fst r0 < start) by lra.
    change (before ++ r0 :: M ++ R) with (before ++ [r0] ++ M ++ R).
    rewrite app_assoc.
    assert (HB2 : Forall (fun r => fst r < start) (before ++ [r0])).
    { apply Forall_app. split.
      - eapply Forall_impl; [|exact HB]. cbn beta. intros; lra.
      - now constructor. }
    rewrite loc_slice_inside by (assumption || lra).
    assert (HMR : Forall (fun r => start < fst r) (M ++ R))
      by (apply Forall_app; now split).
    rewrite (loc_slice_before _ _ _ HB2 HMR).
    assert (Emem : index_mem start M = false).
    { apply index_mem_none. eapply Forall_impl; [|exact HMs].
      cbn beta. intros; lra. }
    rewrite Emem, tail1_snoc.
    assert (Eemp : empty (before ++ [r0]) = false) by now destruct before.
    rewrite Eemp. cbn [negb andb app set_index set_column combine map fst snd].
    destruct M as [|m0 M'].
    + cbn [empty negb]. now eexists _, _, _.
    + cbn [empty negb app].
      set (h := (start, Row _ (state (snd r0)))).
      destruct (squash_tail_head end_ h (m0 :: M')) as (d & rest & ->);
        [cbn; lra|].
      now exists start, d, rest.
Qed.

Lemma covers_from df (a a' b : Q) :
  a == a' -> covers df a b -> covers df a' b.
Proof.
  intros Ha H. destruct df as [|r df]; cbn in *.
  - lra.
  - destruct H as [Hr H]. split; [lra | exact H].
Qed.

Lemma covers_to df (a b b' : Q) :
  b == b' -> covers df a b -> covers df a b'.
Proof.
  revert a. induction df as [|r df IH]; intros a Hb H; cbn in *.
  - lra.
  - destruct H as [Hr H]. split; [exact Hr | now apply IH].
Qed.

Lemma covers_join df1 df2 (a m b : Q) :
  covers df1 a m -> covers df2 m b -> covers (df1 ++ df2) a b.
Proof.
  revert a. induction df1 as [|r df1 IH]; intros a H1 H2; cbn in *.
  - apply (covers_from _ m); [lra | exact H2].
  - destruct H1 as [Hr H1]. split; [exact Hr | now apply IH].
Qed.

Lemma covers_gap_free df (a b : Q) : covers df a b -> gap_free df.
Proof.
  revert a. induction df as [|r df IH]; intros a H; [exact I|].
  destruct H as [_ H]. destruct df as [|r' df]; [exact I|].
  split; [|exact (IH _ H)]. destruct H as [Hr' _]. lra.
Qed.

Lemma covers_ends df (a b : Q) :
  covers df a b ->
  (forall r, hd_error df = Some r -> fst r == a)
  /\ (forall r, last_row df = Some r -> fst r + delta (snd r) == b).
Proof.
  intro H. split.
  - intros r Hr. destruct df; [discriminate|]. injection Hr as ->.
    now destruct H.
  - intros r Hr. destruct (last_row_split _ _ Hr) as (init & ->).
    destruct (covers_app _ _ _ _ H) as (m & _ & [Hm Hb]). exact Hb.
Qed.

(** The last step of the squash, on rows that tile the time. *)
Lemma squash_tail_covers (pre rows : frame (row St)) l (e s a m : Q) :
  Forall (fun r => fst r < fst l /\ ~ fst r == e) pre ->
  Forall (fun r => fst r < fst l) rows ->
  fst l <= e ->
  covers pre s a ->
  covers (rows ++ [l]) a m ->
  e <= m ->
  covers (squash_tail e (pre ++ rows ++ [l])) s e.
Proof.
  intros Hpre Hrows Hle Hcp Hcov Hem.
  destruct (covers_app _ _ _ _ Hcov) as (k & Hk & Hl).
  cbn in Hl. destruct Hl as [Hlk Hlm].
  assert (Hpe : Forall (fun r => ~ fst r == e) pre)
    by (eapply Forall_impl; [|exact Hpre]; cbn beta; tauto).
  assert (Hpl : Forall (fun r => ~ fst r == fst l) pre)
    by (eapply Forall_impl; [|exact Hpre]; cbn beta; intros; lra).
  assert (Hre : Forall (fun r => ~ fst r == e) rows)
    by (eapply Forall_impl; [|exact Hrows]; cbn beta; intros; lra).
  assert (Hrl : Forall (fun r => ~ fst r == fst l) rows)
    by (eapply Forall_impl; [|exact Hrows]; cbn beta; intros; lra).
  unfold squash_tail.
  rewrite !index_mem_app, (index_mem_none _ _ Hpe), (index_mem_none _ _ Hre).
  cbn [orb]. unfold index_mem at 1. cbn [index map existsb].
  rewrite orb_false_r.
  destruct (Qeq_bool e (fst l)) eqn:E; order_facts.
  - unfold drop. rewrite !filter_app.
    fold (drop e pre). fold (drop e rows).
    rewrite (drop_none _ _ Hpe), (drop_none _ _ Hre). cbn [filter].
    assert (E' : Qeq_bool (fst l) e = true)
      by (apply Qeq_bool_iff; now symmetry).
    rewrite E'. cbn [negb]. rewrite app_nil_r.
    apply (covers_join _ _ _ a); [exact Hcp|].
    apply (covers_to _ _ k); [lra | exact Hk].
  - rewrite app_assoc, last_row_snoc, <- app_assoc.
    destruct l as [tl rl]. cbn [fst snd] in *.
    unfold at_set. rewrite !map_app.
    fold (at_set tl (py_min (e - tl) (delta rl)) pre).
    fold (at_set tl (py_min (e - tl) (delta rl)) rows).
    rewrite (at_set_none _ _ _ Hpl), (at_set_none _ _ _ Hrl).
    cbn [map fst snd]. rewrite Qeq_bool_refl.
    apply (covers_join _ _ _ a); [exact Hcp|].
    apply (covers_join _ _ _ k); [exact Hk|].
    cbn. split; [exact Hlk|].
    destruct (py_min_spec (e - tl) (delta rl)) as [[-> _]|[-> Hlt]]; lra.
Qed.

(** X14: squashing keeps a table gap-free: for a gap-free table with an
    increasing index and
    [first_index <= start <= end <= last_index + last_delta], the squash
    is gap-free, its first row starts at [start] and its last row ends
    at [end]. *)
Theorem df_squash_gap_free df (start end_ : Q) (r0 rl : Q * row St) :
  increasing (index df) ->
  gap_free df ->
  hd_error df = Some r0 ->
  last_row df = Some rl ->
  fst r0 <= start ->
  start <= end_ ->
  end_ <= fst rl + delta (snd rl) ->
  gap_free (df_squash df start end_)
  /\ (forall r, hd_error (df_squash df start end_) = Some r ->
                fst r == start)
  /\ (forall r, last_row (df_squash df start end_) = Some r ->
                fst r + delta (snd r) == end_).
Proof.
  intros Hinc Hgap Hhd Hlast Hfirst Hse Hext.
  enough (Hc : covers (df_squash df start end_) start end_).
  { split; [exact (covers_gap_free _ _ _ Hc) | exact (covers_ends _ _ _ Hc)]. }
  assert (Hcov : covers df (fst r0) (fst rl + delta (snd rl))).
  { destruct df as [|d0 df]; [discriminate|]. injection Hhd as ->.
    now apply gap_free_covers. }
  destruct rl as [tl rl]. cbn [fst snd] in Hext, Hcov.
  assert (He : py_min end_ (tl + delta rl) = end_) by now apply py_min_within.
  destruct (df_squash_shape df start end_ tl rl Hinc Hlast)
    as (B & M & R & -> & HB & HM & HR & ->); [rewrite He; exact Hse|].
  rewrite He in *. cbv zeta. clear He Hlast Hgap.
  destruct (covers_app _ _ _ _ Hcov) as (m1 & HcB & HcMR).
  destruct (covers_app _ _ _ _ HcMR) as (m2 & HcM & HcR).
  assert (Hm2 : end_ <= m2).
  { destruct R as [|r R]; cbn in HcR; [lra|].
    inversion HR; subst. destruct HcR as [Hr _]. lra. }
  unfold index in Hinc. rewrite !map_app in Hinc.
  destruct (increasing_app _ _ Hinc) as (_ & HincMR & _).
  destruct (increasing_app _ _ HincMR) as (HincM & _ & _).
  clear Hinc HincMR Hcov HcMR HcR.
  destruct M as [|m0 M'].
  - (* no row inside the window *)
    cbn [index_mem index map existsb].
    destruct B as [|b B].
    { exfalso. cbn in Hhd. destruct R as [|r R]; [discriminate|].
      injection Hhd as ->. inversion HR; subst. lra. }
    assert (Hne : b :: B <> []) by discriminate.
    destruct (exists_last Hne) as (B' & bl & ->).
    rewrite last_row_snoc. cbn. split; [reflexivity|].
    destruct (py_min_spec (end_ - start) (end_ - start)) as [[-> _]|[-> _]];
      lra.
  - (* some rows inside the window *)
    assert (Hne : m0 :: M' <> []) by discriminate.
    destruct (exists_last Hne) as (rows & l & EM).
    assert (Hrows : Forall (fun r => fst r < fst l) rows).
    { rewrite EM, map_app in HincM.
      destruct (increasing_app _ _ HincM) as (_ & _ & Hlt).
      apply Forall_forall. intros r Hr.
      apply Hlt; [now apply in_map | now left]. }
    assert (Hl : start <= fst l /\ fst l <= end_).
    { rewrite Forall_forall in HM. apply HM. rewrite EM.
      apply in_or_app. right. now left. }
    assert (Hm0l : fst m0 <= fst l).
    { destruct rows as [|x rows].
      - injection EM as -> _. lra.
      - injection EM as -> _. inversion Hrows; subst. lra. }
    assert (Hm0 : start <= fst m0 /\ fst m0 <= end_) by now inversion HM.
    assert (HcM' : covers (rows ++ [l]) (fst m0) m2).
    { rewrite <- EM. destruct HcM as [_ HcM]. split; [reflexivity|exact HcM]. }
    destruct (index_mem start (m0 :: M')) eqn:Emem.
    + (* a row sits at [start] *)
      assert (Hs0 : fst m0 == start).
      { destruct (Qlt_le_dec start (fst m0)) as [Hgt|]; [|lra]. exfalso.
        assert (Hnone : index_mem start (m0 :: M') = false).
        { apply index_mem_none. constructor; [lra|].
          cbn [map] in HincM. apply increasing_head_lt in HincM.
          rewrite Forall_map in HincM.
          eapply Forall_impl; [|exact HincM]. cbn beta. intros; lra. }
        congruence. }
      cbn [app]. rewrite EM.
      apply (covers_from _ (fst m0)); [exact Hs0|].
      apply (squash_tail_covers [] rows l end_ (fst m0) (fst m0) m2);
        try assumption; [constructor | tauto | reflexivity].
    + (* the window starts inside a row *)
      assert (Hs0 : start < fst m0).
      { destruct (Qlt_le_dec start (fst m0)) as [|Hge]; [assumption|].
        exfalso. assert (Hex : Exists (fun r => fst r == start) (m0 :: M'))
          by (left; lra).
        apply index_mem_exists in Hex. congruence. }
      destruct B as [|b B].
      { exfalso. cbn in Hhd. injection Hhd as <-. lra. }
      assert (HneB : b :: B <> []) by discriminate.
      destruct (exists_last HneB) as (B' & bl & ->).
      rewrite last_row_snoc. destruct m0 as [t0 p0]. cbn [fst] in *.
      rewrite EM.
      apply (squash_tail_covers _ rows l end_ start t0 m2);
        try assumption; [|tauto|].
      * constructor; [|constructor]. cbn [fst]. split; lra.
      * cbn. split; [reflexivity|].
        destruct (py_min_spec (t0 - start) (end_ - start))
          as [[-> _]|[-> Hc]]; lra.
Qed.

End SquashShape.

(** ** More on deduplication *)

Section DedupFacts.
Context {V : Type} (veqb : V -> V -> bool).
Hypothesis veqb_eq : forall a b, veqb a b = true <-> a = b.

Lemma veqb_neq (a b : V) : veqb a b = false <-> a <> b.
Proof.
  split.
  - intros H C. apply veqb_eq in C. congruence.
  - intro H. destruct (veqb a b) eqn:E; [|reflexivity].
    apply veqb_eq in E. contradiction.
Qed.

(** The mask of [keep='first']: a row is kept when its value differs
    from the value [p] of the row before it. *)
Lemma mask_first_cons (s : frame V) (p : option V) (r : Q * V) :
  mask (map (fun ab => cell_ne veqb (fst ab) (snd ab))
          (combine (map snd (r :: s)) (p :: map Some (map snd (r :: s)))))
       (r :: s)
  = (if cell_ne veqb (snd r) p then [r] else [])
    ++ mask (map (fun ab => cell_ne veqb (fst ab) (snd ab))
               (combine (map snd s) (Some (snd r) :: map Some (map snd s))))
            s.
Proof. cbn. now destruct (cell_ne veqb (snd r) p). Qed.

Lemma shift_values_up {X : Type} (v : option X) (vs : list (option X)) :
  shift_values (-1) (v :: vs) = vs ++ [None].
Proof. reflexivity. Qed.

Lemma series_first_mask (s : frame V) :
  series_deduplicate veqb s "first" true
  = inr (Series
           (mask (map (fun ab => cell_ne veqb (fst ab) (snd ab))
                    (combine (map snd s) (None :: map Some (map snd s))))
                 s)).
Proof.
  unfold series_deduplicate, _data_deduplicate. cbn [bind ret String.eqb
    Ascii.eqb Bool.eqb truthy_list]. unfold ret. do 3 f_equal.
  destruct s as [|r s]; [reflexivity|]. cbn [map].
  rewrite shift_values_down.
  rewrite <- (combine_firstn_length (snd r :: map snd s)
                (None :: Some (snd r) :: map Some (map snd s))).
  cbn [length firstn]. now rewrite length_map.
Qed.

Lemma series_last_mask (s : frame V) :
  series_deduplicate veqb s "last" true
  = inr (Series
           (mask (map (fun ab => cell_ne veqb (fst ab) (snd ab))
                    (combine (map snd s)
                             (map Some (tl (map snd s)) ++ [None])))
                 s)).
Proof.
  unfold series_deduplicate, _data_deduplicate. cbn [bind ret String.eqb
    Ascii.eqb Bool.eqb truthy_list]. unfold ret. do 3 f_equal.
  destruct s as [|r s]; [reflexivity|]. cbn [map tl].
  now rewrite shift_values_up.
Qed.

(** The values kept by [keep='first'], after a row of value [p]. *)
Lemma first_mask_values (s : frame V) (p : V) :
  p :: map snd
         (mask (map (fun ab => cell_ne veqb (fst ab) (snd ab))
                  (combine (map snd s) (Some p :: map Some (map snd s))))
               s)
  = compress veqb (p :: map snd s).
Proof.
  revert p. induction s as [|r s IH]; intro p; [reflexivity|].
  rewrite mask_first_cons. cbn [cell_ne map compress].
  destruct (veqb (snd r) p) eqn:E.
  - apply veqb_eq in E. subst p. cbn [negb app].
    assert (E : veqb (snd r) (snd r) = true) by now apply veqb_eq.
    rewrite E. apply IH.
  - cbn [negb app map].
    assert (E' : veqb p (snd r) = false).
    { apply veqb_neq. apply veqb_neq in E. congruence. }
    rewrite E'. f_equal. apply IH.
Qed.

(** The values kept by [keep='last']. *)
Lemma last_mask_values (s : frame V) :
  map snd
    (mask (map (fun ab => cell_ne veqb (fst ab) (snd ab))
             (combine (map snd s) (map Some (tl (map snd s)) ++ [None])))
          s)
  = compress veqb (map snd s).
Proof.
  induction s as [|r s IH]; [reflexivity|].
  destruct s as [|r' s]; [reflexivity|].
  cbn [map tl combine app fst snd mask cell_ne compress] in *.
  destruct (veqb (snd r) (snd r')); cbn [negb]; [exact IH|].
  cbn [map]. f_equal. exact IH.
Qed.

Lemma compress_head (a : V) (vs : list V) :
  hd_error (compress veqb (a :: vs)) = Some a.
Proof.
  revert a. induction vs as [|b vs IH]; intro a; [reflexivity|].
  cbn [compress]. destruct (veqb a b) eqn:E; [|reflexivity].
  apply veqb_eq in E. subst b. apply IH.
Qed.

Lemma compress_cons2 (a b : V) (vs : list V) :
  compress veqb (a :: b :: vs)
  = if veqb a b then compress veqb (b :: vs)
    else a :: compress veqb (b :: vs).
Proof. reflexivity. Qed.

Lemma compress_no_repeat (vs : list V) : no_repeat (compress veqb vs).
Proof.
  induction vs as [|a vs IH]; [exact I|].
  destruct vs as [|b vs]; [exact I|].
  rewrite compress_cons2. destruct (veqb a b) eqn:E; [exact IH|].
  pose proof (compress_head b vs) as Hh.
  destruct (compress veqb (b :: vs)) as [|b' rest]; [discriminate|].
  injection Hh as ->. change (a <> b /\ no_repeat (b :: rest)).
  split; [now apply veqb_neq | exact IH].
Qed.

Lemma compress_fixed (vs : list V) : no_repeat vs -> compress veqb vs = vs.
Proof.
  induction vs as [|a vs IH]; intro H; [reflexivity|].
  destruct vs as [|b vs]; [reflexivity|].
  destruct H as [Hab H]. rewrite compress_cons2.
  apply veqb_neq in Hab. rewrite Hab. f_equal. now apply IH.
Qed.

Lemma first_mask_keep (s : frame V) (p : option V) :
  no_repeat (map snd s) ->
  (forall v r, p = Some v -> hd_error s = Some r -> snd r <> v) ->
  mask (map (fun ab => cell_ne veqb (fst ab) (snd ab))
          (combine (map snd s) (p :: map Some (map snd s))))
       s
  = s.
Proof.
  revert p. induction s as [|r s IH]; intros p Hn Hp; [reflexivity|].
  rewrite mask_first_cons.
  assert (E : cell_ne veqb (snd r) p = true).
  { destruct p as [v|]; [|reflexivity]. cbn. apply negb_true_iff.
    apply veqb_neq. now apply (Hp v r). }
  rewrite E. cbn [app]. f_equal. apply IH.
  - destruct s; [exact I | now destruct Hn].
  - intros v r' [= <-] Hr'. destruct s as [|r'' s]; [discriminate|].
    injection Hr' as ->. destruct Hn as [Hn _]. cbn in Hn. congruence.
Qed.

Lemma last_mask_keep (s : frame V) :
  no_repeat (map snd s) ->
  mask (map (fun ab => cell_ne veqb (fst ab) (snd ab))
          (combine (map snd s) (map Some (tl (map snd s)) ++ [None])))
       s
  = s.
Proof.
  induction s as [|r s IH]; intro Hn; [reflexivity|].
  destruct s as [|r' s]; [reflexivity|].
  destruct Hn as [Hrr Hn]. specialize (IH Hn).
  cbn [map tl combine app fst snd mask cell_ne] in *.
  apply veqb_neq in Hrr. rewrite Hrr. cbn [negb]. f_equal. exact IH.
Qed.

Lemma series_deduplicate_values_aux (s : frame V) :
  exists first_rows last_rows,
    series_deduplicate veqb s "first" true = inr (Series first_rows)
    /\ series_deduplicate veqb s "last" true = inr (Series last_rows)
    /\ map snd first_rows = compress veqb (map snd s)
    /\ map snd last_rows = compress veqb (map snd s).
Proof.
  rewrite series_first_mask, series_last_mask.
  eexists _, _. split; [reflexivity|]. split; [reflexivity|].
  split; [|apply last_mask_values].
  destruct s as [|r s]; [reflexivity|].
  rewrite mask_first_cons. cbn [cell_ne app map].
  apply first_mask_values.
Qed.

(** X15: removing consecutive duplicates from a series leaves no two
    neighbours with the same value, and [keep] only decides which row of
    a run survives: with ['first'] and with ['last'] the values left are
    the same, one per run. *)
Theorem series_deduplicate_consecutive_values (s : frame V) :
  exists first_rows last_rows,
    series_deduplicate veqb s "first" true = inr (Series first_rows)
    /\ series_deduplicate veqb s "last" true = inr (Series last_rows)
    /\ map snd first_rows = compress veqb (map snd s)
    /\ map snd last_rows = compress veqb (map snd s)
    /\ no_repeat (map snd first_rows)
    /\ no_repeat (map snd last_rows).
Proof.
  rewrite series_first_mask, series_last_mask.
  eexists _, _. split; [reflexivity|]. split; [reflexivity|].
  rewrite last_mask_values.
  assert (Hf : map snd
                 (mask (map (fun ab => cell_ne veqb (fst ab) (snd ab))
                          (combine (map snd s)
                                   (None :: map Some (map snd s)))) s)
               = compress veqb (map snd s)).
  { destruct s as [|r s]; [reflexivity|].
    rewrite mask_first_cons. cbn [cell_ne app map].
    apply first_mask_values. }
  rewrite Hf. repeat split; apply compress_no_repeat.
Qed.

(** X16: removing consecutive duplicates twice changes nothing more:
    the result of [series_deduplicate] is returned as it is by a second
    call with the same [keep]. *)
Theorem series_deduplicate_idempotent (s out : frame V) (keep : string) :
  series_deduplicate veqb s keep true = inr (Series out) ->
  series_deduplicate veqb out keep true = inr (Series out).
Proof.
  intro H.
  assert (Hkeep : keep = "first"%string \/ keep = "last"%string).
  { unfold series_deduplicate, _data_deduplicate in H.
    destruct (String.eqb keep "first") eqn:E1;
      [left; now apply String.eqb_eq|].
    destruct (String.eqb keep "last") eqn:E2;
      [right; now apply String.eqb_eq | discriminate]. }
  destruct (series_deduplicate_values_aux s) as (f & l & Hf & Hl & Hvf & Hvl).
  destruct Hkeep as [-> | ->].
  - rewrite Hf in H. injection H as <-.
    rewrite series_first_mask. do 2 f_equal.
    apply first_mask_keep; [|discriminate].
    rewrite Hvf. apply compress_no_repeat.
  - rewrite Hl in H. injection H as <-.
    rewrite series_last_mask. do 2 f_equal.
    apply last_mask_keep. rewrite Hvl. apply compress_no_repeat.
Qed.

Lemma list_eqb_eq (a b : list V) : list_eqb veqb a b = true <-> a = b.
Proof.
  revert b. induction a as [|x a IH]; intros [|y b]; cbn;
    try (split; [discriminate | congruence]); [tauto|].
  rewrite andb_true_iff, veqb_eq, IH. split.
  - now intros [-> ->].
  - intros [= -> ->]. now split.
Qed.

Section DropDuplicates.
Context {X K : Type} (keqb : K -> K -> bool) (key : X -> K).
Hypothesis keqb_eq : forall a b, keqb a b = true <-> a = b.

Lemma seen_spec (k : K) (seen : list K) :
  existsb (keqb k) seen = true <-> In k seen.
Proof.
  rewrite existsb_exists. split.
  - intros (x & Hx & E). apply keqb_eq in E. now subst.
  - intro H. exists k. split; [assumption | now apply keqb_eq].
Qed.

(** What [dedup_first] keeps: rows of the input, with keys that differ
    from one another and from the keys [seen], and a row for every key
    of the input that is not in [seen]. *)
Lemma dedup_first_spec (seen : list K) (l : list X) :
  let out := dedup_first keqb key seen l in
  NoDup (map key out)
  /\ (forall x, In x out -> In x l /\ ~ In (key x) seen)
  /\ (forall x, In x l -> In (key x) seen \/ In (key x) (map key out)).
Proof.
  revert seen. induction l as [|x l IH]; intro seen; cbn zeta.
  - cbn. split; [constructor|]. split; [intros x []|intros x []].
  - cbn [dedup_first]. destruct (existsb (keqb (key x)) seen) eqn:E.
    + apply seen_spec in E. destruct (IH seen) as (Hnd & Hin & Hcov).
      split; [exact Hnd|]. split.
      * intros y Hy. destruct (Hin y Hy) as [H1 H2].
        split; [now right | exact H2].
      * intros y [<-|Hy]; [now left | now apply Hcov].
    + assert (Hx : ~ In (key x) seen).
      { intro C. apply seen_spec in C. congruence. }
      destruct (IH (key x :: seen)) as (Hnd & Hin & Hcov).
      split; [|split].
      * cbn [map]. constructor; [|exact Hnd].
        intro C. apply in_map_iff in C. destruct C as (y & Hk & Hy).
        apply Hin in Hy. destruct Hy as [_ Hy]. apply Hy. left.
        now symmetry.
      * intros y [<-|Hy]; [split; [now left | exact Hx]|].
        destruct (Hin y Hy) as [H1 H2]. split; [now right|].
        intro C. apply H2. now right.
      * intros y [<-|Hy]; [right; now left|].
        destruct (Hcov y Hy) as [[Hk|Hs]|Ho].
        -- right. left. exact Hk.
        -- now left.
        -- right. now right.
Qed.

Lemma drop_duplicates_spec (keep : string) (l : list X) :
  let out := drop_duplicates keqb key keep l in
  NoDup (map key out)
  /\ incl out l
  /\ (forall x, In x l -> In (key x) (map key out)).
Proof.
  cbn zeta. unfold drop_duplicates.
  destruct (String.eqb keep "first").
  - destruct (dedup_first_spec [] l) as (Hnd & Hin & Hcov).
    split; [exact Hnd|]. split.
    + intros x Hx. now apply Hin.
    + intros x Hx. destruct (Hcov x Hx) as [[]|H]. exact H.
  - destruct (dedup_first_spec [] (rev l)) as (Hnd & Hin & Hcov).
    split; [|split].
    + rewrite map_rev. apply NoDup_rev. exact Hnd.
    + intros x Hx. apply in_rev in Hx. apply Hin in Hx.
      destruct Hx as [Hx _]. now apply in_rev.
    + intros x Hx. rewrite map_rev. apply (proj1 (in_rev _ _)).
      apply in_rev in Hx. destruct (Hcov x Hx) as [[]|H]. exact H.
Qed.

End DropDuplicates.

(** X17: without the restriction to consecutive rows, [df_deduplicate]
    with [all_col=True] returns rows of the table such that no two of
    them agree on all the compared columns, and such that every row of
    the table agrees on these columns with a row that is kept. *)
Theorem df_deduplicate_global (columns dcols : list string)
    (df : frame (string -> V)) (keep : string)
    (cols : option (list string)) :
  keep = "first"%string \/ keep = "last"%string ->
  compared_columns columns cols = inr dcols ->
  let key (r : Q * (string -> V)) := map (snd r) dcols in
  exists out,
    df_deduplicate veqb columns df keep false cols (Some true)
    = inr (DataFrame columns out)
    /\ NoDup (map key out)
    /\ incl out df
    /\ (forall r, In r df -> exists r', In r' out /\ key r' = key r).
Proof.
  intros Hkeep Hcols key.
  unfold df_deduplicate, _data_deduplicate.
  assert (Hshift : exists n : Z,
             (if String.eqb keep "first" then ret 1%Z
              else if String.eqb keep "last" then ret (-1)%Z
              else raise ValueError) = inr n)
    by (destruct Hkeep; subst keep; eexists; reflexivity).
  destruct Hshift as [n ->]. rewrite Hcols. cbn [bind ret negb truthy_bool].
  eexists. split; [reflexivity|].
  destruct (drop_duplicates_spec (list_eqb veqb) key list_eqb_eq keep df)
    as (Hnd & Hincl & Hcov).
  split; [exact Hnd|]. split; [exact Hincl|].
  intros r Hr. specialize (Hcov r Hr). apply in_map_iff in Hcov.
  destruct Hcov as (r' & Hk & Hr'). now exists r'.
Qed.

End DedupFacts.

(** ** The index of aligned signals *)

Section AlignIndex.
Variable correlate : list (option Q) -> list (option Q) -> list (option Q).

Lemma shift_values_length {X : Type} (n : Z) (vs : list (option X)) :
  length (shift_values n vs) = length vs.
Proof.
  unfold shift_values. destruct (0 <=? n)%Z.
  - rewrite length_firstn, length_app, repeat_length. lia.
  - rewrite length_app, length_skipn, repeat_length. lia.
Qed.

Lemma index_reindex_ffill (s : signal) (new_index : list Q) :
  index (reindex_ffill s new_index) = new_index.
Proof.
  unfold index, reindex_ffill. rewrite map_map. cbn [fst]. apply map_id.
Qed.

Lemma index_shift_signal (s : signal) (n : Z) :
  index (shift_signal s n) = index s.
Proof.
  unfold shift_signal.
  set (vs := map _ (shift_values n _)).
  assert (Hlen : length (index s) = length vs).
  { unfold vs, index. now rewrite !length_map, shift_values_length,
      !length_map. }
  clearbody vs. unfold index at 1. revert vs Hlen.
  induction (index s) as [|t ix IH]; intros [|v vs] Hlen;
    try discriminate; [reflexivity|].
  cbn. f_equal. apply IH. now injection Hlen.
Qed.

(** X18: the two signals that [series_align_signal] returns are on one
    and the same index, the resampled one: compensating the shift moves
    the values of [to_align] and leaves its index alone. *)
Theorem series_align_signal_index (ref to_align : signal)
    (max_shift : option Q) (ref' to_align' : signal) :
  series_align_signal correlate ref to_align max_shift
  = inr (ref', to_align') ->
  index ref' = index to_align' /\ length ref' = length to_align'.
Proof.
  unfold series_align_signal, align_shift.
  destruct (isnull_any ref || isnull_any to_align); [discriminate|].
  destruct (ceil_div _ _) as [e|num]; [discriminate|]. cbn [bind].
  destruct (nan_max _ _) as [start|]; [|discriminate].
  destruct (nan_min (index_max _) _) as [end_|]; [|discriminate].
  destruct (nan_min (get_period ref) _) as [period|]; [|discriminate].
  destruct (linspace start end_ num) as [e|new_index]; [discriminate|].
  cbn [bind].
  destruct (argmax _) as [e|pos]; [discriminate|]. cbn [bind].
  destruct (cap_shift _ period max_shift) as [e|applied]; [discriminate|].
  cbn [bind ret]. intros [= <- <-].
  assert (Hix : index (reindex_ffill ref new_index)
                = index (shift_signal (reindex_ffill to_align new_index)
                           (- applied)))
    by now rewrite index_shift_signal, !index_reindex_ffill.
  split; [exact Hix|].
  apply (f_equal (@length Q)) in Hix. unfold index in Hix.
  now rewrite !length_map in Hix.
Qed.

End AlignIndex.

(** ** Filtering by task *)

Section FilterTaskFacts.
Variables (columns : list string) (df : frame (string -> cell)).
Variables (pid_col comm_col : option string) (comm_max_len : Z).

Local Notation "'matches'" := (task_matches pid_col comm_col comm_max_len).
Local Notation "'constrains'" := (task_constrains pid_col comm_col).
Local Notation "'denotes''" := (denotes df).

Lemma or_columns_map {X : Type} (f g : X -> bool) (l : list X) :
  or_columns (map f l) (map g l) = map (fun x => f x || g x) l.
Proof.
  unfold or_columns. induction l as [|x l IH]; [reflexivity|].
  cbn. now rewrite IH.
Qed.

Lemma unconstrained_matches (t : TaskID) r :
  constrains t = false -> matches t r = true.
Proof.
  unfold task_constrains, task_matches.
  destruct (col_name pid_col), (pid t), (col_name comm_col), (comm t);
    cbn; congruence.
Qed.

Lemma make_filter_unconstrained (t : TaskID) :
  constrains t = false ->
  make_filter columns df pid_col comm_col comm_max_len t
  = inr (Scalar true).
Proof.
  unfold task_constrains, make_filter.
  destruct (col_name pid_col), (pid t), (col_name comm_col), (comm t);
    cbn; intro; (discriminate || reflexivity).
Qed.

Lemma denotes_ext (m : pymask) g g' :
  (forall r, g r = g' r) -> denotes' m g -> denotes' m g'.
Proof.
  intros E. destruct m as [b|bs]; cbn.
  - intros H r. now rewrite <- E.
  - intros ->. now apply map_ext.
Qed.

Section ColumnsPresent.
Hypothesis pid_present :
  forall c, col_name pid_col = Some c ->
            existsb (String.eqb c) columns = true.
Hypothesis comm_present :
  forall c, col_name comm_col = Some c ->
            existsb (String.eqb c) columns = true.

Lemma make_filter_spec (t : TaskID) :
  exists m,
    make_filter columns df pid_col comm_col comm_max_len t = inr m
    /\ denotes' m (matches t)
    /\ is_column m = constrains t.
Proof.
  unfold make_filter, task_constrains, task_matches, column_eq.
  destruct (col_name pid_col) as [pc|] eqn:Ep;
    destruct (col_name comm_col) as [cc|] eqn:Ec;
    destruct (pid t) as [p|]; destruct (comm t) as [s|];
    rewrite ?(pid_present _ eq_refl), ?(comm_present _ eq_refl);
    cbn [bind ret and_mask];
    eexists; (split; [reflexivity|]); (split; [|reflexivity]);
    cbn [denotes]; rewrite ?and_columns_map, ?map_map;
    try reflexivity; try (intro; reflexivity);
    apply map_ext; intro r; now rewrite ?andb_true_r.
Qed.

Lemma or_mask_denotes (a f : pymask) g h :
  denotes' a g -> denotes' f h ->
  denotes' (or_mask a f) (fun r => g r || h r)
  /\ is_column (or_mask a f) = is_column a || is_column f.
Proof.
  destruct a as [b|bs], f as [c|cs]; cbn; intros Ha Hf.
  - split; [|reflexivity]. intro r. now rewrite Ha, Hf.
  - split; [|reflexivity]. subst cs. rewrite map_map.
    apply map_ext. intro r. now rewrite Ha.
  - split; [|reflexivity]. subst bs. rewrite map_map.
    apply map_ext. intro r. now rewrite Hf.
  - split; [|reflexivity]. subst. apply or_columns_map.
Qed.

Lemma reduce_or_spec (task_ids : list TaskID) :
  forall (acc : pymask) g,
    denotes' acc g ->
    exists m,
      reduce_or columns df pid_col comm_col comm_max_len acc task_ids
      = inr m
      /\ denotes' m (fun r => g r || existsb (fun t => matches t r) task_ids)
      /\ is_column m = is_column acc || existsb constrains task_ids.
Proof.
  induction task_ids as [|t ts IH]; intros acc g Hacc.
  - exists acc. cbn. split; [reflexivity|]. split.
    + apply denotes_ext with (g := g); [|assumption].
      intro r. now rewrite orb_false_r.
    + now rewrite orb_false_r.
  - destruct (make_filter_spec t) as (f & Ef & Hf & Cf).
    destruct (or_mask_denotes acc f _ _ Hacc Hf) as [Hd Hc].
    destruct (IH _ _ Hd) as (m & Em & Hm & Cm).
    exists m. cbn [reduce_or]. rewrite Ef. cbn [bind]. rewrite Em.
    split; [reflexivity|]. split.
    + eapply denotes_ext; [|exact Hm].
      intro r. cbn [existsb]. now rewrite orb_assoc.
    + rewrite Cm, Hc, Cf. cbn [existsb]. now rewrite orb_assoc.
Qed.

(** X19: when the columns named exist and at least one task id sets a
    field that is compared, [df_filter_task_ids] keeps, in their order,
    the rows that agree with some task id on every field it sets (the
    name cut at [comm_max_len]); with [invert] it keeps the other rows,
    so that the two calls split the table. *)
Theorem df_filter_task_ids_rows (task_ids : list TaskID) (invert : bool) :
  existsb constrains task_ids = true ->
  df_filter_task_ids columns df pid_col comm_col comm_max_len task_ids invert
  = inr (filter (fun r => xorb invert
                            (existsb (fun t => matches t r) task_ids)) df).
Proof.
  intro Hc. unfold df_filter_task_ids.
  destruct (reduce_or_spec task_ids (Scalar false) (fun _ => false))
    as (m & Em & Hm & Cm); [intro; reflexivity|].
  rewrite Em. cbn [bind]. rewrite Hc in Cm.
  destruct m as [b|bs]; [discriminate|]. cbn in Hm. subst bs.
  destruct invert; unfold ret; f_equal.
  - rewrite map_map, mask_map. apply filter_ext. intro r. reflexivity.
  - rewrite mask_map. apply filter_ext. intro r. reflexivity.
Qed.

End ColumnsPresent.

Lemma reduce_or_unconstrained (task_ids : list TaskID) (b : bool) :
  existsb constrains task_ids = false ->
  exists b',
    reduce_or columns df pid_col comm_col comm_max_len (Scalar b) task_ids
    = inr (Scalar b').
Proof.
  revert b. induction task_ids as [|t ts IH]; intros b H.
  - now exists b.
  - cbn [existsb] in H. apply orb_false_iff in H. destruct H as [Ht Hts].
    cbn [reduce_or]. rewrite (make_filter_unconstrained t Ht).
    cbn [bind or_mask]. now apply IH.
Qed.

(** X20: when no task id sets a field that is compared (an empty list of
    task ids, ids whose fields are all [None], or column names that are
    all unset), [df_filter_task_ids] raises [KeyError] with or without
    [invert], whatever the table and its columns: it returns neither the
    empty table nor the whole one. *)
Theorem df_filter_task_ids_unconstrained (task_ids : list TaskID)
    (invert : bool) :
  existsb constrains task_ids = false ->
  df_filter_task_ids columns df pid_col comm_col comm_max_len task_ids invert
  = inl KeyError.
Proof.
  intro H. unfold df_filter_task_ids.
  destruct (reduce_or_unconstrained task_ids false H) as (b' & E).
  now rewrite E.
Qed.

End FilterTaskFacts.

(** ** Splitting by signal *)

Lemma Forall_last {X : Type} (P : X -> Prop) (l : list X) (d : X) :
  Forall P l -> l <> [] -> P (last l d).
Proof.
  intros H Hne. destruct (exists_last Hne) as (init & x & ->).
  rewrite last_last. apply Forall_app in H. destruct H as [_ H].
  now inversion H.
Qed.

Lemma increasing_le_last (t : Q) (ix : list Q) :
  increasing (t :: ix) -> Forall (fun x => x <= last ix t) (t :: ix).
Proof.
  revert t. induction ix as [|u ix IH]; intros t H.
  - constructor; [cbn; lra | constructor].
  - pose proof (increasing_head_lt _ _ H) as Hlt.
    specialize (IH u (increasing_tail _ _ H)).
    rewrite last_cons. constructor; [|exact IH].
    inversion Hlt; subst. inversion IH; subst. lra.
Qed.

Lemma last_of_map {X Y : Type} (f : X -> Y) (l : list X) (d : X) :
  last (map f l) (f d) = f (last l d).
Proof.
  induction l as [|x l IH]; [reflexivity|].
  destruct l as [|y l]; [reflexivity|]. exact IH.
Qed.

Section RefitStart.
Context {A : Type}.
Implicit Types (sig : frame A).

Lemma clip_start_only (t0 first : Q) (ix : list Q) :
  increasing (t0 :: ix) -> first <= t0 ->
  clip (t0 :: ix) (Some first, None) = inr (Some t0, Some (last ix t0)).
Proof.
  intros Hinc Hle. unfold clip. cbn [index_first index_last bind ret].
  assert (E0 : Qle_bool first t0 = true) by now apply Qle_bool_iff.
  rewrite E0. cbn [andb].
  destruct ix as [|u ix].
  - cbn [last].
    assert (E1 : Qle_bool t0 t0 = true) by (apply Qle_bool_iff; lra).
    now rewrite E1.
  - assert (Hlt : t0 < last (u :: ix) t0).
    { apply (Forall_last (fun t => t0 < t)); [|discriminate].
      now apply increasing_head_lt. }
    assert (E1 : Qle_bool (last (u :: ix) t0) t0 = false)
      by now apply Qle_bool_gt.
    assert (E2 : Qle_bool (last (u :: ix) t0) first = false)
      by (apply Qle_bool_gt; lra).
    assert (E3 : Qle_bool (last (u :: ix) t0) (last (u :: ix) t0) = true)
      by (apply Qle_bool_iff; lra).
    now rewrite E1, E2, E3.
Qed.

Lemma window_whole (float64_index : bool) sig (r0 : Q * A) :
  increasing (index (r0 :: sig)) ->
  _data_window float64_index (r0 :: sig)
    (Some (fst r0), Some (last (index sig) (fst r0))) "inclusive" false
  = inr (r0 :: sig).
Proof.
  intro Hinc.
  pose proof (increasing_le_last _ _ Hinc) as Hle.
  pose proof (increasing_head_lt _ _ Hinc) as Hlt.
  assert (Hord : fst r0 <= last (index sig) (fst r0))
    by now inversion Hle.
  assert (Hnative :
            _data_window true (r0 :: sig)
              (Some (fst r0), Some (last (index sig) (fst r0)))
              "inclusive" false
            = inr (r0 :: sig)).
  { rewrite inclusive_native_rows by assumption.
    f_equal. apply filter_keep.
    assert (Hge : Forall (fun t => fst r0 <= t) (fst r0 :: index sig)).
    { constructor; [lra|]. eapply Forall_impl; [|exact Hlt].
      cbn beta. intros; lra. }
    apply (proj1 (Forall_map fst _ (r0 :: sig))) in Hle, Hge.
    rewrite Forall_forall in Hle, Hge.
    apply Forall_forall. intros r Hr. unfold in_window.
    apply andb_true_iff. split; apply Qle_bool_iff.
    - now apply Hge.
    - now apply Hle. }
  destruct float64_index; [exact Hnative|].
  rewrite inclusive_paths_agree_on_matches; try assumption.
  - apply Exists_cons_hd. reflexivity.
  - destruct sig as [|r1 sig].
    + apply Exists_cons_hd. reflexivity.
    + apply Exists_cons_tl. apply Exists_exists.
      exists (last (r1 :: sig) r0). split.
      * apply (Forall_last (fun r => In r (r1 :: sig)));
          [|discriminate].
        apply Forall_forall. auto.
      * unfold index. now rewrite (last_of_map fst).
Qed.

(** Refitting the start only, to a label at or before the first row:
    every row is kept and the first one takes the label. *)
Lemma refit_start_only (float64_index : bool) sig (first : Q) :
  increasing (index sig) -> sig <> [] ->
  Forall (fun r => first <= fst r) sig ->
  df_refit_index float64_index sig (Some first) None "inclusive"
  = inr (set_index (first :: tl (index sig)) sig).
Proof.
  intros Hinc Hne Hall. destruct sig as [|r0 sig]; [congruence|].
  unfold df_refit_index, _data_refit_index. cbn [empty].
  rewrite _data_window_clip.
  change (index (r0 :: sig)) with (fst r0 :: index sig).
  rewrite clip_start_only; [|exact Hinc|now inversion Hall].
  cbn [bind]. rewrite (window_whole _ _ _ Hinc). reflexivity.
Qed.

End RefitStart.

Section SplitFacts.
Context {V : Type} (veqb vltb : V -> V -> bool).
Hypothesis veqb_eq : forall a b, veqb a b = true <-> a = b.
Implicit Types (df : frame (string -> V)) (k : list V).

Lemma insert_key_in k (ks : list (list V)) (x : list V) :
  In x (insert_key veqb vltb k ks) <-> x = k \/ In x ks.
Proof.
  induction ks as [|k' ks IH]; cbn.
  - intuition.
  - destruct (key_ltb veqb vltb k' k); cbn; rewrite ?IH; intuition.
Qed.

Lemma insert_key_nodup k (ks : list (list V)) :
  ~ In k ks -> NoDup ks -> NoDup (insert_key veqb vltb k ks).
Proof.
  induction ks as [|k' ks IH]; cbn; intros Hk Hnd.
  - constructor; [intros []|constructor].
  - destruct (key_ltb veqb vltb k' k).
    + inversion Hnd; subst. constructor.
      * rewrite insert_key_in. intros [->|H]; [|contradiction].
        apply Hk. now left.
      * apply IH; [|assumption]. intro C. apply Hk. now right.
    + constructor; assumption.
Qed.

Lemma sort_keys_spec (ks : list (list V)) :
  NoDup ks ->
  NoDup (sort_keys veqb vltb ks)
  /\ forall x, In x (sort_keys veqb vltb ks) <-> In x ks.
Proof.
  induction ks as [|k ks IH]; intro Hnd.
  - split; [constructor|]. intro x. reflexivity.
  - inversion Hnd; subst. destruct (IH H2) as [Hs Hin].
    cbn [sort_keys fold_right]. fold (sort_keys veqb vltb ks). split.
    + apply insert_key_nodup; [|assumption]. now rewrite Hin.
    + intro x. rewrite insert_key_in, Hin. cbn. intuition.
Qed.

(** The keys of the groups: those of the rows, each one once. *)
Lemma group_keys_spec (cols : list string) df :
  let keys := sort_keys veqb vltb
                (dedup_first (list_eqb veqb) (fun k => k) []
                             (map (signal_key cols) df)) in
  NoDup keys
  /\ forall k, In k keys <-> exists r, In r df /\ signal_key cols r = k.
Proof.
  cbn zeta.
  destruct (dedup_first_spec (list_eqb veqb) (fun k : list V => k)
              (list_eqb_eq veqb veqb_eq) [] (map (signal_key cols) df))
    as (Hnd & Hin & Hcov).
  rewrite map_id in Hnd, Hcov.
  destruct (sort_keys_spec _ Hnd) as [Hs Hi].
  split; [exact Hs|]. intro k. rewrite Hi. split.
  - intro H. apply Hin in H. destruct H as [H _].
    apply in_map_iff in H. destruct H as (r & E & Hr). now exists r.
  - intros (r & Hr & <-).
    destruct (Hcov (signal_key cols r)) as [[]|H]; [|exact H].
    now apply in_map.
Qed.

Lemma map_result_in {X Y : Type} (f : X -> result Y) (g : X -> Y)
    (l : list X) :
  (forall x, In x l -> f x = inr (g x)) ->
  map_result f l = inr (map g l).
Proof.
  induction l as [|x l IH]; intro H; [reflexivity|].
  cbn [map_result map]. rewrite (H x) by now left.
  cbn [bind]. rewrite IH; [reflexivity|].
  intros y Hy. apply H. now right.
Qed.

Lemma combine_key (cols : list string) k :
  length k = length cols ->
  map fst (combine cols k) = cols /\ map snd (combine cols k) = k.
Proof.
  revert k. induction cols as [|c cols IH]; intros [|v k] Hlen;
    try discriminate; [now split|].
  cbn. destruct (IH k) as [E1 E2]; [now injection Hlen|].
  now rewrite E1, E2.
Qed.

Lemma filter_filter_other {X : Type} (f g : X -> bool) (l : list X) :
  (forall x, g x = true -> f x = false) ->
  filter g (filter (fun x => negb (f x)) l) = filter g l.
Proof.
  intro H. induction l as [|x l IH]; [reflexivity|].
  cbn [filter]. destruct (f x) eqn:Ef; cbn [negb filter].
  - destruct (g x) eqn:Eg; [|exact IH].
    apply H in Eg. congruence.
  - now rewrite IH.
Qed.

(** Groups of distinct keys that cover the rows hold as many rows as
    the table. *)
Lemma groups_count (cols : list string) (keys : list (list V)) :
  forall df,
    NoDup keys ->
    (forall r, In r df -> In (signal_key cols r) keys) ->
    length (concat (map (fun k =>
                           filter (fun r =>
                                     list_eqb veqb (signal_key cols r) k) df)
                        keys))
    = length df.
Proof.
  induction keys as [|k keys IH]; intros df Hnd Hcov.
  - destruct df as [|r df]; [reflexivity|].
    destruct (Hcov r); now left.
  - inversion Hnd; subst. cbn [map concat]. rewrite length_app.
    set (f := fun r => list_eqb veqb (signal_key cols r) k).
    rewrite <- (filter_length f df). f_equal.
    rewrite <- (IH (filter (fun r => negb (f r)) df) H2).
    + do 2 f_equal. apply map_ext_in. intros k' Hk'. symmetry.
      apply filter_filter_other. intros r E. unfold f.
      apply (list_eqb_eq veqb veqb_eq) in E.
      destruct (list_eqb veqb (signal_key cols r) k) eqn:Ek;
        [|reflexivity].
      apply (list_eqb_eq veqb veqb_eq) in Ek.
      exfalso. apply H1. now rewrite <- Ek, E.
    + intros r Hr. apply filter_In in Hr. destruct Hr as [Hr Hf].
      destruct (Hcov r Hr) as [E|H]; [|exact H].
      unfold f in Hf. rewrite <- E in Hf.
      assert (T : list_eqb veqb k k = true)
        by now apply (list_eqb_eq veqb veqb_eq).
      rewrite T in Hf. discriminate.
Qed.

Lemma groupby_present (columns cols : list string) df :
  forallb (fun c => existsb (String.eqb c) columns) cols = true ->
  groupby veqb vltb columns df cols
  = inr (map (fun k =>
                (k, filter (fun r => list_eqb veqb (signal_key cols r) k) df))
             (sort_keys veqb vltb
                (dedup_first (list_eqb veqb) (fun k => k) []
                             (map (signal_key cols) df)))).
Proof.
  intro H. unfold groupby. now rewrite H.
Qed.

(** X21: splitting on columns of the table, without [align_start],
    yields a partition of the rows: the signals carry distinct values of
    the signal columns, none is empty, each one holds, in their order,
    the rows of the table that have its values in the signal columns,
    every row is in the signal of its values, and the signals hold
    together as many rows as the table. *)
Theorem df_split_signals_partition (float64_index : bool)
    (columns : list string) df (c : string) (cs : list string) :
  forallb (fun c => existsb (String.eqb c) columns) (c :: cs) = true ->
  exists signals,
    df_split_signals veqb vltb float64_index columns df (c :: cs) false
    = inr signals
    /\ NoDup (map fst signals)
    /\ Forall (fun s =>
                 snd s <> []
                 /\ map fst (fst s) = c :: cs
                 /\ snd s = filter (fun r =>
                                      list_eqb veqb (signal_key (c :: cs) r)
                                               (map snd (fst s))) df)
              signals
    /\ (forall r, In r df ->
          exists s, In s signals
                    /\ fst s = combine (c :: cs) (signal_key (c :: cs) r)
                    /\ In r (snd s))
    /\ length (concat (map snd signals)) = length df.
Proof.
  intro Hcols. set (cols := c :: cs) in *.
  destruct (group_keys_spec cols df) as [Hnd Hkeys].
  set (keys := sort_keys veqb vltb _) in *.
  set (grp := fun k =>
                (combine cols k,
                 filter (fun r => list_eqb veqb (signal_key cols r) k) df)).
  assert (Hlen : forall k, In k keys -> length k = length cols).
  { intros k Hk. apply Hkeys in Hk. destruct Hk as (r & _ & <-).
    unfold signal_key. apply length_map. }
  assert (Hrefl : forall k, list_eqb veqb k k = true)
    by (intro k; now apply (list_eqb_eq veqb veqb_eq)).
  exists (map grp keys). split; [|split; [|split; [|split]]].
  - unfold df_split_signals. subst cols.
    rewrite (groupby_present _ _ _ Hcols). cbn [bind].
    rewrite (map_result_in _ (fun gs =>
               (combine (c :: cs) (fst gs), snd gs)));
      [|reflexivity].
    now rewrite map_map.
  - rewrite map_map. cbn [grp fst].
    apply NoDup_map_NoDup_ForallPairs; [|exact Hnd].
    intros k1 k2 H1 H2 E.
    destruct (combine_key cols k1 (Hlen _ H1)) as [_ E1].
    destruct (combine_key cols k2 (Hlen _ H2)) as [_ E2].
    rewrite <- E1, <- E2. now rewrite E.
  - apply Forall_forall. intros s Hs. apply in_map_iff in Hs.
    destruct Hs as (k & <- & Hk). cbn [grp fst snd].
    destruct (combine_key cols k (Hlen _ Hk)) as [E1 E2].
    rewrite E1, E2. split; [|split; reflexivity].
    apply Hkeys in Hk. destruct Hk as (r & Hr & <-).
    intro C.
    assert (Hin : In r (filter (fun r' =>
                     list_eqb veqb (signal_key cols r')
                              (signal_key cols r)) df))
      by (apply filter_In; split; [assumption | apply Hrefl]).
    rewrite C in Hin. destruct Hin.
  - intros r Hr. exists (grp (signal_key cols r)). split; [|split].
    + apply in_map. apply Hkeys. now exists r.
    + reflexivity.
    + cbn [grp snd]. apply filter_In. split; [assumption | apply Hrefl].
  - rewrite map_map. cbn [grp snd]. apply groups_count; [exact Hnd|].
    intros r Hr. apply Hkeys. now exists r.
Qed.

(** X22: on an increasing index, whatever its kind, [align_start] keeps
    the signals and their rows as they are and only relabels the first
    row of each signal with the first index label of the whole table:
    the rows between that label and the first row of a signal are not
    made up, and the label the first row had is lost. *)
Theorem df_split_signals_align_start (float64_index : bool)
    (columns : list string) df (c : string) (cs : list string)
    (first : Q) :
  increasing (index df) ->
  index_first (index df) = inr first ->
  forallb (fun c => existsb (String.eqb c) columns) (c :: cs) = true ->
  exists signals,
    df_split_signals veqb vltb float64_index columns df (c :: cs) false
    = inr signals
    /\ df_split_signals veqb vltb float64_index columns df (c :: cs) true
       = inr (map (fun s =>
                     (fst s,
                      set_index (first :: tl (index (snd s))) (snd s)))
                  signals).
Proof.
  intros Hinc Hfirst Hcols. set (cols := c :: cs) in *.
  destruct (group_keys_spec cols df) as [Hnd Hkeys].
  set (keys := sort_keys veqb vltb _) in *.
  set (sel := fun k =>
                filter (fun r => list_eqb veqb (signal_key cols r) k) df).
  exists (map (fun k => (combine cols k, sel k)) keys).
  assert (Hge : Forall (fun r => first <= fst r) df).
  { destruct df as [|r0 df]; [discriminate|].
    cbn in Hfirst. injection Hfirst as <-.
    constructor; [lra|].
    pose proof (increasing_head_lt _ _ Hinc) as Hlt.
    apply (proj1 (Forall_map fst _ df)) in Hlt.
    eapply Forall_impl; [|exact Hlt]. cbn beta. intros; lra. }
  unfold df_split_signals. subst cols.
  rewrite (groupby_present _ _ _ Hcols). cbn [bind]. split.
  - rewrite (map_result_in _ (fun gs =>
               (combine (c :: cs) (fst gs), snd gs)));
      [|reflexivity].
    now rewrite map_map.
  - rewrite Hfirst. cbn [bind].
    rewrite (map_result_in _ (fun gs =>
               (combine (c :: cs) (fst gs),
                set_index (first :: tl (index (snd gs))) (snd gs)))).
    + now rewrite !map_map.
    + intros gs Hgs. apply in_map_iff in Hgs.
      destruct Hgs as (k & <- & Hk). cbn [fst snd].
      rewrite refit_start_only; [reflexivity| | |].
      * apply increasing_filter. exact Hinc.
      * apply Hkeys in Hk. destruct Hk as (r & Hr & <-). intro C.
        assert (Hin : In r (filter (fun r' =>
                         list_eqb veqb (signal_key (c :: cs) r')
                                  (signal_key (c :: cs) r)) df)).
        { apply filter_In. split; [assumption|].
          now apply (list_eqb_eq veqb veqb_eq). }
        rewrite C in Hin. destruct Hin.
      * apply Forall_forall. intros r Hr. apply filter_In in Hr.
        rewrite Forall_forall in Hge. now apply Hge.
Qed.

End SplitFacts.

(** ** The rows of an inclusive window *)

(** X23: on an increasing index and for [lo <= hi], the method
    [inclusive] selects exactly the rows whose label [t] has
    [lo <= t <= hi] when the index is a float index; on an index of
    another kind it selects the same rows as soon as both bounds are
    labels of the table. *)
Theorem inclusive_window_rows {A : Type} (float64_index : bool)
    (data : frame A) (lo hi : Q) :
  increasing (index data) ->
  lo <= hi ->
  float64_index = true
  \/ (Exists (fun r => fst r == lo) data
      /\ Exists (fun r => fst r == hi) data) ->
  _data_window float64_index data (Some lo, Some hi) "inclusive" false
  = inr (filter (in_window lo hi) data).
Proof.
  intros Hinc Hle [->|[Hlo Hhi]].
  - now apply inclusive_native_rows.
  - destruct float64_index; [now apply inclusive_native_rows|].
    rewrite inclusive_paths_agree_on_matches by assumption.
    now apply inclusive_native_rows.
Qed.

(** ** The further theorems at work on the examples *)


Lemma series_integrate_sign_witness :
  exists p n,
    series_integrate (fun _ _ => NaN) signed_example None
                     (Some "+"%string) "rect" "post"
    = inr (Fin p)
    /\ series_integrate (fun _ _ => NaN) signed_example None
                        (Some "-"%string) "rect" "post"
       = inr (Fin n)
    /\ 0 <= p /\ n <= 0.
Proof.
  apply (series_integrate_sign (fun _ _ => NaN) signed_example "post").
  vm_compute. repeat split.
Defined.

Lemma series_mean_short_witness :
  series_mean (fun _ _ => NaN) [ (2, Some 5) ] None None "rect" "post"
  = inr NaN.
Proof.
  apply (series_mean_short (fun _ _ => NaN) [ (2, Some 5) ] "rect" "post").
  - now left.
  - vm_compute. lia.
Defined.

Lemma df_filter_rows_witness :
  df_filter Z.eqb ["cpu"; "freq"]%string signals_example
            [ ("cpu"%string, 1%Z) ]
  = inr (filter (row_matches Z.eqb [ ("cpu"%string, 1%Z) ]) signals_example).
Proof.
  apply (df_filter_rows Z.eqb ["cpu"; "freq"]%string signals_example
           [ ("cpu"%string, 1%Z) ]).
  - discriminate.
  - repeat constructor.
Defined.

Lemma df_filter_errors_witness :
  df_filter Z.eqb ["cpu"; "freq"]%string signals_example [] = inl TypeError
  /\ df_filter Z.eqb ["cpu"; "freq"]%string signals_example
               [ ("cpu"%string, 1%Z); ("pid"%string, 1%Z) ]
     = inl KeyError.
Proof.
  split.
  - apply (proj1 (df_filter_errors Z.eqb ["cpu"; "freq"]%string
                    signals_example [])).
    reflexivity.
  - apply (proj2 (df_filter_errors Z.eqb ["cpu"; "freq"]%string
                    signals_example
                    [ ("cpu"%string, 1%Z); ("pid"%string, 1%Z) ])).
    apply Exists_cons_tl. apply Exists_cons_hd.
    simpl. intros [H|[H|[]]]; discriminate.
Defined.

Lemma df_filter_compose_witness :
  (filtered <- df_filter Z.eqb ["cpu"; "freq"]%string signals_example
                         [ ("cpu"%string, 1%Z) ] ;;
   df_filter Z.eqb ["cpu"; "freq"]%string filtered
             [ ("freq"%string, 900%Z) ])
  = df_filter Z.eqb ["cpu"; "freq"]%string signals_example
              ([ ("cpu"%string, 1%Z) ] ++ [ ("freq"%string, 900%Z) ]).
Proof.
  apply (df_filter_compose Z.eqb ["cpu"; "freq"]%string signals_example
           [ ("cpu"%string, 1%Z) ] [ ("freq"%string, 900%Z) ]).
  - discriminate.
  - discriminate.
  - repeat constructor.
  - constructor; [|constructor]. simpl. auto.
Defined.

Lemma clip_within_range_witness :
  exists s' e',
    clip [0; 5; 10] (Some 2, None) = inr (Some s', Some e')
    /\ 0 <= s' /\ s' <= e' /\ e' <= 10
    /\ (0 <= 2 -> 2 <= 10 -> s' == 2)
    /\ (0 <= 10 -> 10 <= 10 -> e' == 10).
Proof.
  apply (clip_within_range [0; 5; 10] 0 10 (Some 2) None).
  - reflexivity.
  - reflexivity.
  - vm_compute. discriminate.
  - vm_compute. discriminate.
Defined.

Lemma exclusive_rows_witness :
  _data_window false window_example (Some 2, Some 8) "exclusive" false
  = inr (filter (in_window 2 8) window_example).
Proof.
  apply (exclusive_rows false window_example 2 8).
  - vm_compute. repeat split.
  - vm_compute. discriminate.
  - apply Exists_cons_tl. apply Exists_cons_hd. vm_compute. discriminate.
  - apply Exists_cons_hd. vm_compute. discriminate.
Defined.

Lemma pre_window_rows_witness :
  _data_window false ([ (0, 1%Z) ] ++ (5, 2%Z) :: [ (10, 3%Z) ])
               (Some 7, Some 12) "pre" false
  = inr ((5, 2%Z) :: filter (fun r => Qle_bool (fst r) 12) [ (10, 3%Z) ]).
Proof.
  apply (pre_window_rows false [ (0, 1%Z) ] [ (10, 3%Z) ] (5, 2%Z) 7 12).
  - vm_compute. repeat split.
  - vm_compute. discriminate.
  - constructor; [vm_compute; reflexivity | constructor].
  - vm_compute. discriminate.
Defined.

Lemma inclusive_window_rows_witness :
  _data_window false window_example (Some 0, Some 5) "inclusive" false
  = inr (filter (in_window 0 5) window_example).
Proof.
  apply (inclusive_window_rows false window_example 0 5).
  - vm_compute. repeat split.
  - vm_compute. discriminate.
  - right. split.
    + apply Exists_cons_hd. reflexivity.
    + apply Exists_cons_tl. apply Exists_cons_hd. reflexivity.
Defined.

Lemma df_squash_well_formed_witness :
  increasing (index (df_squash squash_example 16.5 17.5))
  /\ Forall (fun t => 16.5 <= t /\ t <= py_min 17.5 (18 + 1))
            (index (df_squash squash_example 16.5 17.5)).
Proof.
  apply (df_squash_well_formed squash_example 16.5 17.5 (18, Row 1 0%Z)).
  - vm_compute. repeat split.
  - reflexivity.
Defined.

Lemma df_squash_first_row_witness :
  exists t d rest,
    df_squash ([ (15, Row 1 1%Z) ]
               ++ (16, Row 1 0%Z) :: [ (17, Row 1 1%Z); (18, Row 1 0%Z) ])
              16.5 17.5
    = (t, Row d 0%Z) :: rest
    /\ t == 16.5.
Proof.
  apply (df_squash_first_row [ (15, Row 1 1%Z) ]
           [ (17, Row 1 1%Z); (18, Row 1 0%Z) ]
           (16, Row 1 0%Z) (18, Row 1 0%Z) 16.5 17.5).
  - vm_compute. repeat split.
  - reflexivity.
  - vm_compute. discriminate.
  - repeat constructor.
  - vm_compute. reflexivity.
  - vm_compute. discriminate.
Defined.

Lemma df_squash_gap_free_witness :
  gap_free (df_squash squash_example 16.5 17.5)
  /\ (forall r, hd_error (df_squash squash_example 16.5 17.5) = Some r ->
                fst r == 16.5)
  /\ (forall r, last_row (df_squash squash_example 16.5 17.5) = Some r ->
                fst r + delta (snd r) == 17.5).
Proof.
  apply (df_squash_gap_free squash_example 16.5 17.5
           (15, Row 1 1%Z) (18, Row 1 0%Z)).
  - vm_compute. repeat split.
  - vm_compute. repeat split.
  - reflexivity.
  - reflexivity.
  - vm_compute. discriminate.
  - vm_compute. discriminate.
  - vm_compute. discriminate.
Defined.

Lemma series_deduplicate_consecutive_values_witness :
  exists first_rows last_rows,
    series_deduplicate Z.eqb dedup_example "first" true
    = inr (Series first_rows)
    /\ series_deduplicate Z.eqb dedup_example "last" true
       = inr (Series last_rows)
    /\ map snd first_rows = compress Z.eqb (map snd dedup_example)
    /\ map snd last_rows = compress Z.eqb (map snd dedup_example)
    /\ no_repeat (map snd first_rows)
    /\ no_repeat (map snd last_rows).
Proof.
  apply (series_deduplicate_consecutive_values Z.eqb Z.eqb_eq dedup_example).
Defined.

Lemma series_deduplicate_idempotent_witness :
  series_deduplicate Z.eqb [ (0, 1%Z); (2, 2%Z) ] "first" true
  = inr (Series [ (0, 1%Z); (2, 2%Z) ]).
Proof.
  apply (series_deduplicate_idempotent Z.eqb Z.eqb_eq run_example
           [ (0, 1%Z); (2, 2%Z) ] "first").
  reflexivity.
Defined.

Lemma df_deduplicate_global_witness :
  exists out,
    df_deduplicate Z.eqb ["cpu"; "freq"]%string signals_example "first"
                   false (Some ["cpu"%string]) (Some true)
    = inr (DataFrame ["cpu"; "freq"]%string out)
    /\ NoDup (map (fun r : Q * (string -> Z) => map (snd r) ["cpu"%string])
                  out)
    /\ incl out signals_example
    /\ (forall r, In r signals_example ->
          exists r', In r' out
                     /\ map (snd r') ["cpu"%string]
                        = map (snd r) ["cpu"%string]).
Proof.
  apply (df_deduplicate_global Z.eqb Z.eqb_eq ["cpu"; "freq"]%string
           ["cpu"%string] signals_example "first" (Some ["cpu"%string])).
  - now left.
  - reflexivity.
Defined.

Lemma series_align_signal_index_witness :
  index (reindex_ffill align_ref [0 # 3; 4 # 3; 8 # 3; 12 # 3])
  = index (shift_signal
             (reindex_ffill align_late [0 # 3; 4 # 3; 8 # 3; 12 # 3]) 1)
  /\ length (reindex_ffill align_ref [0 # 3; 4 # 3; 8 # 3; 12 # 3])
     = length (shift_signal
                 (reindex_ffill align_late [0 # 3; 4 # 3; 8 # 3; 12 # 3]) 1).
Proof.
  apply (series_align_signal_index correlate_direct align_ref align_late
           (Some 1.5)).
  vm_compute. reflexivity.
Defined.

Lemma df_filter_task_ids_rows_witness :
  df_filter_task_ids ["pid"; "comm"]%string tasks_example
    (Some "pid"%string) (Some "comm"%string) 15
    [ mkTaskID (Some 7%Z) None; mkTaskID None (Some "init"%string) ] true
  = inr (filter
           (fun r =>
              xorb true
                (existsb
                   (fun t => task_matches (Some "pid"%string)
                               (Some "comm"%string) 15 t r)
                   [ mkTaskID (Some 7%Z) None;
                     mkTaskID None (Some "init"%string) ]))
           tasks_example).
Proof.
  apply (df_filter_task_ids_rows ["pid"; "comm"]%string tasks_example
           (Some "pid"%string) (Some "comm"%string) 15).
  - intros c H. vm_compute in H. injection H as <-. reflexivity.
  - intros c H. vm_compute in H. injection H as <-. reflexivity.
  - reflexivity.
Defined.

Lemma df_filter_task_ids_unconstrained_witness :
  df_filter_task_ids ["pid"; "comm"]%string tasks_example
    (Some "pid"%string) (Some "comm"%string) 15 [ mkTaskID None None ] false
  = inl KeyError.
Proof.
  apply (df_filter_task_ids_unconstrained ["pid"; "comm"]%string
           tasks_example (Some "pid"%string) (Some "comm"%string) 15
           [ mkTaskID None None ] false).
  reflexivity.
Defined.

Lemma df_split_signals_partition_witness :
  exists signals,
    df_split_signals Z.eqb Z.ltb false ["cpu"; "freq"]%string
                     signals_example ["cpu"%string] false
    = inr signals
    /\ NoDup (map fst signals)
    /\ length (concat (map snd signals)) = length signals_example.
Proof.
  destruct (df_split_signals_partition Z.eqb Z.ltb Z.eqb_eq false
              ["cpu"; "freq"]%string signals_example "cpu"%string [])
    as (signals & H1 & H2 & _ & _ & H5).
  - reflexivity.
  - exists signals. auto.
Defined.

Lemma df_split_signals_align_start_witness :
  exists signals,
    df_split_signals Z.eqb Z.ltb true ["cpu"; "freq"]%string
                     signals_example ["cpu"%string] false
    = inr signals
    /\ df_split_signals Z.eqb Z.ltb true ["cpu"; "freq"]%string
                        signals_example ["cpu"%string] true
       = inr (map (fun s =>
                     (fst s, set_index (0 :: tl (index (snd s))) (snd s)))
                  signals).
Proof.
  apply (df_split_signals_align_start Z.eqb Z.ltb Z.eqb_eq true
           ["cpu"; "freq"]%string signals_example "cpu"%string [] 0).
  - vm_compute. repeat split.
  - reflexivity.
  - reflexivity.
Defined.

(** ** Derivation *)

Lemma np_sub_nan_r (a : npfloat) : np_sub a NaN = NaN.
Proof. now destruct a. Qed.

Lemma np_diff_cons (v : npfloat) (vs : list npfloat) :
  np_diff (v :: vs) = NaN :: adj_sub (v :: vs).
Proof.
  unfold np_diff. cbn [map]. rewrite shift_values_down.
  cbn [combine map fst snd]. f_equal.
  rewrite length_map, combine_firstn_length.
  revert v. induction vs as [|w vs IH]; intro v; [reflexivity|].
  cbn [map combine fst snd adj_sub]. f_equal. apply IH.
Qed.

Lemma adj_sub_nans (k : nat) (rest : list npfloat) :
  adj_sub (repeat NaN k ++ rest)
  = repeat NaN (match rest with [] => k - 1 | _ :: _ => k end)
    ++ adj_sub rest.
Proof.
  induction k as [|k IH].
  - destruct rest; reflexivity.
  - cbn [repeat app]. destruct k as [|k].
    + destruct rest as [|b rest]; [reflexivity|].
      cbn [repeat app adj_sub]. now rewrite np_sub_nan_r.
    + cbn [repeat app adj_sub] in *. rewrite IH.
      destruct rest; cbn [np_sub Nat.sub repeat app];
        rewrite ?Nat.sub_0_r; reflexivity.
Qed.

Lemma np_diff_nans (k : nat) (rest : list npfloat) :
  np_diff (repeat NaN k ++ rest)
  = repeat NaN (Nat.min (S k) (k + length rest)) ++ adj_sub rest.
Proof.
  destruct k as [|k].
  - destruct rest as [|v rest]; [reflexivity|].
    cbn [repeat app]. rewrite np_diff_cons. reflexivity.
  - change (repeat NaN (S k) ++ rest) with (NaN :: (repeat NaN k ++ rest)).
    rewrite np_diff_cons.
    change (NaN :: (repeat NaN k ++ rest)) with (repeat NaN (S k) ++ rest).
    rewrite adj_sub_nans. destruct rest as [|v rest].
    + cbn [length]. replace (Nat.min (S (S k)) (S k + 0)) with (S k) by lia.
      cbn [Nat.sub]. rewrite Nat.sub_0_r. reflexivity.
    + cbn [length].
      replace (Nat.min (S (S k)) (S k + S (length rest))) with (S (S k))
        by lia.
      reflexivity.
Qed.

Lemma combine_app_l {X Y : Type} (l1 l2 : list X) (d : list Y) :
  combine (l1 ++ l2) d
  = combine l1 (firstn (length l1) d) ++ combine l2 (skipn (length l1) d).
Proof.
  revert d. induction l1 as [|a l1 IH]; intro d; [reflexivity|].
  destruct d as [|b d]; [now destruct l2|].
  cbn. now rewrite IH.
Qed.

Lemma truediv_nans (k : nat) (d : list npfloat) :
  (k <= length d)%nat ->
  map (fun ab => np_truediv (fst ab) (snd ab)) (combine (repeat NaN k) d)
  = repeat NaN k.
Proof.
  revert d. induction k as [|k IH]; intros d Hk; [reflexivity|].
  destruct d as [|b d]; [cbn in Hk; lia|].
  cbn. f_equal. apply IH. cbn in Hk. lia.
Qed.

(** A round of the loop on values that start with [k] NaN. *)
Lemma derivate_step_nans (k : nat) (rest dx : list npfloat) :
  length dx = (k + length rest)%nat ->
  derivate_step dx (repeat NaN k ++ rest)
  = repeat NaN (Nat.min (S k) (k + length rest))
    ++ map (fun ab => np_truediv (fst ab) (snd ab))
           (combine (adj_sub rest)
                    (skipn (Nat.min (S k) (k + length rest)) dx)).
Proof.
  intro Hlen. unfold derivate_step. rewrite np_diff_nans, combine_app_l.
  rewrite combine_firstn_length, repeat_length, map_app. f_equal.
  apply truediv_nans. lia.
Qed.

Lemma length_adj_sub (vs : list npfloat) :
  length (adj_sub vs) = (length vs - 1)%nat.
Proof.
  induction vs as [|a vs IH]; [reflexivity|].
  destruct vs as [|b vs]; [reflexivity|].
  cbn [adj_sub length] in *. rewrite IH. lia.
Qed.

Lemma length_derivate_step (dx vs : list npfloat) :
  length dx = length vs -> length (derivate_step dx vs) = length vs.
Proof.
  intro H. unfold derivate_step. rewrite length_map, length_combine.
  destruct vs as [|v vs]; [reflexivity|].
  rewrite np_diff_cons. cbn [length] in *. rewrite length_adj_sub.
  cbn [length]. lia.
Qed.

Lemma derivate_iter_nans (dx vs : list npfloat) (n : nat) :
  length dx = length vs ->
  exists rest,
    Nat.iter n (derivate_step dx) vs
    = repeat NaN (Nat.min n (length vs)) ++ rest
    /\ (Nat.min n (length vs) + length rest = length vs)%nat.
Proof.
  intro Hlen. induction n as [|n IH].
  - exists vs. now split.
  - destruct IH as (rest & E & Hl). rewrite Nat.iter_succ, E.
    rewrite derivate_step_nans by lia.
    eexists. split.
    + replace (Nat.min (S (Nat.min n (length vs)))
                 (Nat.min n (length vs) + length rest))
        with (Nat.min (S n) (length vs)) by lia.
      reflexivity.
    + rewrite length_map, length_combine, length_adj_sub, length_skipn.
      lia.
Qed.

Lemma index_combine_values {X : Type} (ix : list Q) (vs : list X) :
  length vs = length ix ->
  index (combine ix vs) = ix /\ map snd (combine ix vs) = vs.
Proof.
  revert vs. induction ix as [|t ix IH]; intros [|v vs] H;
    try discriminate; [now split|].
  cbn. destruct (IH vs) as [E1 E2]; [now injection H|].
  unfold index in E1. now rewrite E1, E2.
Qed.

Lemma length_np_diff (vs : list npfloat) : length (np_diff vs) = length vs.
Proof.
  destruct vs as [|v vs]; [reflexivity|].
  rewrite np_diff_cons. cbn [length]. rewrite length_adj_sub.
  cbn [length]. lia.
Qed.

Lemma length_iter_step (dx vs : list npfloat) (n : nat) :
  length dx = length vs ->
  length (Nat.iter n (derivate_step dx) vs) = length vs.
Proof.
  intro H. induction n as [|n IH]; [reflexivity|].
  rewrite Nat.iter_succ, length_derivate_step; lia.
Qed.

(** X24: each order of derivation costs a row: when [x] has as many rows
    as [y] (as it has when it is left to the index), the result of
    [series_derivate] has the index of [y] and its first [order] values
    are NaN (all of them when [y] has fewer rows), whatever the values
    of [y] and [x]. *)
Theorem series_derivate_leading_nan (y : signal)
    (x : option (list (option Q))) (order : Z) :
  length (_resolve_x y x) = length y ->
  index (series_derivate y x order) = index y
  /\ exists rest,
       map snd (series_derivate y x order)
       = repeat NaN (Nat.min (Z.to_nat order) (length y)) ++ rest.
Proof.
  intro Hx. unfold series_derivate.
  set (dx := np_diff (map of_nan (_resolve_x y x))).
  set (vs := map of_nan (map snd y)).
  assert (Hvs : length vs = length y)
    by (unfold vs; now rewrite !length_map).
  assert (Hdx : length dx = length vs).
  { unfold dx. rewrite length_np_diff, length_map. lia. }
  destruct (index_combine_values (index y)
              (Nat.iter (Z.to_nat order) (derivate_step dx) vs))
    as [E1 E2].
  { rewrite length_iter_step by assumption.
    unfold index. rewrite length_map. exact Hvs. }
  split; [exact E1|]. rewrite E2.
  destruct (derivate_iter_nans dx vs (Z.to_nat order) Hdx)
    as (rest & E & _).
  exists rest. now rewrite <- Hvs.
Qed.

Lemma adj_sub_fin (qs : list Q) :
  adj_sub (map Fin qs) = map Fin (diffs qs).
Proof.
  induction qs as [|a qs IH]; [reflexivity|].
  destruct qs as [|b qs]; [reflexivity|].
  cbn [map adj_sub diffs np_sub] in *. now rewrite IH.
Qed.

Lemma truediv_fin (ns ds : list Q) :
  Forall (fun d => 0 < d) ds ->
  map (fun ab => np_truediv (fst ab) (snd ab))
      (combine (map Fin ns) (map Fin ds))
  = map Fin (quotients ns ds).
Proof.
  intro Hpos. revert ns. unfold quotients.
  induction Hpos as [|d ds Hd Hds IH]; intros [|n ns]; try reflexivity.
  cbn [map combine fst snd np_truediv].
  assert (E : Qeq_bool d 0 = false) by (apply Qeq_bool_false; lra).
  rewrite E. f_equal. apply IH.
Qed.

Lemma length_diffs (ix : list Q) : length (diffs ix) = (length ix - 1)%nat.
Proof.
  induction ix as [|a ix IH]; [reflexivity|].
  destruct ix as [|b ix]; [reflexivity|].
  cbn [diffs length] in *. rewrite IH. lia.
Qed.

(** A round of the loop on finite values after [k] NaN, over the index
    steps [ds] that are left for them. *)
Lemma derivate_step_fin (k : nat) (qs ds : list Q) (dx : list npfloat) :
  length dx = (k + length qs)%nat ->
  qs <> [] ->
  skipn (S k) dx = map Fin ds ->
  Forall (fun d => 0 < d) ds ->
  derivate_step dx (repeat NaN k ++ map Fin qs)
  = repeat NaN (S k) ++ map Fin (quotients (diffs qs) ds).
Proof.
  intros Hlen Hne Hskip Hpos.
  rewrite derivate_step_nans by (rewrite length_map; exact Hlen).
  rewrite length_map.
  assert (Hq : (1 <= length qs)%nat)
    by (destruct qs; [congruence | cbn; lia]).
  replace (Nat.min (S k) (k + length qs)) with (S k) by lia.
  rewrite Hskip, adj_sub_fin. now rewrite truediv_fin.
Qed.

Lemma quotients_constant (qs ds : list Q) (c : Q) :
  Forall (fun q => q == c) qs ->
  Forall (fun d => 0 < d) ds ->
  Forall (fun q => q == 0) (quotients (diffs qs) ds).
Proof.
  intros Hc Hpos. revert qs Hc. unfold quotients.
  induction Hpos as [|d ds Hd Hds IH]; intros qs Hc.
  - destruct (diffs qs); constructor.
  - destruct qs as [|a qs]; [constructor|].
    destruct qs as [|b qs]; [constructor|].
    change (diffs (a :: b :: qs)) with ((b - a) :: diffs (b :: qs)).
    cbn [combine map fst snd].
    inversion Hc as [|? ? Ha Hc']; subst.
    inversion Hc' as [|? ? Hb _]; subst.
    constructor; [|now apply IH].
    rewrite Ha, Hb. field. lra.
Qed.

Lemma quotients_affine (l : frame Q) (a b : Q) :
  increasing (index l) ->
  Forall (fun r => snd r == a * fst r + b) l ->
  Forall (fun q => q == a) (quotients (diffs (map snd l)) (diffs (index l))).
Proof.
  unfold quotients. induction l as [|r l IH]; intros Hinc Hl;
    [constructor|].
  destruct l as [|r' l]; [constructor|].
  change (diffs (map snd (r :: r' :: l)))
    with ((snd r' - snd r) :: diffs (map snd (r' :: l))).
  change (diffs (index (r :: r' :: l)))
    with ((fst r' - fst r) :: diffs (index (r' :: l))).
  cbn [combine map fst snd].
  inversion Hl as [|? ? Hr Hl']; subst.
  inversion Hl' as [|? ? Hr' _]; subst.
  destruct Hinc as [Hlt Hinc].
  constructor; [|now apply IH].
  rewrite Hr, Hr'. field. lra.
Qed.

Lemma skipn_diffs_pos (ix : list Q) (k : nat) :
  increasing ix -> Forall (fun d => 0 < d) (skipn k (diffs ix)).
Proof.
  intro H. apply increasing_diffs_pos in H.
  rewrite Forall_forall in *. intros d Hd. apply H.
  rewrite <- (firstn_skipn k (diffs ix)). apply in_or_app. now right.
Qed.

(** The rounds after the first one, on an affine signal. *)
Lemma derivate_iter_affine (l : frame Q) (a b : Q) (n : nat) :
  increasing (index l) ->
  Forall (fun r => snd r == a * fst r + b) l ->
  exists qs,
    Nat.iter (S n) (derivate_step (np_diff (map Fin (index l))))
             (map Fin (map snd l))
    = repeat NaN (Nat.min (S n) (length l)) ++ map Fin qs
    /\ (Nat.min (S n) (length l) + length qs = length l)%nat
    /\ Forall (fun q => q == match n with O => a | _ => 0 end) qs.
Proof.
  intros Hinc Hl.
  destruct l as [|r0 l].
  { exists []. split; [|split; [reflexivity|constructor]].
    induction n as [|n IH]; [reflexivity|].
    rewrite Nat.iter_succ. now rewrite IH. }
  set (tbl := r0 :: l) in *.
  assert (Hdx : np_diff (map Fin (index tbl))
                = NaN :: map Fin (diffs (index tbl))).
  { unfold tbl. cbn [index map]. rewrite np_diff_cons.
    f_equal. exact (adj_sub_fin (fst r0 :: map fst l)). }
  assert (Hdl : length (np_diff (map Fin (index tbl))) = length tbl).
  { rewrite length_np_diff. unfold index. now rewrite !length_map. }
  induction n as [|n IH].
  - exists (quotients (diffs (map snd tbl)) (diffs (index tbl))).
    rewrite Nat.iter_succ. cbn [Nat.iter nat_rect].
    change (map Fin (map snd tbl))
      with (repeat NaN 0 ++ map Fin (map snd tbl)).
    rewrite (derivate_step_fin 0 (map snd tbl) (diffs (index tbl))).
    + split; [|split].
      * unfold tbl. reflexivity.
      * unfold quotients. rewrite length_map, length_combine, !length_diffs.
        unfold index. rewrite !length_map. unfold tbl. cbn [length]. lia.
      * now apply (quotients_affine tbl a b).
    + rewrite Hdl, length_map. reflexivity.
    + unfold tbl. discriminate.
    + rewrite Hdx. reflexivity.
    + now apply increasing_diffs_pos.
  - destruct IH as (qs & E & Hlen & Hc).
    rewrite Nat.iter_succ, E. destruct qs as [|q qs].
    + exists []. cbn [map length] in *.
      rewrite derivate_step_nans by (cbn [length]; lia).
      cbn [adj_sub combine map length].
      split; [|split; [|constructor]].
      * replace (Nat.min (S (Nat.min (S n) (length tbl)))
                   (Nat.min (S n) (length tbl) + 0))
          with (Nat.min (S (S n)) (length tbl)) by lia.
        reflexivity.
      * lia.
    + set (k := Nat.min (S n) (length tbl)) in *.
      exists (quotients (diffs (q :: qs)) (skipn k (diffs (index tbl)))).
      rewrite (derivate_step_fin k (q :: qs) (skipn k (diffs (index tbl)))).
      * cbn [length] in Hlen.
        assert (Hk : k = S n) by lia.
        split; [|split].
        -- do 2 f_equal. lia.
        -- unfold quotients.
           rewrite length_map, length_combine, length_skipn, !length_diffs.
           unfold index. rewrite length_map. cbn [length]. lia.
        -- eapply quotients_constant; [exact Hc|].
           now apply skipn_diffs_pos.
      * lia.
      * discriminate.
      * rewrite Hdx. cbn [skipn]. now rewrite skipn_map.
      * now apply skipn_diffs_pos.
Qed.

(** X25: the derivative of a line is its slope: for a signal with
    [y = a * t + b] on each row of an increasing index, derivated with
    respect to its index, the first order gives NaN on the first row and
    [a] on every other row, and a higher order [n] gives NaN on the
    first [n] rows and zero on every other row. *)
Theorem series_derivate_affine (l : frame Q) (a b : Q) (n : nat) :
  increasing (index l) ->
  Forall (fun r => snd r == a * fst r + b) l ->
  exists qs,
    map snd (series_derivate (plain_signal l) None (Z.of_nat (S n)))
    = repeat NaN (Nat.min (S n) (length l)) ++ map Fin qs
    /\ Forall (fun q => q == match n with O => a | _ => 0 end) qs.
Proof.
  intros Hinc Hl.
  destruct (derivate_iter_affine l a b n Hinc Hl) as (qs & E & Hlen & Hc).
  exists qs. split; [|exact Hc].
  unfold series_derivate, _resolve_x.
  rewrite Nat2Z.id.
  assert (Ei : index (plain_signal l) = index l).
  { unfold index, plain_signal. rewrite map_map. reflexivity. }
  assert (Ev : map of_nan (map snd (plain_signal l)) = map Fin (map snd l)).
  { unfold plain_signal. rewrite !map_map. reflexivity. }
  assert (Ex : map of_nan (map Some (index (plain_signal l)))
               = map Fin (index l)).
  { rewrite Ei, map_map. reflexivity. }
  rewrite Ex, Ev, Ei, E.
  apply index_combine_values.
  rewrite length_app, repeat_length, length_map.
  unfold index. rewrite length_map. exact Hlen.
Qed.

(** ** Windowing by signal *)

Lemma searchsorted_right_mono (ix : list Q) (x y : Q) :
  x <= y -> (searchsorted_right ix x <= searchsorted_right ix y)%nat.
Proof.
  intro H. induction ix as [|t ix IH]; [reflexivity|].
  cbn [searchsorted_right]. destruct (Qle_bool t x) eqn:Ex; [|lia].
  assert (Ey : Qle_bool t y = true).
  { apply Qle_bool_iff in Ex. apply Qle_bool_iff. lra. }
  rewrite Ey. lia.
Qed.

Lemma skipn_length_app {X : Type} (l1 l2 : list X) :
  skipn (length l1) (l1 ++ l2) = l2.
Proof. induction l1 as [|a l1 IH]; [reflexivity | exact IH]. Qed.

Section PreWindowFacts.
Context {A : Type}.
Implicit Types (sig : frame A) (r : Q * A).

(** The [pre] window starts with the last row at or before its start. *)
Lemma pre_window_head (float64_index : bool) (before after : frame A) r
    (s e : Q) :
  increasing (index (before ++ r :: after)) ->
  fst r <= s ->
  Forall (fun x => s < fst x) after ->
  s <= e ->
  exists rest,
    _data_window float64_index (before ++ r :: after) (Some s, Some e)
                 "pre" false
    = inr (r :: rest).
Proof.
  intros Hinc Hr Hafter Hse.
  assert (Hs : searchsorted_right (index (before ++ r :: after)) s
               = S (length before)).
  { replace (before ++ r :: after) with ((before ++ [r]) ++ after)
      by (now rewrite <- app_assoc).
    rewrite index_app, searchsorted_right_app.
    - unfold index. rewrite length_map, length_app. cbn [length]. lia.
    - rewrite index_app in Hinc.
      destruct (increasing_app _ _ Hinc) as (_ & _ & Hlt).
      rewrite index_app. apply Forall_app. split.
      + apply Forall_forall. intros t Ht.
        assert (t < fst r); [|lra].
        apply Hlt; [assumption|]. now left.
      + constructor; [assumption | constructor].
    - intros t Ht. destruct after as [|x after]; [discriminate|].
      injection Ht as <-. now inversion Hafter. }
  pose proof (searchsorted_right_mono (index (before ++ r :: after)) s e Hse)
    as Hm.
  rewrite Hs in Hm.
  change (_data_window float64_index (before ++ r :: after)
            (Some s, Some e) "pre" false)
    with (window_by_position (before ++ r :: after) (Some s, Some e)
            (Ffill, Ffill)).
  unfold window_by_position, get_loc, pad_loc. cbn [fst snd].
  rewrite Hs.
  destruct (searchsorted_right (index (before ++ r :: after)) e)
    as [|m] eqn:Em; [lia|].
  cbn [bind ret]. unfold iloc_slice.
  rewrite skipn_length_app.
  replace (m + 1 - length before)%nat with (S (m - length before)) by lia.
  cbn [firstn]. now eexists.
Qed.

Lemma split_at_start sig (s : Q) r0 :
  increasing (index sig) ->
  hd_error sig = Some r0 ->
  fst r0 <= s ->
  exists r, last_at_or_before s sig r.
Proof.
  revert r0. induction sig as [|a sig IH]; intros r0 Hinc Hhd Hle;
    [discriminate|].
  injection Hhd as ->. destruct sig as [|b sig].
  - exists r0, [], []. split; [reflexivity|]. split; [assumption|constructor].
  - destruct (Qle_bool (fst b) s) eqn:E.
    + apply Qle_bool_iff in E.
      destruct (IH b (increasing_tail _ _ Hinc) eq_refl E)
        as (r & before & after & Heq & Hr & Haft).
      exists r, (r0 :: before), after. rewrite Heq.
      split; [reflexivity|]. now split.
    + apply Qle_bool_gt in E.
      exists r0, [], (b :: sig). split; [reflexivity|].
      split; [assumption|]. constructor; [assumption|].
      pose proof (increasing_head_lt _ _ (increasing_tail _ _ Hinc)) as Hlt.
      apply (proj1 (Forall_map fst _ sig)) in Hlt.
      eapply Forall_impl; [|exact Hlt]. cbn beta. intros; lra.
Qed.

Lemma last_at_or_before_unique sig (s : Q) r r' :
  last_at_or_before s sig r -> last_at_or_before s sig r' -> r = r'.
Proof.
  intros (b1 & a1 & E1 & H1 & F1) (b2 & a2 & E2 & H2 & F2).
  rewrite E1 in E2. clear E1. revert b2 E2.
  induction b1 as [|x b1 IH]; intros [|y b2] E.
  - now injection E.
  - cbn in E. injection E as -> ->.
    assert (Hin : In r' (b2 ++ r' :: a2)) by (apply in_elt).
    rewrite Forall_forall in F1. apply F1 in Hin. lra.
  - cbn in E. injection E as <- <-.
    assert (Hin : In r (b1 ++ r :: a1)) by (apply in_elt).
    rewrite Forall_forall in F2. apply F2 in Hin. lra.
  - cbn in E. injection E as _ E. now apply (IH b2).
Qed.

(** Clipping a window that starts within the index keeps its start. *)
Lemma clip_inside (ix : list Q) (first lst s e : Q) :
  index_first ix = inr first ->
  index_last ix = inr lst ->
  first <= s -> s <= lst -> s <= e ->
  exists s' e',
    clip ix (Some s, Some e) = inr (Some s', Some e')
    /\ s' == s /\ s' <= e'.
Proof.
  intros Hf Hl H1 H2 H3. unfold clip. rewrite Hf, Hl. cbn [bind ret].
  destruct (Qle_bool s first) eqn:E1, (Qle_bool e first) eqn:E2,
    (Qle_bool lst s) eqn:E3, (Qle_bool lst e) eqn:E4;
    cbn [andb]; order_facts;
    eexists _, _; (split; [reflexivity|]); split; lra.
Qed.

(** Clipping any ordered window gives bounds at or after the first
    label. *)
Lemma clip_bounds (ix : list Q) (first lst s e : Q) :
  index_first ix = inr first ->
  index_last ix = inr lst ->
  first <= lst -> s <= e ->
  exists s' e',
    clip ix (Some s, Some e) = inr (Some s', Some e')
    /\ first <= s' /\ first <= e'.
Proof.
  intros Hf Hl H1 H2. unfold clip. rewrite Hf, Hl. cbn [bind ret].
  destruct (Qle_bool s first) eqn:E1, (Qle_bool e first) eqn:E2,
    (Qle_bool lst s) eqn:E3, (Qle_bool lst e) eqn:E4;
    cbn [andb]; order_facts;
    eexists _, _; (split; [reflexivity|]); split; lra.
Qed.

(** The [pre] window of an ordered window, clipped, never fails on a
    table with rows. *)
Lemma pre_window_total (float64_index : bool) sig (s e : Q) :
  sig <> [] -> increasing (index sig) -> s <= e ->
  exists w,
    _data_window float64_index sig (Some s, Some e) "pre" true = inr w.
Proof.
  intros Hne Hinc Hse. destruct sig as [|r0 sig]; [congruence|].
  rewrite _data_window_clip.
  pose proof (increasing_le_last _ _ Hinc) as Hle.
  destruct (clip_bounds (index (r0 :: sig)) (fst r0)
              (last (index sig) (fst r0)) s e)
    as (s' & e' & Ec & Hs' & He'); try reflexivity; try assumption.
  { now inversion Hle. }
  rewrite Ec. cbn [bind].
  change (_data_window float64_index (r0 :: sig) (Some s', Some e')
            "pre" false)
    with (window_by_position (r0 :: sig) (Some s', Some e') (Ffill, Ffill)).
  unfold window_by_position, get_loc, pad_loc.
  cbn [fst snd index map searchsorted_right].
  assert (E1 : Qle_bool (fst r0) s' = true) by now apply Qle_bool_iff.
  assert (E2 : Qle_bool (fst r0) e' = true) by now apply Qle_bool_iff.
  rewrite E1, E2. cbn [bind ret]. now eexists.
Qed.

(** The clipped [pre] window of a signal that straddles the start: its
    first row is the last row of the signal at or before the start. *)
Lemma signal_window_head (float64_index : bool) sig (s e : Q) :
  increasing (index sig) -> s <= e -> straddles s sig = true ->
  exists r rest,
    _data_window float64_index sig (Some s, Some e) "pre" true
    = inr (r :: rest)
    /\ last_at_or_before s sig r.
Proof.
  intros Hinc Hse Hst. destruct sig as [|r0 sig0]; [discriminate|].
  cbn [straddles] in Hst. apply andb_true_iff in Hst.
  destruct Hst as [H1 H2]. order_facts.
  destruct (split_at_start (r0 :: sig0) s r0 Hinc eq_refl H1)
    as (r & before & after & Heq & Hr & Haft).
  rewrite _data_window_clip.
  destruct (clip_inside (index (r0 :: sig0)) (fst r0)
              (last (index sig0) (fst r0)) s e)
    as (s' & e' & Ec & Hs' & Hse'); try reflexivity; try assumption.
  rewrite Ec. cbn [bind]. rewrite Heq in Hinc |- *.
  destruct (pre_window_head float64_index before after r s' e')
    as (rest & E); try assumption.
  - lra.
  - eapply Forall_impl; [|exact Haft]. cbn beta. intros; lra.
  - exists r, rest. split; [exact E|].
    exists before, after. split; [reflexivity|]. now split.
Qed.

End PreWindowFacts.

Lemma Forall2_in_l {X Y : Type} (R : X -> Y -> Prop) (l1 : list X)
    (l2 : list Y) (x : X) :
  Forall2 R l1 l2 -> In x l1 -> exists y, In y l2 /\ R x y.
Proof.
  induction 1 as [|a b l1 l2 Hab _ IH]; intros Hin; [destruct Hin|].
  destruct Hin as [<-|Hin].
  - exists b. split; [now left | assumption].
  - destruct (IH Hin) as (y & Hy & Hr). exists y. split; [now right|assumption].
Qed.

Lemma Forall2_in_r {X Y : Type} (R : X -> Y -> Prop) (l1 : list X)
    (l2 : list Y) (y : Y) :
  Forall2 R l1 l2 -> In y l2 -> exists x, In x l1 /\ R x y.
Proof.
  induction 1 as [|a b l1 l2 Hab _ IH]; intros Hin; [destruct Hin|].
  destruct Hin as [<-|Hin].
  - exists a. split; [now left | assumption].
  - destruct (IH Hin) as (x & Hx & Hr). exists x. split; [now right|assumption].
Qed.

Lemma insert_sorted_in {X : Type} (x : Q * X) (l : list (Q * X))
    (y : Q * X) :
  In y (insert_sorted x l) <-> y = x \/ In y l.
Proof.
  induction l as [|z l IH]; cbn [insert_sorted].
  - cbn. intuition.
  - destruct (Qle_bool (fst x) (fst z)); cbn [In]; rewrite ?IH; intuition.
Qed.

Lemma insert_sorted_nondecreasing {X : Type} (x : Q * X)
    (l : list (Q * X)) :
  nondecreasing (map fst l) -> nondecreasing (map fst (insert_sorted x l)).
Proof.
  induction l as [|y l IH]; intro H; [exact I|].
  cbn [insert_sorted]. destruct (Qle_bool (fst x) (fst y)) eqn:E.
  - apply Qle_bool_iff in E. cbn [map]. split; [exact E | exact H].
  - apply Qle_bool_gt in E. destruct l as [|z l].
    + cbn. split; [lra | exact I].
    + cbn [map] in H. destruct H as [Hyz H].
      specialize (IH H). cbn [insert_sorted] in IH |- *.
      destruct (Qle_bool (fst x) (fst z)) eqn:E2.
      * cbn [map] in IH |- *. split; [lra | exact IH].
      * cbn [map] in IH |- *. split; [exact Hyz | exact IH].
Qed.

Lemma fold_insert_sorted {X : Type} (l : list (Q * X)) :
  nondecreasing (map fst (fold_right insert_sorted [] l))
  /\ forall y, In y (fold_right insert_sorted [] l) <-> In y l.
Proof.
  induction l as [|x l [IH1 IH2]]; [split; [exact I | reflexivity]|].
  cbn [fold_right]. split.
  - now apply insert_sorted_nondecreasing.
  - intro y. rewrite insert_sorted_in, IH2. cbn. intuition.
Qed.

Lemma set_index_self {X : Type} (l : frame X) : set_index (index l) l = l.
Proof.
  unfold set_index, index. induction l as [|[t v] l IH]; [reflexivity|].
  cbn. now rewrite IH.
Qed.

Section WindowSignalFacts.
Context {V : Type} (veqb vltb : V -> V -> bool).
Hypothesis veqb_eq : forall a b, veqb a b = true <-> a = b.
Variable nextafter_down : Q -> Q.
Implicit Types (df sig w : frame (string -> V)) (r : Q * (string -> V)).
Implicit Types (signals : list (list (string * V) * frame (string -> V))).

Lemma signal_in_window_spec sig (s : Q) (e : option Q) :
  sig <> [] -> signal_in_window sig (Some s, e) = inr (straddles s sig).
Proof. destruct sig; [congruence | reflexivity]. Qed.

(** The windows of the signals that straddle the start, in the order of
    their signals. *)
Lemma signal_windows_spec (float64_index : bool) (s e : Q) signals :
  s <= e ->
  Forall (fun sg => snd sg <> [] /\ increasing (index (snd sg))) signals ->
  exists ws,
    signal_windows float64_index (Some s, Some e) signals = inr ws
    /\ Forall2 (fun sg w => exists r rest,
                    w = r :: rest /\ last_at_or_before s (snd sg) r)
               (filter (fun sg => straddles s (snd sg)) signals) ws.
Proof.
  intros Hse Hall. induction Hall as [|[cv sig] signals [Hne Hinc] _ IH].
  - exists []. split; [reflexivity | constructor].
  - destruct IH as (ws & Ews & Hws). cbn [snd] in Hne, Hinc.
    cbn [signal_windows filter snd].
    rewrite (signal_in_window_spec sig s (Some e) Hne). cbn [bind].
    destruct (straddles s sig) eqn:Es.
    + destruct (signal_window_head float64_index sig s e Hinc Hse Es)
        as (r & rest & E & Hr).
      unfold df_window. rewrite E. cbn [bind]. rewrite Ews. cbn [bind ret].
      exists ((r :: rest) :: ws). split; [reflexivity|].
      constructor; [|exact Hws]. now exists r, rest.
    + exists ws. split; [exact Ews | exact Hws].
Qed.

Lemma sorted_by_first_spec (ws : list (frame (string -> V))) :
  Forall (fun w => w <> []) ws ->
  exists sorted,
    sorted_by_first ws = inr sorted
    /\ (forall w, In w sorted <-> In w ws)
    /\ nondecreasing (map (fun w => hd 0 (index w)) sorted).
Proof.
  intro Hne. unfold sorted_by_first.
  rewrite (map_result_in _ (fun w => (hd 0 (index w), w))).
  - cbn [bind ret].
    destruct (fold_insert_sorted
                (map (fun w : frame (string -> V) => (hd 0 (index w), w)) ws))
      as [Hs Hin].
    eexists. split; [reflexivity|]. split.
    + intro w. rewrite in_map_iff. split.
      * intros (kw & <- & Hkw). apply Hin in Hkw.
        apply in_map_iff in Hkw. now destruct Hkw as (w' & <- & Hw').
      * intro Hw. exists (hd 0 (index w), w). split; [reflexivity|].
        apply Hin.
        now apply (in_map (fun w' : frame (string -> V) =>
                             (hd 0 (index w'), w'))).
    + rewrite map_map.
      erewrite map_ext_in; [exact Hs|].
      intros kw Hkw. apply Hin in Hkw. apply in_map_iff in Hkw.
      now destruct Hkw as (w' & <- & _).
  - intros w Hw. rewrite Forall_forall in Hne.
    specialize (Hne w Hw). destruct w as [|r rest]; [congruence|].
    reflexivity.
Qed.

(** The first rows of tables that all have rows. *)
Lemma first_rows_spec (sorted : list (frame (string -> V))) :
  Forall (fun w => w <> []) sorted ->
  index (concat (map (iloc_slice (Some 0%nat) (Some 1%nat)) sorted))
  = map (fun w => hd 0 (index w)) sorted
  /\ forall r,
       In r (concat (map (iloc_slice (Some 0%nat) (Some 1%nat)) sorted))
       <-> exists rest, In (r :: rest) sorted.
Proof.
  induction 1 as [|w sorted Hw _ [IH1 IH2]].
  - split; [reflexivity|]. intro r. split; [intros [] | intros (? & [])].
  - destruct w as [|r0 rest0]; [congruence|].
    cbn [map concat]. change (iloc_slice (Some 0%nat) (Some 1%nat)
                                (r0 :: rest0)) with [r0].
    split.
    + cbn [app]. change (index (r0 :: ?l)) with (fst r0 :: index l).
      now rewrite IH1.
    + intro r. cbn [app In]. rewrite IH2. split.
      * intros [<-|(rest & Hr)]; [exists rest0; now left|].
        exists rest. now right.
      * intros (rest & [E|Hr]); [left; congruence|].
        right. now exists rest.
Qed.

(** The signals are made of rows of the table, in their order. *)
Lemma split_signals_shape (float64_index : bool) (columns : list string)
    df (signal_cols : list string) signals :
  increasing (index df) ->
  df_split_signals veqb vltb float64_index columns df signal_cols false
  = inr signals ->
  Forall (fun sg => increasing (index (snd sg))
                    /\ incl (snd sg) df
                    /\ (df <> [] -> snd sg <> [])) signals.
Proof.
  intros Hinc Hsplit. destruct signal_cols as [|c cs].
  - injection Hsplit as <-. constructor; [|constructor].
    cbn [snd]. split; [assumption|]. split; [apply incl_refl | auto].
  - unfold df_split_signals, groupby in Hsplit.
    destruct (forallb _ (c :: cs)); [|discriminate].
    cbn [bind ret] in Hsplit.
    rewrite (map_result_in _ (fun gs =>
               (combine (c :: cs) (fst gs), snd gs))) in Hsplit
      by reflexivity.
    injection Hsplit as <-. rewrite map_map. cbn [fst snd].
    destruct (group_keys_spec veqb vltb veqb_eq (c :: cs) df)
      as [_ Hkeys].
    apply Forall_forall. intros sg Hsg. apply in_map_iff in Hsg.
    destruct Hsg as (k & <- & Hk). cbn [snd]. split; [|split].
    + now apply increasing_filter.
    + intros r Hr. now apply filter_In in Hr.
    + intros _ C. apply Hkeys in Hk. destruct Hk as (r & Hr & <-).
      apply (in_nil (a := r)). rewrite <- C.
      apply filter_In. split; [assumption|].
      change (list_eqb veqb (signal_key (c :: cs) r)
                       (signal_key (c :: cs) r) = true).
      now apply (list_eqb_eq veqb veqb_eq).
Qed.

(** X26: when no signal has rows on both sides of the start of an
    ordered window (the window starts before the first row of the table,
    or after the last row of every signal), [df_window_signals] raises
    [ValueError], with or without [compress_init]: there is nothing to
    concatenate, and the window of the table is not returned alone. *)
Theorem df_window_signals_no_signal (float64_index : bool)
    (columns : list string) df (s e : Q) (signal_cols : list string)
    (compress_init : bool) signals :
  increasing (index df) ->
  df <> [] ->
  s <= e ->
  df_split_signals veqb vltb float64_index columns df signal_cols false
  = inr signals ->
  Forall (fun sg => straddles s (snd sg) = false) signals ->
  df_window_signals veqb vltb nextafter_down float64_index columns df
                    (Some s, Some e) signal_cols compress_init
  = inl ValueError.
Proof.
  intros Hinc Hne Hse Hsplit Hnone.
  pose proof (split_signals_shape _ _ _ _ _ Hinc Hsplit) as Hshape.
  destruct (signal_windows_spec float64_index s e signals Hse)
    as (ws & Ews & Hws).
  { eapply Forall_impl; [|exact Hshape]. cbn beta.
    intros sg (H1 & _ & H3). split; [now apply H3 | exact H1]. }
  rewrite filter_none in Hws by exact Hnone. inversion Hws; subst.
  destruct (pre_window_total float64_index df s e Hne Hinc Hse)
    as (windowed & Ew).
  unfold df_window_signals. rewrite Hsplit. cbn [bind].
  rewrite Ews. cbn [bind]. unfold df_window. rewrite Ew. reflexivity.
Qed.

Lemma straddles_table df sig (s : Q) :
  increasing (index df) -> incl sig df -> straddles s sig = true ->
  straddles s df = true.
Proof.
  intros Hinc Hincl Hst. destruct sig as [|q0 sig]; [discriminate|].
  cbn [straddles] in Hst. apply andb_true_iff in Hst.
  destruct Hst as [H1 H2]. order_facts.
  destruct df as [|r0 df]; [destruct (Hincl q0); now left|].
  pose proof (increasing_le_last _ _ Hinc) as Hle.
  pose proof (increasing_head_lt _ _ Hinc) as Hlt.
  assert (Hge : Forall (fun r => fst r0 <= fst r) (r0 :: df)).
  { constructor; [lra|].
    apply (proj1 (Forall_map fst _ df)) in Hlt.
    eapply Forall_impl; [|exact Hlt]. cbn beta. intros; lra. }
  apply (proj1 (Forall_map fst _ (r0 :: df))) in Hle.
  rewrite Forall_forall in Hle, Hge.
  assert (Hq0 : In q0 (r0 :: df)) by (apply Hincl; now left).
  assert (Hql : In (last sig q0) (r0 :: df)).
  { apply Hincl. destruct sig as [|q1 sig]; [now left|].
    right. apply (Forall_last (fun r => In r (q1 :: sig)));
      [|discriminate].
    apply Forall_forall. auto. }
  assert (El : last (index sig) (fst q0) = fst (last sig q0))
    by apply (last_of_map fst).
  rewrite El in H2.
  cbn [straddles]. apply andb_true_iff. split; apply Qle_bool_iff.
  - specialize (Hge q0 Hq0). cbn beta in Hge. lra.
  - specialize (Hle _ Hql). cbn beta in Hle.
    eapply Qle_trans; [exact H2 | exact Hle].
Qed.

(** X27: when some signal has rows on both sides of the start [s] of an
    ordered window of a table with an increasing index, the result of
    [df_window_signals] is the [pre] window of the whole table, which
    starts with the last row [r0] of the table at or before [s],
    preceded by the init rows: exactly one row for each signal with rows
    on both sides of [s], its last row at or before [s], in the order of
    their labels (labels never go down). With [compress_init] the rows
    are the same and only the labels of the init rows are replaced, by
    the values that [nextafter] steps down from the label of [r0]. *)
Theorem df_window_signals_rows (float64_index : bool)
    (columns : list string) df (s e : Q) (signal_cols : list string)
    signals :
  increasing (index df) ->
  s <= e ->
  df_split_signals veqb vltb float64_index columns df signal_cols false
  = inr signals ->
  Exists (fun sg => straddles s (snd sg) = true) signals ->
  exists init r0 windowed,
    df_window float64_index df (Some s, Some e) "pre" true
    = inr (r0 :: windowed)
    /\ last_at_or_before s df r0
    /\ df_window_signals veqb vltb nextafter_down float64_index columns df
                         (Some s, Some e) signal_cols false
       = inr (init ++ r0 :: windowed)
    /\ df_window_signals veqb vltb nextafter_down float64_index columns df
                         (Some s, Some e) signal_cols true
       = inr (set_index
                (rev (smallest_increment nextafter_down (fst r0)
                                         (length init)))
                init
              ++ r0 :: windowed)
    /\ (forall r,
          In r init
          <-> exists sg, In sg signals
                         /\ straddles s (snd sg) = true
                         /\ last_at_or_before s (snd sg) r)
    /\ nondecreasing (index init).
Proof.
  intros Hinc Hse Hsplit Hsome.
  pose proof (split_signals_shape _ _ _ _ _ Hinc Hsplit) as Hshape.
  apply Exists_exists in Hsome. destruct Hsome as (sg0 & Hsg0 & Hst0).
  assert (Hdf : straddles s df = true).
  { rewrite Forall_forall in Hshape.
    destruct (Hshape sg0 Hsg0) as (_ & Hincl & _).
    now apply (straddles_table df (snd sg0)). }
  assert (Hne : df <> []) by (intros ->; discriminate).
  destruct (signal_window_head float64_index df s e Hinc Hse Hdf)
    as (w0 & windowed & Ew & Hw0).
  destruct (signal_windows_spec float64_index s e signals Hse)
    as (ws & Ews & Hws).
  { eapply Forall_impl; [|exact Hshape]. cbn beta.
    intros sg (H1 & _ & H3). split; [now apply H3 | exact H1]. }
  assert (Hwne : Forall (fun w => w <> []) ws).
  { apply Forall_forall. intros w Hw.
    destruct (Forall2_in_r _ _ _ _ Hws Hw) as (sg & _ & r & rest & -> & _).
    discriminate. }
  destruct (sorted_by_first_spec ws Hwne) as (sorted & Es & Hin & Hnd).
  assert (Hsne : Forall (fun w => w <> []) sorted).
  { rewrite Forall_forall in *. intros w Hw. apply Hwne. now apply Hin. }
  destruct (first_rows_spec sorted Hsne) as [Hix Hrows].
  set (init := concat (map (iloc_slice (Some 0%nat) (Some 1%nat)) sorted))
    in *.
  assert (Hsorted : sorted <> []).
  { assert (Hf : In sg0 (filter (fun sg => straddles s (snd sg)) signals))
      by (apply filter_In; now split).
    destruct (Forall2_in_l _ _ _ _ Hws Hf) as (w & Hw & _).
    apply Hin in Hw. intros ->. destruct Hw. }
  exists init, w0, windowed.
  split; [exact Ew|]. split; [exact Hw0|].
  split; [|split; [|split]].
  - unfold df_window_signals. rewrite Hsplit. cbn [bind].
    rewrite Ews. cbn [bind]. unfold df_window in *. rewrite Ew.
    cbn [bind]. rewrite Es. cbn [bind].
    destruct sorted as [|w1 sorted']; [congruence|].
    cbn [bind ret]. fold init. now rewrite set_index_self.
  - unfold df_window_signals. rewrite Hsplit. cbn [bind].
    rewrite Ews. cbn [bind]. unfold df_window in *. rewrite Ew.
    cbn [bind]. rewrite Es. cbn [bind].
    destruct sorted as [|w1 sorted']; [congruence|].
    cbn [bind ret index_first index map]. fold init. reflexivity.
  - intro r. rewrite Hrows. split.
    + intros (rest & Hr). apply Hin in Hr.
      destruct (Forall2_in_r _ _ _ _ Hws Hr)
        as (sg & Hsg & r' & rest' & E & Hl).
      injection E as <- <-. apply filter_In in Hsg.
      exists sg. now split.
    + intros (sg & Hsg & Hst & Hl).
      assert (Hf : In sg (filter (fun sg => straddles s (snd sg)) signals))
        by (apply filter_In; now split).
      destruct (Forall2_in_l _ _ _ _ Hws Hf)
        as (w & Hw & r' & rest' & -> & Hl').
      rewrite (last_at_or_before_unique _ _ _ _ Hl Hl').
      exists rest'. now apply Hin.
  - now rewrite Hix.
Qed.

End WindowSignalFacts.

(** ** Derivation and windowing by signal on the examples *)

Lemma series_derivate_leading_nan_witness :
  index (series_derivate signed_example
                         (Some [Some 0; Some 1; None; Some 5]) 2)
  = index signed_example
  /\ exists rest,
       map snd (series_derivate signed_example
                                (Some [Some 0; Some 1; None; Some 5]) 2)
       = repeat NaN (Nat.min (Z.to_nat 2) (length signed_example)) ++ rest.
Proof.
  apply (series_derivate_leading_nan signed_example
           (Some [Some 0; Some 1; None; Some 5]) 2).
  reflexivity.
Defined.

Lemma series_derivate_affine_witness :
  exists qs,
    map snd (series_derivate (plain_signal affine_example) None
                             (Z.of_nat 1))
    = repeat NaN (Nat.min 1 (length affine_example)) ++ map Fin qs
    /\ Forall (fun q => q == 2) qs.
Proof.
  apply (series_derivate_affine affine_example 2 1 0).
  - vm_compute. repeat split.
  - repeat (constructor; [vm_compute; reflexivity|]). constructor.
Defined.

Lemma df_window_signals_no_signal_witness :
  df_window_signals Z.eqb Z.ltb (fun q => q - 1) false
                    ["cpu"; "freq"]%string signals_example
                    (Some (-1), Some 4.5) ["cpu"%string] false
  = inl ValueError.
Proof.
  eapply (df_window_signals_no_signal Z.eqb Z.ltb Z.eqb_eq (fun q => q - 1)
            false ["cpu"; "freq"]%string signals_example (-1) 4.5
            ["cpu"%string] false).
  - vm_compute. repeat split.
  - discriminate.
  - vm_compute. discriminate.
  - vm_compute. reflexivity.
  - repeat constructor.
Defined.

Lemma df_window_signals_rows_witness :
  exists init r0 windowed,
    df_window_signals Z.eqb Z.ltb (fun q => q - 1) false
                      ["cpu"; "freq"]%string signals_example
                      (Some 3, Some 4.5) ["cpu"%string] false
    = inr (init ++ r0 :: windowed)
    /\ last_at_or_before 3 signals_example r0
    /\ nondecreasing (index init).
Proof.
  edestruct (df_window_signals_rows Z.eqb Z.ltb Z.eqb_eq (fun q => q - 1)
               false ["cpu"; "freq"]%string signals_example 3 4.5
               ["cpu"%string])
    as (init & r0 & windowed & _ & H2 & H3 & _ & _ & H6).
  - vm_compute. repeat split.
  - vm_compute. discriminate.
  - vm_compute. reflexivity.
  - apply Exists_cons_hd. reflexivity.
  - exists init, r0, windowed. auto.
Defined.
